(** * STORYHUB: the navigation client, the lightbox and the manifest store

    A shallow embedding of the browser scripts of the repository
    ([js/navgen.js], its tree-building variant, and
    [content/order/js/lightbox.js]) together with the manifest store of the
    build pipeline, and the properties the specification states about them.
    Part III holds further properties of the scripts, read off their code.

    Conventions of the embedding.
    - A value produced by [res.json()] is a [Json] tree; a property read that
      finds nothing yields [None] (JavaScript's [undefined]).
    - JavaScript numbers are embedded as [Z]: the manifest only carries
      integral indices and counts, and on those [a - b] is exact.
    - JavaScript strings are embedded as byte strings; case mapping and
      white space are the ASCII ones.
    - A thrown exception is the [Err] branch of [Result]; this includes the
      [TypeError] of [String] and [Number] on an object that has a
      [toString] member of its own.
    - Functions of the host (collation, URL resolution, number parsing) are
      the fields of a [Host] record. *)

From Stdlib Require Import ZArith Ascii String DecimalString Sorted Permutation Lia.
From stdpp Require Import base decidable option list strings gmap.

Local Open Scope Z_scope.
Set Warnings "-register-all".

(* ===================================================================== *)
(** * Part I: definitions                                                 *)
(* ===================================================================== *)

(** ** Exceptions and the result monad *)

Record Exn := mkExn { exn_name : string; exn_message : string }.

Inductive Result (A : Type) : Type :=
| Ok (a : A)
| Err (e : Exn).
Arguments Ok {A} a.
Arguments Err {A} e.

#[global] Instance Result_ret : MRet Result := fun A a => Ok a.
#[global] Instance Result_bind : MBind Result := fun A B f m =>
  match m with
  | Ok a => f a
  | Err e => Err e
  end.

(** [for (const x of xs) acc.push(f(x))] with early exit on a throw. *)
Fixpoint traverse {A B : Type} (f : A -> Result B) (xs : list A) : Result (list B) :=
  match xs with
  | [] => Ok []
  | x :: xs' =>
      y ← f x;
      ys ← traverse f xs';
      mret (y :: ys)
  end.

(** ** Strings as the scripts use them *)

Module Str.

Definition code (c : ascii) : N := N_of_ascii c.

Definition is_upper (c : ascii) : bool := ((65 <=? code c) && (code c <=? 90))%N.
Definition is_lower (c : ascii) : bool := ((97 <=? code c) && (code c <=? 122))%N.

Definition lower_char (c : ascii) : ascii :=
  if is_upper c then ascii_of_N (code c + 32) else c.
Definition upper_char (c : ascii) : ascii :=
  if is_lower c then ascii_of_N (code c - 32) else c.

(** [s.toLowerCase()] and [s.toUpperCase()]. *)
Fixpoint toLowerCase (s : string) : string :=
  match s with
  | EmptyString => EmptyString
  | String c s' => String (lower_char c) (toLowerCase s')
  end.

Fixpoint toUpperCase (s : string) : string :=
  match s with
  | EmptyString => EmptyString
  | String c s' => String (upper_char c) (toUpperCase s')
  end.

(** White space of [trim] and of the regular expression class [\s]. *)
Definition is_space (c : ascii) : bool :=
  ((code c =? 32) || ((9 <=? code c) && (code c <=? 13)))%N.

Fixpoint trimStart (s : string) : string :=
  match s with
  | EmptyString => EmptyString
  | String c s' => if is_space c then trimStart s' else s
  end.

(** Drops trailing white space: a character is kept when something that is
    kept follows it, or when it is not white space. *)
Fixpoint trimEnd (s : string) : string :=
  match s with
  | EmptyString => EmptyString
  | String c s' =>
      match trimEnd s' with
      | EmptyString => if is_space c then EmptyString else String c EmptyString
      | t => String c t
      end
  end.

(** [s.trim()]. *)
Definition trim (s : string) : string := trimEnd (trimStart s).

Fixpoint startsWith (s p : string) : bool :=
  match p, s with
  | EmptyString, _ => true
  | String _ _, EmptyString => false
  | String a p', String b s' => if Ascii.eqb a b then startsWith s' p' else false
  end.

Fixpoint drop (n : nat) (s : string) : string :=
  match n, s with
  | O, _ => s
  | S _, EmptyString => EmptyString
  | S n', String _ s' => drop n' s'
  end.

Fixpoint take (n : nat) (s : string) : string :=
  match n, s with
  | O, _ => EmptyString
  | S _, EmptyString => EmptyString
  | S n', String c s' => String c (take n' s')
  end.

(** [s.endsWith(p)]. *)
Definition endsWith (s p : string) : bool :=
  (String.length p <=? String.length s)%nat &&
  String.eqb (drop (String.length s - String.length p) s) p.

(** [s.indexOf(p)], [None] standing for [-1]. *)
Fixpoint indexOf_from (i : nat) (s p : string) : option nat :=
  if startsWith s p then Some i
  else match s with
       | EmptyString => None
       | String _ s' => indexOf_from (S i) s' p
       end.
Definition indexOf (s p : string) : option nat := indexOf_from 0 s p.

(** [s.includes(p)]. *)
Definition includes (s p : string) : bool :=
  match indexOf s p with Some _ => true | None => false end.

Definition rev_string (cs : list ascii) : string := string_of_list_ascii (rev cs).

(** [s.split(sep)] for a non-empty separator: [cur] is the piece read so far
    (reversed) and [skip] counts the characters of a separator still to be
    passed over. *)
Fixpoint split_go (sep : string) (skip : nat) (cur : list ascii) (s : string) : list string :=
  match s with
  | EmptyString => [rev_string cur]
  | String c s' =>
      match skip with
      | S k => split_go sep k cur s'
      | O =>
          if startsWith s sep
          then rev_string cur :: split_go sep (String.length sep - 1) [] s'
          else split_go sep O (c :: cur) s'
      end
  end.
Definition split (s sep : string) : list string := split_go sep 0 [] s.

(** [xs.join(sep)] on strings. *)
Fixpoint join (sep : string) (xs : list string) : string :=
  match xs with
  | [] => EmptyString
  | [x] => x
  | x :: xs' => x +:+ sep +:+ join sep xs'
  end.

Definition nonempty (s : string) : bool :=
  match s with EmptyString => false | _ => true end.

(** [s.replace(/\\/g, "/")]. *)
Fixpoint replaceBackslashes (s : string) : string :=
  match s with
  | EmptyString => EmptyString
  | String c s' =>
      String (if Ascii.eqb c "\"%char then "/"%char else c) (replaceBackslashes s')
  end.

(** [s.replace(/^\.\//, "")]. *)
Definition stripDotSlash (s : string) : string :=
  if startsWith s "./" then drop 2 s else s.

(** [s.replace(/\/{2,}/g, "/")]: a slash that follows a slash is dropped. *)
Fixpoint collapseSlashes_go (afterSlash : bool) (s : string) : string :=
  match s with
  | EmptyString => EmptyString
  | String c s' =>
      if Ascii.eqb c "/"%char
      then if afterSlash then collapseSlashes_go true s'
           else String c (collapseSlashes_go true s')
      else String c (collapseSlashes_go false s')
  end.
Definition collapseSlashes (s : string) : string := collapseSlashes_go false s.

(** [s.replace(/\.html$/i, "")]. *)
Definition stripHtmlSuffix (s : string) : string :=
  if endsWith (toLowerCase s) ".html" then take (String.length s - 5) s else s.

(** [s.replace(/[_-]+/g, " ")]: every run of underscores and hyphens becomes
    one space. *)
Definition is_sep_char (c : ascii) : bool :=
  Ascii.eqb c "_"%char || Ascii.eqb c "-"%char.
Fixpoint replaceSeparators_go (inRun : bool) (s : string) : string :=
  match s with
  | EmptyString => EmptyString
  | String c s' =>
      if is_sep_char c
      then if inRun then replaceSeparators_go true s'
           else String " "%char (replaceSeparators_go true s')
      else String c (replaceSeparators_go false s')
  end.
Definition replaceSeparators (s : string) : string := replaceSeparators_go false s.

(** [s.replace(/^[CL]\s+/i, "")]. *)
Definition stripKindLetter (s : string) : string :=
  match s with
  | String c (String d s') =>
      if (Ascii.eqb (lower_char c) "c"%char || Ascii.eqb (lower_char c) "l"%char)
         && is_space d
      then trimStart s' else s
  | _ => s
  end.

(** [s.replace(/[^/]+$/, "")]: the trailing run without a slash is removed. *)
Fixpoint stripLastSegment (s : string) : string :=
  match s with
  | EmptyString => EmptyString
  | String c s' =>
      match stripLastSegment s' with
      | EmptyString => if Ascii.eqb c "/"%char then String c EmptyString else EmptyString
      | t => String c t
      end
  end.

(** Decimal text of a number, as [String(n)] gives it. *)
Definition ofZ (n : Z) : string := NilZero.string_of_int (Z.to_int n).
Definition ofNat (n : nat) : string := ofZ (Z.of_nat n).

(** Code-unit comparison, the collation of the reference host: negative,
    zero or positive. *)
Fixpoint compareCodeUnits (a b : string) : Z :=
  match a, b with
  | EmptyString, EmptyString => 0
  | EmptyString, String _ _ => -1
  | String _ _, EmptyString => 1
  | String x a', String y b' =>
      if (code x <? code y)%N then -1
      else if (code y <? code x)%N then 1
      else compareCodeUnits a' b'
  end.

End Str.


(** ** Values read from the manifest *)

Inductive Json : Type :=
| JNull
| JBool (b : bool)
| JNum (n : Z)
| JStr (s : string)
| JArr (items : list Json)
| JObj (fields : list (string * Json)).

(** The result of a property read: [None] is [undefined]. *)
Abbreviation JsVal := (option Json).

Module Js.

(** The [typeof] operator. *)
Inductive TypeTag := TUndefined | TObject | TBoolean | TNumber | TString.

Definition typeof (v : JsVal) : TypeTag :=
  match v with
  | None => TUndefined
  | Some JNull => TObject
  | Some (JBool _) => TBoolean
  | Some (JNum _) => TNumber
  | Some (JStr _) => TString
  | Some (JArr _) => TObject
  | Some (JObj _) => TObject
  end.

Definition typeof_is (v : JsVal) (t : TypeTag) : bool :=
  match typeof v, t with
  | TUndefined, TUndefined | TObject, TObject | TBoolean, TBoolean
  | TNumber, TNumber | TString, TString => true
  | _, _ => false
  end.

(** ToBoolean: what [!v], [v || w] and [if (v)] test. *)
Definition truthy (v : JsVal) : bool :=
  match v with
  | None => false
  | Some JNull => false
  | Some (JBool b) => b
  | Some (JNum n) => negb (n =? 0)
  | Some (JStr s) => Str.nonempty s
  | Some (JArr _) => true
  | Some (JObj _) => true
  end.

(** [a || b]. *)
Definition or (a b : JsVal) : JsVal := if truthy a then a else b.


(** First binding of a key among the own properties of an object. *)
Fixpoint assoc (k : string) (fields : list (string * Json)) : JsVal :=
  match fields with
  | [] => None
  | (k', v) :: rest => if String.eqb k k' then Some v else assoc k rest
  end.

(** The element whose canonical index text is [k]. *)
Fixpoint elementAt {A : Type} (i : nat) (k : string) (items : list A) : option A :=
  match items with
  | [] => None
  | x :: rest => if String.eqb k (Str.ofNat i) then Some x else elementAt (S i) k rest
  end.

Definition typeError (what : string) : Exn :=
  mkExn "TypeError" ("Cannot read properties of null (reading '" +:+ what +:+ "')").

(** The exception of a conversion that finds no primitive value. *)
Definition conversionError : Exn :=
  mkExn "TypeError" "Cannot convert object to primitive value".

(** [String(v)].  An array prints its elements joined by commas, [null]
    elements as the empty string.  The properties of an object made by
    [JSON.parse] are data, never functions: an object with a [toString]
    member of its own hides [Object.prototype.toString], so that neither
    [toString] nor [valueOf] yields a primitive value and the conversion
    throws; every other object prints as ["[object Object]"]. *)
Fixpoint toStringJ (j : Json) : Result string :=
  match j with
  | JNull => Ok "null"
  | JBool true => Ok "true"
  | JBool false => Ok "false"
  | JNum n => Ok (Str.ofZ n)
  | JStr s => Ok s
  | JArr items =>
      parts ←
        (fix each (xs : list Json) : Result (list string) :=
           match xs with
           | [] => mret []
           | x :: rest =>
               s ← match x with JNull => mret EmptyString | _ => toStringJ x end;
               ss ← each rest;
               mret (s :: ss)
           end) items;
      mret (Str.join "," parts)
  | JObj fields =>
      match assoc "toString" fields with
      | Some _ => Err conversionError
      | None => Ok "[object Object]"
      end
  end.

Definition toString (v : JsVal) : Result string :=
  match v with
  | None => Ok "undefined"
  | Some j => toStringJ j
  end.

(** The values [String] and [Number] convert without throwing: those that
    hold no object with a [toString] member of its own, be it the value or
    an element of an array. *)
Fixpoint printable (j : Json) : bool :=
  match j with
  | JArr items =>
      (fix all (xs : list Json) : bool :=
         match xs with
         | [] => true
         | x :: rest => printable x && all rest
         end) items
  | JObj fields =>
      match assoc "toString" fields with
      | Some _ => false
      | None => true
      end
  | _ => true
  end.

Definition printableV (v : JsVal) : bool :=
  match v with
  | None => true
  | Some j => printable j
  end.

(** The property read [v[k]] on a value that is not [undefined].  Reading
    from [null] throws.  Objects, arrays and strings answer with their own
    properties.  Members inherited from the built-in prototypes are not part
    of the embedding and read as [undefined]: the scripts read fixed keys
    that no built-in prototype defines, and [arcs[arc]], where an inherited
    method fails the array test as [undefined] does. *)
Definition get (v : Json) (k : string) : Result JsVal :=
  match v with
  | JNull => Err (typeError k)
  | JBool _ | JNum _ => Ok None
  | JStr s =>
      if String.eqb k "length" then Ok (Some (JNum (Z.of_nat (String.length s))))
      else Ok (option_map (fun c => JStr (String c EmptyString))
                 (elementAt 0 k (list_ascii_of_string s)))
  | JArr items =>
      if String.eqb k "length" then Ok (Some (JNum (Z.of_nat (length items))))
      else Ok (elementAt 0 k items)
  | JObj fields => Ok (assoc k fields)
  end.

(** [String(err)] for an error object, and the text the catch clause of
    [buildNav] shows: [err && err.message ? err.message : String(err)]. *)
Definition errorToString (e : Exn) : string :=
  if negb (Str.nonempty (exn_name e)) then exn_message e
  else if negb (Str.nonempty (exn_message e)) then exn_name e
  else exn_name e +:+ ": " +:+ exn_message e.

End Js.

(** ** The host: what the browser supplies *)

Record Host := mkHost {
  (** [a.localeCompare(b)]: negative, zero or positive. *)
  localeCompare : string -> string -> Z;
  (** [new URL(relative, base).toString()], which throws on a malformed URL. *)
  resolveUrl : string -> string -> Result string;
  (** [Number(s)] on a string; [None] is [NaN]. *)
  parseNumber : string -> option Z;
}.

(** ECMA-262 requires [localeCompare] to be a consistent comparator: a total
    preorder on strings, given by the sign of the result. *)
Record ConsistentCollation (h : Host) : Prop := {
  collation_refl : forall a, localeCompare h a a = 0;
  collation_total : forall a b, localeCompare h a b <= 0 \/ localeCompare h b a <= 0;
  collation_trans : forall a b c,
    localeCompare h a b <= 0 -> localeCompare h b c <= 0 -> localeCompare h a c <= 0;
}.

(** ** The document *)

Inductive Node : Type :=
| Elem (tag : string) (className : string) (text : option string)
       (attrs : list (string * string)) (children : list Node).

Module Dom.

(** [el(tag, className, text)]: the class is set when it is not empty and the
    text when it is not [null] or [undefined]. *)
Definition el (tag className : string) (text : option string) : Node :=
  Elem tag className text [] [].

Definition makeBadge (text className : string) : Node :=
  el "span" (if Str.nonempty className then className else "badge") (Some text).

Definition appendChild (parent child : Node) : Node :=
  match parent with
  | Elem t c x a ch => Elem t c x a (ch ++ [child])
  end.

Definition setAttribute (n : Node) (k v : string) : Node :=
  match n with
  | Elem t c x a ch => Elem t c x (a ++ [(k, v)]) ch
  end.

(** [node.classList.add(name)] on a node that has a class name. *)
Definition addClass (n : Node) (name : string) : Node :=
  match n with
  | Elem t c x a ch => Elem t (c +:+ " " +:+ name) x a ch
  end.

Definition className_of (n : Node) : string :=
  match n with Elem _ c _ _ _ => c end.
Definition children_of (n : Node) : list Node :=
  match n with Elem _ _ _ _ ch => ch end.
Definition text_of (n : Node) : option string :=
  match n with Elem _ _ x _ _ => x end.

End Dom.

(** ** What the page supplies to [buildNav] *)

Record Response := mkResponse {
  res_ok : bool;
  res_status : Z;
  res_statusText : string;
  (** [await res.json()]: the parsed body, or the parser's exception. *)
  res_json : Result Json;
}.

Record Env := mkEnv {
  location_pathname : string;
  location_origin : string;
  document_baseURI : string;
  (** [await fetch(url, ...)]: a response, or the rejection of the promise. *)
  fetch : string -> Result Response;
}.

Record Options := mkOptions {
  manifestPath : string;
  showCounts : bool;
  showMissingBadge : bool;
  emptyMessage : string;
  loadingMessage : string;
}.

(** The caller's [opts]: the keys it sets. *)
Record Opts := mkOpts {
  opt_manifestPath : option string;
  opt_showCounts : option bool;
  opt_showMissingBadge : option bool;
  opt_emptyMessage : option string;
  opt_loadingMessage : option string;
}.

Definition noOpts : Opts := mkOpts None None None None None.

(** [Object.assign({}, DEFAULTS, opts || {})]. *)
Definition assignOptions (defaults : Options) (o : Opts) : Options :=
  mkOptions
    (default (manifestPath defaults) (opt_manifestPath o))
    (default (showCounts defaults) (opt_showCounts o))
    (default (showMissingBadge defaults) (opt_showMissingBadge o))
    (default (emptyMessage defaults) (opt_emptyMessage o))
    (default (loadingMessage defaults) (opt_loadingMessage o)).

(** [while (el.firstChild) el.removeChild(el.firstChild)], on the children of
    the mount element. *)
Definition clearEl (children : list Node) : list Node := [].

(** Parts the two variants of the script have word for word in common. *)
Module NavCommon.

Definition DEFAULTS : Options :=
  mkOptions "manifest.json" true true "No chapters yet." "Loading chapters…".

(** The three replacements of [normalizePath], on the string [String(p)]
    has returned. *)
Definition normalizeString (s : string) : string :=
  Str.collapseSlashes (Str.stripDotSlash (Str.replaceBackslashes s)).

Definition normalizePath (p : JsVal) : Result string :=
  if negb (Js.truthy p) then mret EmptyString
  else s ← Js.toString p; mret (normalizeString s).

(** [normalizePath(window.location.pathname)]: the path name is a string,
    which [String] returns as it is. *)
Definition getCurrentPathnameNormalized (env : Env) : string :=
  let p := location_pathname env in
  if negb (Str.nonempty p) then EmptyString else normalizeString p.

Definition safeText (s : JsVal) : Result string :=
  match s with
  | None | Some JNull => mret EmptyString
  | _ => Js.toString s
  end.

(** [Number(v)]; [None] is [NaN].  An object or an array is converted to
    a string first, which throws as [String] does. *)
Definition toNumber (h : Host) (v : JsVal) : Result (option Z) :=
  match v with
  | None => mret None
  | Some JNull => mret (Some 0)
  | Some (JBool b) => mret (Some (if b then 1 else 0))
  | Some (JNum n) => mret (Some n)
  | Some (JStr s) => mret (parseNumber h s)
  | Some j => s ← Js.toStringJ j; mret (parseNumber h s)
  end.

(** [v || {}]. *)
Definition orEmptyObject (v : JsVal) : Json :=
  match v with
  | Some j => if Js.truthy v then j else JObj []
  | None => JObj []
  end.

(** The two badges of a row, in the order they are appended. *)
Definition badges (h : Host) (options : Options) (entry : Json) : Result (list Node) :=
  countsV ← Js.get entry "counts";
  let counts := orEmptyObject countsV in
  missingV ← Js.get counts "images_missing";
  missingCount ← toNumber h (Js.or missingV (Some (JNum 0)));
  usedV ← Js.get counts "images_used";
  used ←
    (if showCounts options && Js.truthy countsV && Js.typeof_is usedV Js.TNumber
     then text ← Js.toString usedV;
          mret [Dom.makeBadge (text +:+ " img") "badge badge-img"]
     else mret []);
  let missing :=
    match missingCount with
    | Some n =>
        if showMissingBadge options && (0 <? n)
        then [Dom.makeBadge (Str.ofZ n +:+ " missing") "badge badge-missing"]
        else []
    | None => []
    end in
  mret (used ++ missing).

(** The anchor of a row, marked when [output] is a suffix of the path of the
    current page. *)
Definition rowAnchor (href output currentPath : string) : Node :=
  let row := Dom.setAttribute (Dom.el "a" "chapter-row" None) "href" href in
  if Str.nonempty output && Str.endsWith currentPath output
  then Dom.setAttribute (Dom.addClass row "active") "aria-current" "page"
  else row.

(** The optional [chapter-meta] line: [metaBits] holds [entry.id] when it is
    truthy, and is joined with [" · "], which converts it to a string. *)
Definition metaLine (idV : JsVal) : Result (list Node) :=
  if Js.truthy idV
  then text ← Js.toString idV; mret [Dom.el "div" "chapter-meta" (Some text)]
  else mret [].

Definition assembleRow (row title : Node) (meta right : list Node) : Node :=
  let left := fold_left Dom.appendChild (title :: meta) (Dom.el "div" "chapter-left" None) in
  let rightEl := fold_left Dom.appendChild right (Dom.el "div" "chapter-right" None) in
  Dom.appendChild (Dom.appendChild row left) rightEl.

(** The body of [fetchManifest] once the URL is resolved. *)
Definition fetchJson (env : Env) (url : string) : Result Json :=
  res ← fetch env url;
  if negb (res_ok res)
  then Err (mkExn "Error"
              ("Failed to load manifest (" +:+ Str.ofZ (res_status res) +:+ " "
               +:+ res_statusText res +:+ ")"))
  else res_json res.

(** [xs.sort(cmp)] for a comparator that may throw: a stable insertion sort.
    For a consistent comparator every conforming engine returns this list,
    the sort being stable. *)
Fixpoint insertBy {A : Type} (cmp : A -> A -> Result Z) (x : A) (sorted : list A)
  : Result (list A) :=
  match sorted with
  | [] => mret [x]
  | y :: rest =>
      c ← cmp x y;
      if c <=? 0 then mret (x :: y :: rest)
      else rest' ← insertBy cmp x rest; mret (y :: rest')
  end.

Fixpoint sortBy {A : Type} (cmp : A -> A -> Result Z) (xs : list A) : Result (list A) :=
  match xs with
  | [] => mret []
  | x :: rest => sorted ← sortBy cmp rest; insertBy cmp x sorted
  end.

(** The message of the catch clause. *)
Definition catchMessage (err : Exn) : string :=
  if Str.nonempty (exn_message err) then exn_message err else Js.errorToString err.

Definition errorNode (err : Exn) : Node :=
  Dom.el "div" "nav-error" (Some ("Couldn’t load chapters. " +:+ catchMessage err)).

Definition mismatchNode : Node :=
  Dom.el "div" "nav-error" (Some "Manifest format mismatch (expected schema 2).").

End NavCommon.

(** ** [js/navgen.js]: the flat list *)

Module Navgen.
Import NavCommon.

Definition fetchManifest (h : Host) (env : Env) (manifestPath : string) : Result Json :=
  url ← resolveUrl h manifestPath (document_baseURI env);
  fetchJson env url.

(** [pickArcEntries]; [None] is the [null] it returns. *)
Definition pickArcEntries (manifest : Json) (arc : string) : Result (option (list Json)) :=
  if negb (Js.truthy (Some manifest)) || negb (Js.typeof_is (Some manifest) Js.TObject)
  then mret None
  else
    schema ← Js.get manifest "schema";
    match schema with
    | Some (JNum 2) =>
        arcs ← Js.get manifest "arcs";
        if negb (Js.truthy arcs) || negb (Js.typeof_is arcs Js.TObject)
        then mret None
        else
          match arcs with
          | Some arcsObj =>
              entries ← Js.get arcsObj arc;
              match entries with
              | Some (JArr items) => mret (Some items)
              | _ => mret None
              end
          | None => mret None
          end
    | _ => mret None
    end.

(** [String(a.title || a.title_text || a.id || "").toLowerCase()]. *)
Definition titleKey (a : Json) : Result string :=
  t ← Js.get a "title";
  tt ← Js.get a "title_text";
  i ← Js.get a "id";
  text ← Js.toString (Js.or (Js.or (Js.or t tt) i) (Some (JStr "")));
  mret (Str.toLowerCase text).

(** The comparator of the defensive sort (lines 170-181). *)
Definition compareEntries (h : Host) (a b : Json) : Result Z :=
  ia ← Js.get a "index";
  let ai := match ia with Some (JNum n) => Some n | _ => None end in
  ib ← Js.get b "index";
  let bi := match ib with Some (JNum n) => Some n | _ => None end in
  match ai, bi with
  | Some x, Some y => mret (x - y)
  | _, _ =>
      ka ← titleKey a;
      kb ← titleKey b;
      mret (localeCompare h ka kb)
  end.

(** The body of the loop of [renderList]: one row per entry.  The statement
    [if (typeof entry.index === "number" && ...) { }] of the loop has an
    empty body and only reads the entry; it is left out. *)
Definition renderRow (h : Host) (options : Options) (currentPath : string) (entry : Json)
  : Result Node :=
  outV ← Js.get entry "output";
  output ← normalizePath outV;
  let href := output in
  let row := rowAnchor href output currentPath in
  t ← Js.get entry "title";
  tt ← Js.get entry "title_text";
  i ← Js.get entry "id";
  titleText ← safeText (Js.or (Js.or (Js.or t tt) i) (Some (JStr href)));
  let title := Dom.el "div" "chapter-title" (Some titleText) in
  meta ← metaLine i;
  right ← badges h options entry;
  mret (assembleRow row title meta right).

Definition renderList (h : Host) (env : Env) (mountEl : list Node) (arc : string)
    (entries : list Json) (options : Options) : Result (list Node) :=
  let currentPath := getCurrentPathnameNormalized env in
  rows ← traverse (renderRow h options currentPath) entries;
  mret (mountEl ++ [Elem "div" "chapter-list" None [] rows]).

(** The [try] block of [buildNav], entered with the loading state shown. *)
Definition attempt (h : Host) (env : Env) (arc : string) (options : Options)
    (mountEl : list Node) : Result (list Node) :=
  manifest ← fetchManifest h env (manifestPath options);
  entries ← pickArcEntries manifest arc;
  let mountEl := clearEl mountEl in
  match entries with
  | None => mret (mountEl ++ [mismatchNode])
  | Some items =>
      if (length items =? 0)%nat
      then mret (mountEl ++ [Dom.el "div" "nav-empty" (Some (emptyMessage options))])
      else
        sorted ← sortBy (compareEntries h) items;
        renderList h env mountEl arc sorted options
  end.

(** [buildNav(arc, mountId, opts)]: [mountEl] holds the children of the mount
    element, [None] when the element is not found; the result is its children
    once the promise settles.  The catch clause clears the mount whatever the
    [try] block left in it.  The two calls of [console.error] write to the
    console only and are left out. *)
Definition buildNav (h : Host) (env : Env) (arc : string) (mountEl : option (list Node))
    (opts : Opts) : option (list Node) :=
  let options := assignOptions DEFAULTS opts in
  match mountEl with
  | None => None
  | Some children =>
      let loading :=
        clearEl children ++ [Dom.el "div" "nav-loading" (Some (loadingMessage options))] in
      match attempt h env arc options loading with
      | Ok done => Some done
      | Err err => Some (clearEl loading ++ [errorNode err])
      end
  end.

End Navgen.

(** ** The variant of the script with the folder tree *)

(** A node of the tree: [{ folders: Map<string, node>, pages: entry[] }],
    the map in insertion order. *)
Inductive Tree : Type :=
| TreeNode (folders : list (string * Tree)) (pages : list Json).

Module NavgenTree.
Import NavCommon.

Definition getSiteBase (env : Env) : string :=
  let p := location_pathname env in
  match Str.indexOf p "/content/" with
  | Some idx => location_origin env +:+ Str.take (idx + 1) p
  | None =>
      let dir := if Str.endsWith p "/" then p else Str.stripLastSegment p in
      location_origin env +:+ dir
  end.

Definition toAbsoluteFromSiteBase (h : Host) (env : Env) (relativePath : string)
  : Result string :=
  resolveUrl h relativePath (getSiteBase env).

Definition fetchManifest (h : Host) (env : Env) (manifestPath : string) : Result Json :=
  url ← toAbsoluteFromSiteBase h env manifestPath;
  fetchJson env url.

(** [pickArcEntries]; [None] is the [null] it returns. *)
Definition pickArcEntries (manifest : Json) (arc : string) : Result (option (list Json)) :=
  if negb (Js.truthy (Some manifest)) || negb (Js.typeof_is (Some manifest) Js.TObject)
  then mret None
  else
    schema ← Js.get manifest "schema";
    match schema with
    | Some (JNum 2) =>
        arcs ← Js.get manifest "arcs";
        if negb (Js.truthy arcs) || negb (Js.typeof_is arcs Js.TObject)
        then mret None
        else
          match arcs with
          | Some arcsObj =>
              entries ← Js.get arcsObj arc;
              match entries with
              | Some (JArr items) => mret (Some items)
              | _ => mret None
              end
          | None => mret None
          end
    | _ => mret None
    end.

(** One word of [humanizeSegment]. *)
Definition titleCaseWord (w : string) : string :=
  if (String.length w <=? 2)%nat then Str.toUpperCase w
  else Str.toUpperCase (Str.take 1 w) +:+ Str.toLowerCase (Str.drop 1 w).

Definition humanizeSegment (seg : string) : string :=
  let s := Str.trim (Str.replaceSeparators (Str.stripHtmlSuffix seg)) in
  if negb (Str.nonempty s) then ""
  else Str.join " " (map titleCaseWord (filter (fun w => Str.nonempty w = true) (Str.split s " "))).

Definition stripArcFromOutput (output : JsVal) (arc : string) : Result string :=
  out ← normalizePath output;
  let prefix := "content/" +:+ arc +:+ "/" in
  mret (if Str.startsWith out prefix then Str.drop (String.length prefix) out else out).

Definition leafTitleFromEntry (entry : Json) : Result string :=
  t ← Js.get entry "title";
  tt ← Js.get entry "title_text";
  i ← Js.get entry "id";
  raw ← safeText (Js.or (Js.or (Js.or t tt) i) (Some (JStr "")));
  let cleaned := Str.trim (Str.stripKindLetter raw) in
  let parts :=
    if Str.includes cleaned " / "
    then filter (fun p => Str.nonempty p = true) (map Str.trim (Str.split cleaned " / "))
    else [] in
  match last parts with
  | Some leaf => mret leaf
  | None =>
      outV ← Js.get entry "output";
      out ← normalizePath outV;
      let popped := default "" (last (Str.split out "/")) in
      let name := if Str.nonempty popped then popped else out in
      mret (Str.stripHtmlSuffix name)
  end.

Definition makeRow (h : Host) (env : Env) (options : Options) (currentPath : string)
    (entry : Json) : Result Node :=
  outV ← Js.get entry "output";
  output ← normalizePath outV;
  hrefAbs ← toAbsoluteFromSiteBase h env output;
  let row := rowAnchor hrefAbs output currentPath in
  leaf ← leafTitleFromEntry entry;
  let titleText := humanizeSegment leaf in
  t ← Js.get entry "title";
  tt ← Js.get entry "title_text";
  i ← Js.get entry "id";
  shown ← safeText
            (Js.or (Js.or (Js.or (Js.or (Some (JStr titleText)) t) tt) i)
               (Some (JStr output)));
  let title := Dom.el "div" "chapter-title" (Some shown) in
  meta ← metaLine i;
  right ← badges h options entry;
  mret (assembleRow row title meta right).

Definition renderList (h : Host) (env : Env) (mountEl : list Node) (arc : string)
    (entries : list Json) (options : Options) : Result (list Node) :=
  let currentPath := getCurrentPathnameNormalized env in
  rows ← traverse (makeRow h env options currentPath) entries;
  mret (mountEl ++ [Elem "div" "chapter-list" None [] rows]).

Definition emptyTree : Tree := TreeNode [] [].

(** The walk of [buildTree] along one folder: the child is created when the
    map does not have the key, at the end of the map, and [f] is what happens
    below it. *)
Fixpoint descend (folder : string) (f : Tree -> Tree) (folders : list (string * Tree))
  : list (string * Tree) :=
  match folders with
  | [] => [(folder, f emptyTree)]
  | (k, child) :: rest =>
      if String.eqb k folder then (k, f child) :: rest
      else (k, child) :: descend folder f rest
  end.

(** [node.pages.push(entry)] at the end of the walk along [folderParts]. *)
Fixpoint pushAt (folderParts : list string) (entry : Json) (node : Tree) : Tree :=
  match node with
  | TreeNode folders pages =>
      match folderParts with
      | [] => TreeNode folders (pages ++ [entry])
      | folder :: rest => TreeNode (descend folder (pushAt rest entry) folders) pages
      end
  end.

(** The body of the loop of [buildTree]. *)
Definition addEntry (arc : string) (root : Tree) (entry : Json) : Result Tree :=
  outV ← Js.get entry "output";
  rel ← stripArcFromOutput outV arc;
  path ← normalizePath (Some (JStr rel));
  let parts := filter (fun p => Str.nonempty p = true) (Str.split path "/") in
  match parts with
  | [] => mret (pushAt [] entry root)
  | _ => mret (pushAt (removelast parts) entry root)
  end.

Fixpoint buildTree_from (arc : string) (root : Tree) (entries : list Json) : Result Tree :=
  match entries with
  | [] => mret root
  | entry :: rest => root' ← addEntry arc root entry; buildTree_from arc root' rest
  end.

Definition buildTree (entries : list Json) (arc : string) : Result Tree :=
  buildTree_from arc emptyTree entries.

Definition comparePages (h : Host) (a b : Json) : Result Z :=
  la ← leafTitleFromEntry a;
  lb ← leafTitleFromEntry b;
  mret (localeCompare h (Str.toLowerCase (humanizeSegment la))
          (Str.toLowerCase (humanizeSegment lb))).

Definition compareFolders {A : Type} (h : Host) (a b : string * A) : Result Z :=
  mret (localeCompare h (Str.toLowerCase (humanizeSegment (fst a)))
          (Str.toLowerCase (humanizeSegment (fst b)))).

(** [sortNode]: the pages are sorted in place, then the map is rebuilt with
    its keys in order and every child sorted.  Here the children are sorted
    before the keys are put in order; neither step reads what the other
    writes. *)
Fixpoint sortNode (h : Host) (node : Tree) : Result Tree :=
  match node with
  | TreeNode folders pages =>
      pages' ← sortBy (comparePages h) pages;
      children ←
        (fix each (fs : list (string * Tree)) : Result (list (string * Tree)) :=
           match fs with
           | [] => mret []
           | (k, child) :: rest =>
               child' ← sortNode h child;
               rest' ← each rest;
               mret ((k, child') :: rest')
           end) folders;
      newMap ← sortBy (compareFolders h) children;
      mret (TreeNode newMap pages')
  end.

Definition pagesList (rows : list Node) : list Node :=
  match rows with
  | [] => []
  | _ => [Elem "div" "chapter-list" None [] rows]
  end.

(** [renderNode(node, label, depth)] of [renderTree]. *)
Fixpoint renderNode (h : Host) (env : Env) (options : Options) (currentPath : string)
    (node : Tree) (label : string) (depth : Z) : Result Node :=
  match node with
  | TreeNode folders pages =>
      let summary := Elem "summary" "nav-group-title" (Some (humanizeSegment label)) [] [] in
      rows ← traverse (makeRow h env options currentPath) pages;
      groups ←
        (fix each (fs : list (string * Tree)) : Result (list Node) :=
           match fs with
           | [] => mret []
           | (folderName, child) :: rest =>
               g ← renderNode h env options currentPath child folderName (depth + 1);
               gs ← each rest;
               mret (g :: gs)
           end) folders;
      let body := Elem "div" "nav-group-body" None [] (pagesList rows ++ groups) in
      mret (Elem "details" "nav-group" None
              (if depth <=? 0 then [("open", "")] else []) [summary; body])
  end.

Definition renderTree (h : Host) (env : Env) (mountEl : list Node) (arc : string)
    (tree : Tree) (options : Options) : Result (list Node) :=
  let currentPath := getCurrentPathnameNormalized env in
  match tree with
  | TreeNode folders pages =>
      rows ← traverse (makeRow h env options currentPath) pages;
      groups ←
        traverse (fun fc => renderNode h env options currentPath (snd fc) (fst fc) 0) folders;
      mret (mountEl ++ [Elem "div" "nav-tree" None [] (pagesList rows ++ groups)])
  end.

(** [String(a.title || a.title_text || a.id || "").toLowerCase()]. *)
Definition titleKey (a : Json) : Result string :=
  t ← Js.get a "title";
  tt ← Js.get a "title_text";
  i ← Js.get a "id";
  text ← Js.toString (Js.or (Js.or (Js.or t tt) i) (Some (JStr "")));
  mret (Str.toLowerCase text).

(** The comparator of the defensive sort (lines 359-370). *)
Definition compareEntries (h : Host) (a b : Json) : Result Z :=
  ia ← Js.get a "index";
  let ai := match ia with Some (JNum n) => Some n | _ => None end in
  ib ← Js.get b "index";
  let bi := match ib with Some (JNum n) => Some n | _ => None end in
  match ai, bi with
  | Some x, Some y => mret (x - y)
  | _, _ =>
      ka ← titleKey a;
      kb ← titleKey b;
      mret (localeCompare h ka kb)
  end.

(** The [try] block of [buildNav], entered with the loading state shown. *)
Definition attempt (h : Host) (env : Env) (arc : string) (options : Options)
    (mountEl : list Node) : Result (list Node) :=
  manifest ← fetchManifest h env (manifestPath options);
  entries ← pickArcEntries manifest arc;
  let mountEl := clearEl mountEl in
  match entries with
  | None => mret (mountEl ++ [mismatchNode])
  | Some items =>
      if (length items =? 0)%nat
      then mret (mountEl ++ [Dom.el "div" "nav-empty" (Some (emptyMessage options))])
      else
        sorted ← sortBy (compareEntries h) items;
        if String.eqb arc "lore" || String.eqb arc "characters"
        then
          tree ← buildTree sorted arc;
          tree' ← sortNode h tree;
          renderTree h env mountEl arc tree' options
        else renderList h env mountEl arc sorted options
  end.

(** [buildNav(arc, mountId, opts)], as in the flat variant. *)
Definition buildNav (h : Host) (env : Env) (arc : string) (mountEl : option (list Node))
    (opts : Opts) : option (list Node) :=
  let options := assignOptions DEFAULTS opts in
  match mountEl with
  | None => None
  | Some children =>
      let loading :=
        clearEl children ++ [Dom.el "div" "nav-loading" (Some (loadingMessage options))] in
      match attempt h env arc options loading with
      | Ok done => Some done
      | Err err => Some (clearEl loading ++ [errorNode err])
      end
  end.

End NavgenTree.

(** ** A reference host *)

Module RefHost.

Fixpoint digitsValue (acc : Z) (s : string) : option Z :=
  match s with
  | EmptyString => Some acc
  | String c s' =>
      let n := Str.code c in
      if ((48 <=? n) && (n <=? 57))%N
      then digitsValue (10 * acc + Z.of_N (n - 48)) s'
      else None
  end.

(** Decimal integer literals, the empty string counting as zero. *)
Definition parseDecimal (s : string) : option Z :=
  match Str.trim s with
  | String "-"%char (String c r) => option_map Z.opp (digitsValue 0 (String c r))
  | t => digitsValue 0 t
  end.

Definition joinUrl (relative base : string) : Result string :=
  if Str.includes relative "[" then Err (mkExn "TypeError" "Invalid URL")
  else Ok (Str.stripLastSegment base +:+ relative).

Definition host : Host := mkHost Str.compareCodeUnits joinUrl parseDecimal.

End RefHost.

(** ** The scripts over a store of objects

    [buildNav] once more, with the objects of the page in a store: arrays
    and objects are cells, values refer to them by address, [slice] allocates
    and [sort], [push] and [Map.set] write in place.  Reads go through
    [read], so that the comparators and the rows are those of the modules
    above. *)

Module Store.

Inductive Val : Type :=
| VNull
| VBool (b : bool)
| VNum (n : Z)
| VStr (s : string)
| VRef (a : nat).

Inductive Cell : Type :=
| CArray (items : list Val)
| CObject (fields : list (string * Val))
  (** a node of [buildTree]: its [folders] map and its [pages] array *)
| CTree (folders : list (string * nat)) (pages : list Val).

Abbreviation Heap := (list Cell).

Section LoadAll.
Variable loadOne : Json -> Heap -> Heap * Val.

(** The elements of an array, parsed from left to right. *)
Fixpoint loadItems (xs : list Json) (h : Heap) : Heap * list Val :=
  match xs with
  | [] => (h, [])
  | x :: rest =>
      let '(h1, v) := loadOne x h in
      let '(h2, vs) := loadItems rest h1 in
      (h2, v :: vs)
  end.

(** The members of an object, parsed from left to right. *)
Fixpoint loadFields (xs : list (string * Json)) (h : Heap) : Heap * list (string * Val) :=
  match xs with
  | [] => (h, [])
  | (k, x) :: rest =>
      let '(h1, v) := loadOne x h in
      let '(h2, fs) := loadFields rest h1 in
      (h2, (k, v) :: fs)
  end.

End LoadAll.

(** [JSON.parse]: every array and object of the document gets a cell, after
    the cells of its elements. *)
Fixpoint load (j : Json) (h : Heap) : Heap * Val :=
  match j with
  | JNull => (h, VNull)
  | JBool b => (h, VBool b)
  | JNum n => (h, VNum n)
  | JStr s => (h, VStr s)
  | JArr items =>
      let '(h', vs) := loadItems load items h in
      (h' ++ [CArray vs], VRef (length h'))
  | JObj fields =>
      let '(h', fs) := loadFields load fields h in
      (h' ++ [CObject fs], VRef (length h'))
  end.

(** The document a value stands for.  A chain of references longer than
    [fuel], which a parsed document does not have, reads as [null]. *)
Fixpoint reify (fuel : nat) (h : Heap) (v : Val) : Json :=
  match v with
  | VNull => JNull
  | VBool b => JBool b
  | VNum n => JNum n
  | VStr s => JStr s
  | VRef a =>
      match fuel with
      | O => JNull
      | S fuel' =>
          match h !! a with
          | Some (CArray items) => JArr (map (reify fuel' h) items)
          | Some (CObject fields) =>
              JObj (map (fun kv => (fst kv, reify fuel' h (snd kv))) fields)
          | _ => JNull
          end
      end
  end.

Definition read (h : Heap) (v : Val) : Json := reify (length h) h v.

Fixpoint assoc {A : Type} (k : string) (fields : list (string * A)) : option A :=
  match fields with
  | [] => None
  | (k', v) :: rest => if String.eqb k k' then Some v else assoc k rest
  end.

(** The property read [v[k]], as [Js.get]. *)
Definition get (h : Heap) (v : Val) (k : string) : Result (option Val) :=
  match v with
  | VNull => Err (Js.typeError k)
  | VBool _ | VNum _ => Ok None
  | VStr s =>
      if String.eqb k "length" then Ok (Some (VNum (Z.of_nat (String.length s))))
      else Ok (option_map (fun c => VStr (String c EmptyString))
                 (Js.elementAt 0 k (list_ascii_of_string s)))
  | VRef a =>
      match h !! a with
      | Some (CArray items) =>
          if String.eqb k "length" then Ok (Some (VNum (Z.of_nat (length items))))
          else Ok (Js.elementAt 0 k items)
      | Some (CObject fields) => Ok (assoc k fields)
      | _ => Ok None
      end
  end.

Definition truthy (v : option Val) : bool :=
  match v with
  | None | Some VNull => false
  | Some (VBool b) => b
  | Some (VNum n) => negb (n =? 0)
  | Some (VStr s) => Str.nonempty s
  | Some (VRef _) => true
  end.

(** [typeof v === "object"]. *)
Definition isObjectType (v : option Val) : bool :=
  match v with
  | Some VNull | Some (VRef _) => true
  | _ => false
  end.

(** [pickArcEntries]: the array it returns is the one of the manifest, not a
    copy. *)
Definition pickArcEntries (h : Heap) (manifest : Val) (arc : string) : Result (option nat) :=
  if negb (truthy (Some manifest)) || negb (isObjectType (Some manifest))
  then mret None
  else
    schema ← get h manifest "schema";
    match schema with
    | Some (VNum 2) =>
        arcs ← get h manifest "arcs";
        if negb (truthy arcs) || negb (isObjectType arcs)
        then mret None
        else
          match arcs with
          | Some arcsObj =>
              entries ← get h arcsObj arc;
              match entries with
              | Some (VRef a) =>
                  match h !! a with
                  | Some (CArray _) => mret (Some a)
                  | _ => mret None
                  end
              | _ => mret None
              end
          | None => mret None
          end
    | _ => mret None
    end.

Definition itemsAt (h : Heap) (a : nat) : list Val :=
  match h !! a with
  | Some (CArray items) => items
  | _ => []
  end.

(** [entries.slice()]: a new array with the same elements. *)
Definition slice (h : Heap) (a : nat) : Heap * nat :=
  (h ++ [CArray (itemsAt h a)], length h).

(** [array.sort(cmp)]: the array at [a] is rearranged in place.  When the
    comparator throws the array is left as it was. *)
Definition sortInPlace (cmp : Val -> Val -> Result Z) (h : Heap) (a : nat)
  : Heap * Result unit :=
  match NavCommon.sortBy cmp (itemsAt h a) with
  | Ok sorted => (<[a := CArray sorted]> h, Ok tt)
  | Err e => (h, Err e)
  end.

Definition onEntries {A : Type} (f : Json -> Json -> A) (h : Heap) (a b : Val) : A :=
  f (read h a) (read h b).

(** The [try] block of [buildNav] in [js/navgen.js]. *)
Definition attemptFlat (host : Host) (env : Env) (arc : string) (options : Options)
    (h : Heap) (mountEl : list Node) : Heap * Result (list Node) :=
  match Navgen.fetchManifest host env (manifestPath options) with
  | Err e => (h, Err e)
  | Ok document =>
      let '(h1, manifest) := load document h in
      match pickArcEntries h1 manifest arc with
      | Err e => (h1, Err e)
      | Ok None => (h1, Ok (clearEl mountEl ++ [NavCommon.mismatchNode]))
      | Ok (Some entries) =>
          if (length (itemsAt h1 entries) =? 0)%nat
          then (h1, Ok (clearEl mountEl
                          ++ [Dom.el "div" "nav-empty" (Some (emptyMessage options))]))
          else
            let '(h2, sorted) := slice h1 entries in
            match sortInPlace (onEntries (Navgen.compareEntries host) h2) h2 sorted with
            | (h3, Err e) => (h3, Err e)
            | (h3, Ok _) =>
                (h3, Navgen.renderList host env (clearEl mountEl) arc
                       (map (read h3) (itemsAt h3 sorted)) options)
            end
      end
  end.

Definition buildNavFlat (host : Host) (env : Env) (arc : string) (opts : Opts)
    (h : Heap) (children : list Node) : Heap * list Node :=
  let options := assignOptions NavCommon.DEFAULTS opts in
  let loading :=
    clearEl children ++ [Dom.el "div" "nav-loading" (Some (loadingMessage options))] in
  match attemptFlat host env arc options h loading with
  | (h', Ok done) => (h', done)
  | (h', Err err) => (h', clearEl loading ++ [NavCommon.errorNode err])
  end.

(** One step of the walk of [buildTree]: [node.folders.get(folder)], after
    [node.folders.set(folder, { folders: new Map(), pages: [] })] when the
    key is missing. *)
Definition walkStep (h : Heap) (node : nat) (folder : string) : Heap * nat :=
  match h !! node with
  | Some (CTree folders pages) =>
      match assoc folder folders with
      | Some child => (h, child)
      | None =>
          let child := length h in
          (<[node := CTree (folders ++ [(folder, child)]) pages]> (h ++ [CTree [] []]), child)
      end
  | _ => (h, node)
  end.

Fixpoint walk (h : Heap) (node : nat) (folderParts : list string) : Heap * nat :=
  match folderParts with
  | [] => (h, node)
  | folder :: rest => let '(h', node') := walkStep h node folder in walk h' node' rest
  end.

(** [node.pages.push(entry)]. *)
Definition push (h : Heap) (node : nat) (entry : Val) : Heap :=
  match h !! node with
  | Some (CTree folders pages) => <[node := CTree folders (pages ++ [entry])]> h
  | _ => h
  end.

(** The body of the loop of [buildTree]. *)
Definition addEntry (arc : string) (h : Heap) (root : nat) (entry : Val)
  : Heap * Result unit :=
  match (outV ← Js.get (read h entry) "output";
         rel ← NavgenTree.stripArcFromOutput outV arc;
         NavCommon.normalizePath (Some (JStr rel))) with
  | Err e => (h, Err e)
  | Ok path =>
      let parts := filter (fun p => Str.nonempty p = true) (Str.split path "/") in
      let '(h', node) :=
        walk h root (match parts with [] => [] | _ => removelast parts end) in
      (push h' node entry, Ok tt)
  end.

Fixpoint addEntries (arc : string) (h : Heap) (root : nat) (entries : list Val)
  : Heap * Result unit :=
  match entries with
  | [] => (h, Ok tt)
  | entry :: rest =>
      match addEntry arc h root entry with
      | (h', Err e) => (h', Err e)
      | (h', Ok _) => addEntries arc h' root rest
      end
  end.

(** [buildTree(entries, arc)]: the root is a new node. *)
Definition buildTree (arc : string) (h : Heap) (entries : nat) : Heap * nat * Result unit :=
  let root := length h in
  let '(h', r) := addEntries arc (h ++ [CTree [] []]) root (itemsAt h entries) in
  (h', root, r).

(** The loop [for (const k of folderKeys)] of [sortNode]. *)
Fixpoint sortChildren (sortChild : Heap -> nat -> Heap * Result unit)
    (newMap : list (string * nat)) (h : Heap) : Heap * Result unit :=
  match newMap with
  | [] => (h, Ok tt)
  | (_, child) :: rest =>
      match sortChild h child with
      | (h', Err e) => (h', Err e)
      | (h', Ok _) => sortChildren sortChild rest h'
      end
  end.

(** [sortNode(node)]: the pages are sorted in place, the children are sorted
    in the order of the sorted keys, and [node.folders] is replaced by the
    new map.  [fuel] bounds the depth of the tree. *)
Fixpoint sortNode (fuel : nat) (host : Host) (h : Heap) (node : nat) : Heap * Result unit :=
  match fuel with
  | O => (h, Ok tt)
  | S fuel' =>
      match h !! node with
      | Some (CTree folders pages) =>
          match NavCommon.sortBy (onEntries (NavgenTree.comparePages host) h) pages with
          | Err e => (h, Err e)
          | Ok pages' =>
              let h1 := <[node := CTree folders pages']> h in
              match NavCommon.sortBy (NavgenTree.compareFolders host) folders with
              | Err e => (h1, Err e)
              | Ok newMap =>
                  match sortChildren (sortNode fuel' host) newMap h1 with
                  | (h2, Err e) => (h2, Err e)
                  | (h2, Ok _) =>
                      match h2 !! node with
                      | Some (CTree _ pages'') => (<[node := CTree newMap pages'']> h2, Ok tt)
                      | _ => (h2, Ok tt)
                      end
                  end
              end
          end
      | _ => (h, Ok tt)
      end
  end.

(** The tree a node stands for. *)
Fixpoint readTree (fuel : nat) (h : Heap) (node : nat) : Tree :=
  match fuel with
  | O => NavgenTree.emptyTree
  | S fuel' =>
      match h !! node with
      | Some (CTree folders pages) =>
          TreeNode (map (fun kc => (fst kc, readTree fuel' h (snd kc))) folders)
            (map (read h) pages)
      | _ => NavgenTree.emptyTree
      end
  end.

(** The [try] block of [buildNav] in the tree variant; [fuel] bounds the depth
    of the tree that [sortNode] and [renderTree] walk. *)
Definition attemptTree (fuel : nat) (host : Host) (env : Env) (arc : string)
    (options : Options) (h : Heap) (mountEl : list Node) : Heap * Result (list Node) :=
  match NavgenTree.fetchManifest host env (manifestPath options) with
  | Err e => (h, Err e)
  | Ok document =>
      let '(h1, manifest) := load document h in
      match pickArcEntries h1 manifest arc with
      | Err e => (h1, Err e)
      | Ok None => (h1, Ok (clearEl mountEl ++ [NavCommon.mismatchNode]))
      | Ok (Some entries) =>
          if (length (itemsAt h1 entries) =? 0)%nat
          then (h1, Ok (clearEl mountEl
                          ++ [Dom.el "div" "nav-empty" (Some (emptyMessage options))]))
          else
            let '(h2, sorted) := slice h1 entries in
            match sortInPlace (onEntries (NavgenTree.compareEntries host) h2) h2 sorted with
            | (h3, Err e) => (h3, Err e)
            | (h3, Ok _) =>
                if String.eqb arc "lore" || String.eqb arc "characters"
                then
                  match buildTree arc h3 sorted with
                  | (h4, root, Err e) => (h4, Err e)
                  | (h4, root, Ok _) =>
                      match sortNode fuel host h4 root with
                      | (h5, Err e) => (h5, Err e)
                      | (h5, Ok _) =>
                          (h5, NavgenTree.renderTree host env (clearEl mountEl) arc
                                 (readTree fuel h5 root) options)
                      end
                  end
                else
                  (h3, NavgenTree.renderList host env (clearEl mountEl) arc
                         (map (read h3) (itemsAt h3 sorted)) options)
            end
      end
  end.

Definition buildNavTree (fuel : nat) (host : Host) (env : Env) (arc : string) (opts : Opts)
    (h : Heap) (children : list Node) : Heap * list Node :=
  let options := assignOptions NavCommon.DEFAULTS opts in
  let loading :=
    clearEl children ++ [Dom.el "div" "nav-loading" (Some (loadingMessage options))] in
  match attemptTree fuel host env arc options h loading with
  | (h', Ok done) => (h', done)
  | (h', Err err) => (h', clearEl loading ++ [NavCommon.errorNode err])
  end.

(** The store once [res.json()] has built the manifest, and the manifest. *)
Definition parsed (fetched : Result Json) (h : Heap) : option (Heap * Val) :=
  match fetched with
  | Ok document => Some (load document h)
  | Err _ => None
  end.

(** A value that is a reference refers below [n]. *)
Definition below (n : nat) (v : Val) : Prop :=
  match v with
  | VRef a => (a < n)%nat
  | _ => True
  end.

(** The value [v] stands for the document [j] in the store [h], every array
    and object above the cells of its elements. *)
Fixpoint represents (h : Heap) (j : Json) (v : Val) {struct j} : Prop :=
  match j, v with
  | JNull, VNull => True
  | JBool b, VBool b' => b = b'
  | JNum n, VNum n' => n = n'
  | JStr s, VStr s' => s = s'
  | JArr items, VRef a =>
      exists vs, h !! a = Some (CArray vs)
        /\ (fix all (js : list Json) (vs : list Val) : Prop :=
              match js, vs with
              | [], [] => True
              | j' :: js', v' :: vs' => represents h j' v' /\ below a v' /\ all js' vs'
              | _, _ => False
              end) items vs
  | JObj fields, VRef a =>
      exists fs, h !! a = Some (CObject fs)
        /\ (fix all (js : list (string * Json)) (vs : list (string * Val)) : Prop :=
              match js, vs with
              | [], [] => True
              | (k, j') :: js', (k', v') :: vs' =>
                  k = k' /\ represents h j' v' /\ below a v' /\ all js' vs'
              | _, _ => False
              end) fields fs
  | _, _ => False
  end.
(** Every cell of [h] is in [h'] with the same content. *)
Definition unchanged (h h' : Heap) : Prop :=
  forall a cell, h !! a = Some cell -> h' !! a = Some cell.

(** The two conjunctions of [represents], as relations on lists. *)
Definition itemsRep (h : Heap) (a : nat) (js : list Json) (vs : list Val) : Prop :=
  Forall2 (fun j v => represents h j v /\ below a v) js vs.
Definition fieldsRep (h : Heap) (a : nat) (js : list (string * Json))
    (vs : list (string * Val)) : Prop :=
  Forall2 (fun kj kv => fst kj = fst kv /\ represents h (snd kj) (snd kv) /\ below a (snd kv))
    js vs.

(** What [load] returns: the store grows, and the value stands for the
    document. *)
Definition loaded (j : Json) (h h' : Heap) (v : Val) : Prop :=
  unchanged h h' /\ represents h' j v /\ below (length h') v.

(** A read in the store and the same read in the document. *)
Definition sameRead (h : Heap) (r : Result JsVal) (r' : Result (option Val)) : Prop :=
  match r, r' with
  | Ok None, Ok None => True
  | Ok (Some j), Ok (Some v) => represents h j v
  | Err e, Err e' => e = e'
  | _, _ => False
  end.

(** Below [base] the store [h'] is the store [h]. *)
Definition preserves (base : nat) (h h' : Heap) : Prop :=
  forall a, (a < base)%nat -> h' !! a = h !! a.

(** Tree nodes from [base] on only refer to nodes from [base] on. *)
Definition owned (base : nat) (h : Heap) : Prop :=
  forall a folders pages, (base <= a)%nat -> h !! a = Some (CTree folders pages) ->
    Forall (fun kc => (base <= snd kc)%nat) folders.

End Store.

(** ** [content/order/js/lightbox.js] *)

Module Lightbox.

(** An [a.gallery-item] of the page: its [href] attribute, and the [alt]
    attribute of the image inside it when there is one. *)
Record Item := mkItem {
  item_href : option string;
  item_img_alt : option (option string);
}.

(** The variables of the script and the part of the page it writes. *)
Record State := mkState {
  items : list Item;
  index : Z;
  lb_hidden : bool;
  lbImg_src : string;
  lbImg_alt : string;
  no_scroll : bool;
  close_focused : bool;
}.

(** As the script starts. *)
Definition initial (hidden : bool) : State := mkState [] (-1) hidden "" "" false false.

(** [items = qsa("a.gallery-item")]: [gallery] is what the page holds now. *)
Definition refreshItems (gallery : list Item) (st : State) : State :=
  mkState gallery (index st) (lb_hidden st) (lbImg_src st) (lbImg_alt st) (no_scroll st)
    (close_focused st).

(** The [%] operator on integers: the remainder takes the sign of the
    dividend. *)
Definition rem (a b : Z) : Z := Z.rem a b.

(** [a || ""] on an attribute. *)
Definition orEmpty (a : option string) : string :=
  match a with
  | Some s => s
  | None => ""
  end.

(** [openAt(i)]; [btnClose] tells whether the page has the close button. *)
Definition openAt (gallery : list Item) (btnClose : bool) (i : Z) (st : State) : State :=
  let st := refreshItems gallery st in
  let n := Z.of_nat (length (items st)) in
  if n =? 0 then st
  else
    let idx := rem (rem i n + n) n in
    match items st !! Z.to_nat idx with
    | Some a =>
        let src := orEmpty (item_href a) in
        let alt := match item_img_alt a with Some im => orEmpty im | None => "" end in
        mkState (items st) idx false src alt true (close_focused st || btnClose)
    | None =>
        (* not reached for an integer [i]: [a] would be [undefined] and the
           read of [a.getAttribute] would throw after the assignment *)
        mkState (items st) idx (lb_hidden st) (lbImg_src st) (lbImg_alt st) (no_scroll st)
          (close_focused st)
    end.

Definition close (st : State) : State :=
  mkState (items st) (-1) true "" "" false (close_focused st).

Definition next (gallery : list Item) (btnClose : bool) (st : State) : State :=
  if index st <? 0 then st else openAt gallery btnClose (index st + 1) st.

Definition prev (gallery : list Item) (btnClose : bool) (st : State) : State :=
  if index st <? 0 then st else openAt gallery btnClose (index st - 1) st.

End Lightbox.

(** ** The manifest store of the build pipeline *)

Module ManifestStore.

(** Modelled from the spec: the variant tag of a source document (section 3).
    The builders ([build_chapters.py], [build_characters.py],
    [build_lore.py]) are not among the sources; this module follows sections
    3, 4.6 and 8 of the specification. *)
Inductive Variant := Flame | Order | Character | Lore.

(** Modelled from the spec: the arc a variant is listed under (section 6,
    the keys of [arcs]); the builders are missing. *)
Definition arcName (v : Variant) : string :=
  match v with
  | Flame => "flame"
  | Order => "order"
  | Character => "characters"
  | Lore => "lore"
  end.

(** Modelled from the spec: SourceDocument (section 3); the builders are
    missing. *)
Record SourceDocument := mkDocument {
  doc_path : string;
  variantTag : Variant;
  arcIndex : option Z;
  rawTitle : string;
  doc_category : option string;
}.

(** Modelled from the spec: ManifestEntry (sections 3 and 6), with the fields
    of both variants; the builders are missing. *)
Record ManifestEntry := mkEntry {
  entry_id : string;
  entry_arc : string;
  entry_index : Z;
  entry_category : string;
  entry_title : string;
  entry_source : string;
  entry_output : string;
  entry_images : list string;
  entry_missing_images : list string;
}.

(** Modelled from the spec: Manifest (section 3): a schema constant, the
    timestamp, the root and the mapping from arc name to the ordered entries;
    the builders are missing. *)
Record Manifest := mkManifest {
  schema : Z;
  generated_at : string;
  root : string;
  arcs : gmap string (list ManifestEntry);
}.

(** Modelled from the spec: the three independent build passes (section 4.6);
    the builders are missing. *)
Inductive Pass := ChaptersPass | CharactersPass | LorePass.

(** Modelled from the spec: the arcs a pass owns, "Flame+Order together, or
    Characters alone, or Lore alone" (section 4.6); the builders are
    missing. *)
Definition owns (p : Pass) : list string :=
  match p with
  | ChaptersPass => ["flame"; "order"]
  | CharactersPass => ["characters"]
  | LorePass => ["lore"]
  end.

(** Modelled from the spec: the order of the entries of an arc (section 4.6):
    Flame and Order by [index] ascending, Character and Lore by [category]
    then title, case-insensitive lexical; the builders are missing. *)
Definition entryLe (arc : string) (a b : ManifestEntry) : bool :=
  if String.eqb arc "flame" || String.eqb arc "order"
  then entry_index a <=? entry_index b
  else
    let ca := Str.toLowerCase (entry_category a) in
    let cb := Str.toLowerCase (entry_category b) in
    if String.eqb ca cb
    then Str.compareCodeUnits (Str.toLowerCase (entry_title a))
           (Str.toLowerCase (entry_title b)) <=? 0
    else Str.compareCodeUnits ca cb <? 0.

(** Modelled from the spec: the deterministic re-sort of section 4.6, as an
    insertion sort; the builders are missing. *)
Fixpoint insertEntry (le : ManifestEntry -> ManifestEntry -> bool) (x : ManifestEntry)
    (sorted : list ManifestEntry) : list ManifestEntry :=
  match sorted with
  | [] => [x]
  | y :: rest => if le x y then x :: y :: rest else y :: insertEntry le x rest
  end.

(** Modelled from the spec: see [insertEntry]; the builders are missing. *)
Fixpoint sortEntries (le : ManifestEntry -> ManifestEntry -> bool)
    (entries : list ManifestEntry) : list ManifestEntry :=
  match entries with
  | [] => []
  | x :: rest => insertEntry le x (sortEntries le rest)
  end.

(** Modelled from the spec: the manifest a first run starts from, when no
    manifest exists (sections 4.6 and 6); the builders are missing. *)
Definition initialManifest : Manifest := mkManifest 2 "" "STORYHUB" ∅.

Section Pipeline.

(** The work done per document (classification, conversion, hook resolution
    against the media directory) yields one entry per document; it is a
    function of the media and the document. *)
Variable Media : Type.
Variable process : Media -> SourceDocument -> ManifestEntry.

(** Modelled from the spec: the entries of one arc after a pass, one per
    document of that arc, sorted (section 4.6); the builders are missing. *)
Definition entriesOf (media : Media) (docs : list SourceDocument) (arc : string)
  : list ManifestEntry :=
  sortEntries (entryLe arc)
    (map (process media)
       (filter (fun d => arcName (variantTag d) = arc) docs)).

(** Modelled from the spec: the merge of section 4.6: "reads any existing
    manifest, replaces only the arcs owned by the current pass, updates
    [generated_at], and writes the full file back"; the builders are
    missing. *)
Definition runPass (p : Pass) (now : string) (media : Media) (docs : list SourceDocument)
    (existing : option Manifest) : Manifest :=
  let m := default initialManifest existing in
  mkManifest (schema m) now (root m)
    (foldr (fun arc acc => <[arc := entriesOf media docs arc]> acc) (arcs m) (owns p)).

(** Modelled from the spec: a full rebuild, the three passes one after the
    other, each stamping its own time; the builders are missing. *)
Definition fullRebuild (t1 t2 t3 : string) (media : Media) (docs : list SourceDocument)
    (existing : option Manifest) : Manifest :=
  runPass LorePass t3 media docs
    (Some (runPass CharactersPass t2 media docs
             (Some (runPass ChaptersPass t1 media docs existing)))).

End Pipeline.



End ManifestStore.

(** ** The statements of the specification, in its own terms *)

Module Spec.


(** [m.k] where the read does not throw, [undefined] otherwise. *)
Definition prop (m : JsVal) (k : string) : JsVal :=
  match m with
  | Some j => match Js.get j k with Ok v => v | Err _ => None end
  | None => None
  end.



(** An entry has a numeric [index] field. *)
Definition hasNumericIndex (e : Json) : Prop :=
  exists n, Js.get e "index" = Ok (Some (JNum n)).

Definition indexKey (e : Json) : Z :=
  match Js.get e "index" with Ok (Some (JNum n)) => n | _ => 0 end.

(** The mount holds one list whose rows are those of the entries of
    [items], arranged so that [before] holds from each row to every later
    one. *)
Definition rendersInOrder (before : Json -> Json -> Prop) (rowOf : Json -> Result Node)
    (items : list Json) (mount : option (list Node)) : Prop :=
  exists sorted rows,
    Permutation items sorted
    /\ StronglySorted before sorted
    /\ Forall2 (fun e r => rowOf e = Ok r) sorted rows
    /\ mount = Some [Elem "div" "chapter-list" None [] rows].

Definition indexAscending (a b : Json) : Prop := indexKey a < indexKey b.
Definition indexNonDecreasing (a b : Json) : Prop := indexKey a <= indexKey b.

(** An entry that can be read and has no numeric [index] field. *)
Definition lacksNumericIndex (e : Json) : Prop :=
  exists v, Js.get e "index" = Ok v /\ forall n, v <> Some (JNum n).

(** The text of a conversion that returns, the empty string otherwise. *)
Definition textOf (r : Result string) : string :=
  match r with
  | Ok s => s
  | Err _ => EmptyString
  end.

(** The value the scripts show and compare as the title of an entry: the
    first truthy one of [title], [title_text] and [id]. *)
Definition titleValue (e : Json) : JsVal :=
  Js.or (Js.or (prop (Some e) "title") (prop (Some e) "title_text")) (prop (Some e) "id").

(** The title value of an entry can be converted to a string. *)
Definition titled (e : Json) : Prop := Js.printableV (titleValue e) = true.

(** Every value of an entry that a row converts to a string or to a number
    can be converted: [output], the title value, [id] and the
    [images_missing] count. *)
Definition plain (e : Json) : Prop :=
  Js.printableV (prop (Some e) "output") = true
  /\ titled e
  /\ Js.printableV (prop (Some e) "id") = true
  /\ Js.printableV
       (prop (Some (NavCommon.orEmptyObject (prop (Some e) "counts"))) "images_missing")
     = true.

(** An entry [leafTitleFromEntry] returns on: it can be read, and its title
    value and its [output] can be converted. *)
Definition hasLeafTitle (e : Json) : Prop :=
  e <> JNull /\ titled e /\ Js.printableV (prop (Some e) "output") = true.

(** The category and the title of an entry, compared without case. *)
Definition categoryOf (e : Json) : string :=
  Str.toLowerCase (textOf (NavCommon.safeText (prop (Some e) "category"))).
Definition titleOf (e : Json) : string :=
  Str.toLowerCase (textOf (NavCommon.safeText (prop (Some e) "title"))).

(** "By category, then by title": [a] may come before [b]. *)
Definition categoryThenTitle (h : Host) (a b : Json) : Prop :=
  localeCompare h (categoryOf a) (categoryOf b) < 0
  \/ (localeCompare h (categoryOf a) (categoryOf b) = 0
      /\ localeCompare h (titleOf a) (titleOf b) <= 0).

(** The text the defensive sort compares when an index is missing: the first
    truthy one of [title], [title_text] and [id], in lower case. *)
Definition sortTitle (e : Json) : string :=
  Str.toLowerCase
    (textOf
       (Js.toString
          (Js.or (Js.or (Js.or (prop (Some e) "title") (prop (Some e) "title_text"))
                    (prop (Some e) "id"))
             (Some (JStr ""))))).

Definition bySortTitle (h : Host) (a b : Json) : Prop :=
  localeCompare h (sortTitle a) (sortTitle b) <= 0.

(** Two entries that differ at most in their [output] field. *)
Definition sameButOutput (a b : Json) : Prop :=
  exists fa fb, a = JObj fa /\ b = JObj fb
    /\ forall k, k <> "output" -> Js.assoc k fa = Js.assoc k fb.

(** One of [title], [title_text] and [id] is truthy. *)
Definition hasTitle (e : Json) : Prop :=
  Js.truthy (Js.or (Js.or (prop (Some e) "title") (prop (Some e) "title_text"))
               (prop (Some e) "id")) = true.

(** What the page shows: every title, with the labels of the groups it is
    listed under, in document order. *)
Definition groupLabel (children : list Node) : string :=
  match children with
  | Elem _ _ (Some label) _ _ :: _ => label
  | _ => ""
  end.

Fixpoint displayedUnder (path : list string) (n : Node) : list (list string * string) :=
  match n with
  | Elem _ cls text _ children =>
      let path' :=
        if String.eqb cls "nav-group" then path ++ [groupLabel children] else path in
      (if String.eqb cls "chapter-title" then [(path, default "" text)] else [])
      ++ (fix each (cs : list Node) : list (list string * string) :=
            match cs with
            | [] => []
            | c :: rest => displayedUnder path' c ++ each rest
            end) children
  end.

Definition displayed (mount : option (list Node)) : list (list string * string) :=
  match mount with
  | Some children => concat (map (displayedUnder []) children)
  | None => []
  end.

(** The last segment of a title written as a path, ["a / b / leaf"]. *)
Definition pathLeaf (e : Json) : option string :=
  let raw :=
    textOf
      (NavCommon.safeText
         (Js.or (Js.or (Js.or (prop (Some e) "title") (prop (Some e) "title_text"))
                   (prop (Some e) "id"))
            (Some (JStr "")))) in
  let cleaned := Str.trim (Str.stripKindLetter raw) in
  if Str.includes cleaned " / "
  then last (filter (fun p => Str.nonempty p = true) (map Str.trim (Str.split cleaned " / ")))
  else None.

(** A node that reports the state of the navigation. *)
Definition isStatus (n : Node) : Prop :=
  Dom.className_of n = "nav-error" \/ Dom.className_of n = "nav-empty"
  \/ Dom.className_of n = "chapter-list" \/ Dom.className_of n = "nav-tree".

End Spec.

(** ** Sample manifests *)

Module Examples.

Definition chapter (id : string) (index : Z) (title output : string) : Json :=
  JObj [("id", JStr id); ("type", JStr "F"); ("arc", JStr "flame"); ("index", JNum index);
        ("title", JStr title); ("output", JStr output);
        ("counts", JObj [("images_used", JNum 1); ("images_missing", JNum 0)])].

Definition page (arc category title output : string) : Json :=
  JObj [("type", JStr "C"); ("arc", JStr arc); ("category", JStr category);
        ("title", JStr title); ("output", JStr output)].

Definition f01 : Json := chapter "F_01" 1 "01 THRESHOLD" "content/flame/01_THRESHOLD.html".
Definition f02 : Json := chapter "F_02" 2 "02 ASHES" "content/flame/02_ASHES.html".
Definition f01bis : Json := chapter "F_01B" 1 "01 INTERLUDE" "content/flame/01_INTERLUDE.html".

Definition lucy : Json :=
  page "characters" "fiends" "Lucy Moore" "content/characters/fiends/lucy-moore.html".
Definition zed : Json :=
  page "characters" "allies" "Zed" "content/characters/allies/zed.html".

Definition manifestOf (schema : Z) (arcs : list (string * Json)) : Json :=
  JObj [("schema", JNum schema); ("generated_at", JStr "2024-05-01T12:00:00");
        ("root", JStr "STORYHUB"); ("arcs", JObj arcs)].

(** A page of the site whose fetch of the manifest answers with [m]. *)
Definition serve (m : Json) : Env :=
  mkEnv "/STORYHUB/flame.html" "https://example.org"
    "https://example.org/STORYHUB/flame.html"
    (fun _ => Ok (mkResponse true 200 "OK" (Ok m))).

Definition chapters : Json := manifestOf 2 [("flame", JArr [f02; f01])].
Definition twins : Json := manifestOf 2 [("flame", JArr [f01; f01bis])].
Definition cast : Json := manifestOf 2 [("characters", JArr [lucy; zed])].

(** The entry [lucy] with another [output], and nothing else changed. *)
Definition lucyMoved : Json :=
  page "characters" "fiends" "Lucy Moore" "content/characters/allies/moore.html".
Definition f01Moved : Json := chapter "F_01" 1 "01 THRESHOLD" "archive/one.html".
Definition f02Moved : Json := chapter "F_02" 2 "02 ASHES" "archive/two.html".
Definition chaptersMoved : Json := manifestOf 2 [("flame", JArr [f02Moved; f01Moved])].
Definition aberration : Json :=
  page "lore" "wasteland" "L wasteland / Aberration" "content/lore/wasteland/aberration.html".
Definition aberrationMoved : Json :=
  page "lore" "wasteland" "L wasteland / Aberration" "content/lore/misc/x.html".
(** Lore entries that carry an index, and entries without any title. *)
Definition loreB : Json :=
  JObj [("index", JNum 1); ("title", JStr "Bestiary");
        ("output", JStr "content/lore/world/bestiary.html")].
Definition loreA : Json :=
  JObj [("index", JNum 2); ("title", JStr "Atlas");
        ("output", JStr "content/lore/world/atlas.html")].
Definition indexedLore : Json := manifestOf 2 [("lore", JArr [loreB; loreA])].
Definition bare (output : string) : Json := JObj [("output", JStr output)].
Definition abe : Json :=
  page "characters" "fiends" "Abe" "content/characters/fiends/deep/abe.html".
Definition library : Json :=
  manifestOf 2 [("characters", JArr [lucy; zed; aberration; abe]); ("flame", JArr [f02; f01])].
Definition castOne : Json := manifestOf 2 [("characters", JArr [lucy])].
(** An object with a [toString] member of its own, as a title and as an
    [output]. *)
Definition opaque : Json := JObj [("toString", JNum 1)].
Definition opaqueTitle : Json :=
  JObj [("index", JNum 1); ("title", opaque); ("output", JStr "a.html")].
Definition plainOutput : Json :=
  JObj [("index", JNum 1); ("title", JStr "01 THRESHOLD"); ("output", JStr "a.html")].
Definition opaqueOutput : Json :=
  JObj [("index", JNum 1); ("title", JStr "01 THRESHOLD"); ("output", opaque)].
Definition castOneMoved : Json := manifestOf 2 [("characters", JArr [lucyMoved])].

(** Documents and a prior manifest for the manifest store. *)
Definition processSample (media : list string) (d : ManifestStore.SourceDocument)
  : ManifestStore.ManifestEntry :=
  ManifestStore.mkEntry (ManifestStore.rawTitle d)
    (ManifestStore.arcName (ManifestStore.variantTag d))
    (default 0 (ManifestStore.arcIndex d))
    (default "" (ManifestStore.doc_category d))
    (ManifestStore.rawTitle d) (ManifestStore.doc_path d)
    ("content/" +:+ ManifestStore.rawTitle d +:+ ".html") media [].

Definition docThreshold : ManifestStore.SourceDocument :=
  ManifestStore.mkDocument "source-docx/F_01_THRESHOLD.docx" ManifestStore.Flame (Some 1)
    "THRESHOLD" None.
Definition docAshes : ManifestStore.SourceDocument :=
  ManifestStore.mkDocument "source-docx/F_02_ASHES.docx" ManifestStore.Flame (Some 2)
    "ASHES" None.
Definition docLucy : ManifestStore.SourceDocument :=
  ManifestStore.mkDocument "source-docx/characters/fiends/C_LUCY.docx"
    ManifestStore.Character None "Lucy Moore" (Some "fiends").

Definition sources : list ManifestStore.SourceDocument := [docAshes; docLucy; docThreshold].

Definition priorManifest : ManifestStore.Manifest :=
  ManifestStore.mkManifest 2 "2024-01-01T00:00:00" "STORYHUB"
    {[ "characters" := [processSample [] docLucy];
       "flame" := [processSample [] docAshes] ]}.

End Examples.

(** ** [content/order/js/lightbox.js]: the two handlers and the exposed calls *)

Module LightboxEvents.
Import Lightbox.

(** What the click handler learns of [e.target]: for each selector, whether
    [closest] finds an element.  The anchor found for ["a.gallery-item"] is
    given by its place in the list [refreshItems] has just read, [None] when
    [indexOf] does not find it there.  A target that is [null] or has no
    [closest] finds nothing. *)
Record Target := mkTarget {
  closest_item : option (option nat);
  closest_prev : bool;
  closest_next : bool;
  closest_close : bool;
}.

(** The click handler (lines 80-101).  [e.preventDefault()] only stops the
    browser from following the link and is left out. *)
Definition onClick (gallery : list Item) (btnClose : bool) (t : Target) (st : State) : State :=
  match closest_item t with
  | Some found =>
      let st := refreshItems gallery st in
      let i := match found with Some k => Z.of_nat k | None => -1 end in
      openAt gallery btnClose (if 0 <=? i then i else 0) st
  | None =>
      if closest_prev t then prev gallery btnClose st
      else if closest_next t then next gallery btnClose st
      else if closest_close t then close st
      else st
  end.

(** The keydown handler (lines 104-117); the script installs both handlers
    only on a page that has the overlay and its image. *)
Definition onKeydown (gallery : list Item) (btnClose : bool) (key : string) (st : State)
  : State :=
  if lb_hidden st then st
  else if String.eqb key "Escape" then close st
  else if String.eqb key "ArrowRight" then next gallery btnClose st
  else if String.eqb key "ArrowLeft" then prev gallery btnClose st
  else st.

(** What can happen to the page once the script is loaded: a click, a key,
    or a call through [window.STORYHUB_LIGHTBOX]. *)
Inductive Event :=
| Click (t : Target)
| Keydown (key : string)
| CallOpenAt (i : Z)
| CallClose
| CallNext
| CallPrev.

Definition step (btnClose : bool) (gallery : list Item) (e : Event) (st : State) : State :=
  match e with
  | Click t => onClick gallery btnClose t st
  | Keydown key => onKeydown gallery btnClose key st
  | CallOpenAt i => openAt gallery btnClose i st
  | CallClose => close st
  | CallNext => next gallery btnClose st
  | CallPrev => prev gallery btnClose st
  end.

(** A history: each event with the gallery items the page holds when it
    happens. *)
Fixpoint run (btnClose : bool) (history : list (list Item * Event)) (st : State) : State :=
  match history with
  | [] => st
  | (gallery, e) :: rest => run btnClose rest (step btnClose gallery e st)
  end.

(** The overlay, the index and the scroll lock tell the same story. *)
Definition coherent (st : State) : Prop :=
  (lb_hidden st = true /\ index st = -1 /\ no_scroll st = false)
  \/ (lb_hidden st = false /\ 0 <= index st /\ no_scroll st = true).

(** An event that can open the overlay. *)
Definition opens (e : Event) : bool :=
  match e with
  | Click t => match closest_item t with Some _ => true | None => false end
  | CallOpenAt _ => true
  | _ => false
  end.

End LightboxEvents.

(** ** Views of the folder tree *)

Module TreeView.
Import NavCommon NavgenTree.

(** Every entry the tree holds: the pages of a node, then those of its
    folders in the order of the map. *)
Fixpoint allPages (t : Tree) : list Json :=
  match t with
  | TreeNode folders pages => pages ++ concat (map (fun kc => allPages (snd kc)) folders)
  end.

(** [node.folders.get(folder)]. *)
Fixpoint folderGet (folder : string) (folders : list (string * Tree)) : option Tree :=
  match folders with
  | [] => None
  | (k, child) :: rest => if String.eqb k folder then Some child else folderGet folder rest
  end.

(** The node a folder path leads to. *)
Fixpoint nodeAt (path : list string) (t : Tree) : option Tree :=
  match path with
  | [] => Some t
  | folder :: rest =>
      match t with
      | TreeNode folders _ =>
          match folderGet folder folders with
          | Some child => nodeAt rest child
          | None => None
          end
      end
  end.

(** The pages listed right under a folder path, none when there is no such
    folder. *)
Definition pagesAt (path : list string) (t : Tree) : list Json :=
  match nodeAt path t with
  | Some (TreeNode _ pages) => pages
  | None => []
  end.

(** A map holds a key once. *)
Inductive keysUnique : Tree -> Prop :=
| keysUnique_node (folders : list (string * Tree)) (pages : list Json) :
    NoDup (map fst folders) ->
    Forall (fun kc => keysUnique (snd kc)) folders ->
    keysUnique (TreeNode folders pages).

(** The keys [sortNode] compares. *)
Definition pageLabel (e : Json) : string :=
  match leafTitleFromEntry e with
  | Ok leaf => Str.toLowerCase (humanizeSegment leaf)
  | Err _ => ""
  end.
Definition folderLabel (k : string) : string := Str.toLowerCase (humanizeSegment k).

Definition pageLe (h : Host) (a b : Json) : Prop :=
  localeCompare h (pageLabel a) (pageLabel b) <= 0.
Definition folderLe (h : Host) (a b : string * Tree) : Prop :=
  localeCompare h (folderLabel (fst a)) (folderLabel (fst b)) <= 0.

(** Every node has its pages and its folders in the order of the host's
    collation. *)
Inductive sortedTree (h : Host) : Tree -> Prop :=
| sortedTree_node (folders : list (string * Tree)) (pages : list Json) :
    StronglySorted (pageLe h) pages ->
    StronglySorted (folderLe h) folders ->
    Forall (fun kc => sortedTree h (snd kc)) folders ->
    sortedTree h (TreeNode folders pages).

(** The title [makeRow] gives the row of an entry. *)
Definition rowTitle (e : Json) : string :=
  match leafTitleFromEntry e with
  | Ok leaf =>
      Spec.textOf
        (safeText
           (Js.or
              (Js.or
                 (Js.or
                    (Js.or (Some (JStr (humanizeSegment leaf))) (Spec.prop (Some e) "title"))
                    (Spec.prop (Some e) "title_text"))
                 (Spec.prop (Some e) "id"))
              (Some (JStr (Spec.textOf (normalizePath (Spec.prop (Some e) "output")))))))
  | Err _ => ""
  end.

(** What a tree is to show: the pages of a node under the labels of the
    folders that lead to it, then what its folders show, in the order of
    the map. *)
Fixpoint listing (path : list string) (t : Tree) : list (list string * string) :=
  match t with
  | TreeNode folders pages =>
      map (fun e => (path, rowTitle e)) pages
      ++ concat (map (fun kc => listing (path ++ [humanizeSegment (fst kc)]) (snd kc)) folders)
  end.

(** The child step of [sortNode]. *)
Definition sortChild (h : Host) (kc : string * Tree) : Result (string * Tree) :=
  child' ← sortNode h (snd kc);
  mret (fst kc, child').

End TreeView.

(** ** Views of a string *)

Module StrView.

(** Whether [p] occurs in [s]. *)
Fixpoint occurs (p s : string) : bool :=
  Str.startsWith s p
  || match s with
     | EmptyString => false
     | String _ s' => occurs p s'
     end.

Fixpoint allChars (P : ascii -> bool) (s : string) : bool :=
  match s with
  | EmptyString => true
  | String c s' => P c && allChars P s'
  end.

Fixpoint lastChar (s : string) : option ascii :=
  match s with
  | EmptyString => None
  | String c EmptyString => Some c
  | String _ s' => lastChar s'
  end.

(** A character of the ASCII range, where the case mapping and the white
    space of the embedding are those of JavaScript. *)
Definition isAscii (c : ascii) : bool := (Str.code c <? 128)%N.

Definition notSlash (c : ascii) : bool := negb (Ascii.eqb c "/"%char).
Definition notBackslash (c : ascii) : bool := negb (Ascii.eqb c "\"%char).
Definition notSpace (c : ascii) : bool := negb (Ascii.eqb c " "%char).
Definition notSeparator (c : ascii) : bool := negb (Str.is_sep_char c).

(** A segment of a path: not empty, without a slash or a backslash. *)
Definition isSegmentChar (c : ascii) : bool := notSlash c && notBackslash c.
Definition segment (s : string) : Prop :=
  s <> EmptyString /\ allChars isSegmentChar s = true.

End StrView.

(* ===================================================================== *)
(** * Part II: properties                                                 *)
(* ===================================================================== *)

Ltac unfold_result := unfold mbind, mret, Result_bind, Result_ret in *.

(** ** The result monad *)

Lemma bind_Ok_inv {A B : Type} (m : Result A) (k : A -> Result B) (b : B) :
  (x ← m; k x) = Ok b -> exists a, m = Ok a /\ k a = Ok b.
Proof.
  unfold_result. destruct m as [a|e]; [eauto | discriminate].
Qed.

Lemma traverse_total {A B : Type} (f : A -> Result B) (xs : list A) :
  Forall (fun x => exists y, f x = Ok y) xs ->
  exists ys, traverse f xs = Ok ys /\ Forall2 (fun x y => f x = Ok y) xs ys.
Proof.
  induction 1 as [|x xs [y Hy] _ [ys [IH1 IH2]]]; simpl.
  - exists []. split; [reflexivity | constructor].
  - exists (y :: ys). rewrite Hy, IH1. unfold_result.
    split; [reflexivity | constructor; assumption].
Qed.

Lemma traverse_Ok_inv {A B : Type} (f : A -> Result B) (xs : list A) (ys : list B) :
  traverse f xs = Ok ys -> Forall2 (fun x y => f x = Ok y) xs ys.
Proof.
  revert ys. induction xs as [|x xs IH]; simpl; intros ys H.
  - inversion H. constructor.
  - apply bind_Ok_inv in H as [y [Hy H]].
    apply bind_Ok_inv in H as [ys' [Hys H]].
    unfold_result. inversion H; subst. constructor; auto.
Qed.

(** ** Property reads *)

Lemma get_nonnull (j : Json) (k : string) :
  j <> JNull -> exists v, Js.get j k = Ok v.
Proof.
  intros Hj. destruct j; simpl; try (eexists; reflexivity); try congruence.
  - destruct (String.eqb k "length"); eexists; reflexivity.
  - destruct (String.eqb k "length"); eexists; reflexivity.
Qed.

Lemma get_Ok_nonnull (j : Json) (k : string) (v : JsVal) :
  Js.get j k = Ok v -> j <> JNull.
Proof. intros H ->. discriminate. Qed.

(** ** The sort *)

Section SortBy.
Context {A : Type} (cmp : A -> A -> Result Z) (P : A -> Prop) (le : A -> A -> Prop).
Hypothesis cmp_total : forall x y, P x -> P y ->
  exists c, cmp x y = Ok c /\ (c <= 0 -> le x y) /\ (0 < c -> le y x).
Hypothesis le_trans : forall x y z, P x -> P y -> P z -> le x y -> le y z -> le x z.

Lemma insertBy_sorted (x : A) (s : list A) :
  P x -> Forall P s -> StronglySorted le s ->
  exists s', NavCommon.insertBy cmp x s = Ok s' /\ Permutation (x :: s) s'
             /\ StronglySorted le s' /\ Forall P s'.
Proof.
  intros Px. induction s as [|y rest IH]; intros HP Hs; simpl.
  - exists [x]. unfold_result. repeat split; auto.
    constructor; [constructor | constructor].
  - inversion HP as [|? ? Py HPrest]; subst.
    inversion Hs as [|? ? Hrest Hy]; subst.
    destruct (cmp_total x y Px Py) as [c [-> [Hle Hgt]]]. unfold_result.
    destruct (Z.leb_spec c 0) as [Hc|Hc].
    + exists (x :: y :: rest). repeat split; auto.
      constructor; [assumption|]. constructor; [auto|].
      rewrite Forall_forall in Hy, HPrest |- *. intros z Hz.
      apply (le_trans x y z); auto.
    + destruct (IH HPrest Hrest) as [s' [-> [Hperm [Hsorted HPs']]]].
      exists (y :: s'). repeat split.
      * rewrite perm_swap. constructor. exact Hperm.
      * constructor; [assumption|].
        eapply Permutation_Forall; [exact Hperm|]. constructor; auto.
      * constructor; assumption.
Qed.

Lemma sortBy_sorted (l : list A) :
  Forall P l ->
  exists s, NavCommon.sortBy cmp l = Ok s /\ Permutation l s
            /\ StronglySorted le s /\ Forall P s.
Proof.
  induction 1 as [|x rest Px HP [s [Hs [Hperm [Hsorted HPs]]]]]; simpl.
  - exists []. repeat split; auto. constructor.
  - rewrite Hs. unfold_result.
    destruct (insertBy_sorted x s Px HPs Hsorted) as [s' [-> [Hperm' [Hsorted' HPs']]]].
    exists s'. repeat split; auto.
    etransitivity; [|exact Hperm']. constructor. exact Hperm.
Qed.

End SortBy.

(** Two comparators that agree on related elements sort related lists alike. *)
Section SortByRelated.
Context {A B : Type} (cmpA : A -> A -> Result Z) (cmpB : B -> B -> Result Z)
  (R : A -> B -> Prop).
Hypothesis cmp_related : forall x y x' y', R x x' -> R y y' -> cmpA x y = cmpB x' y'.

Lemma insertBy_related (x : A) (x' : B) (s : list A) (s' : list B) :
  R x x' -> Forall2 R s s' ->
  match NavCommon.insertBy cmpA x s, NavCommon.insertBy cmpB x' s' with
  | Ok t, Ok t' => Forall2 R t t'
  | Err e, Err e' => e = e'
  | _, _ => False
  end.
Proof.
  intros Hx Hs. induction Hs as [|y y' rest rest' Hy Hrest IH]; simpl.
  - unfold_result. constructor; [assumption | constructor].
  - rewrite (cmp_related x y x' y' Hx Hy).
    destruct (cmpB x' y') as [c|e]; unfold_result; [|reflexivity].
    destruct (c <=? 0).
    + repeat (constructor; try assumption).
    + destruct (NavCommon.insertBy cmpA x rest), (NavCommon.insertBy cmpB x' rest');
        try assumption; try contradiction.
      constructor; assumption.
Qed.

Lemma sortBy_related (l : list A) (l' : list B) :
  Forall2 R l l' ->
  match NavCommon.sortBy cmpA l, NavCommon.sortBy cmpB l' with
  | Ok t, Ok t' => Forall2 R t t'
  | Err e, Err e' => e = e'
  | _, _ => False
  end.
Proof.
  induction 1 as [|x x' rest rest' Hx Hrest IH]; simpl.
  - constructor.
  - destruct (NavCommon.sortBy cmpA rest), (NavCommon.sortBy cmpB rest');
      unfold_result; try assumption; try contradiction.
    apply insertBy_related; assumption.
Qed.

End SortByRelated.

Lemma StronglySorted_strict {A : Type} (key : A -> Z) (s : list A) :
  StronglySorted (fun a b => key a <= key b) s -> NoDup (map key s) ->
  StronglySorted (fun a b => key a < key b) s.
Proof.
  induction 1 as [|x rest Hrest IH Hx]; intros Hnd; simpl in *.
  - constructor.
  - apply NoDup_cons in Hnd as [Hnotin Hnd].
    constructor; [auto|].
    rewrite Forall_forall in Hx |- *. intros y Hy.
    specialize (Hx y Hy).
    assert (key x <> key y).
    { intros Heq. apply Hnotin. rewrite Heq. apply list_elem_of_In.
      apply in_map. apply list_elem_of_In. exact Hy. }
    lia.
Qed.

(** ** The version gate *)





(** ** The two comparators *)

Lemma Forall2_eq_refl {A : Type} (l : list A) : Forall2 eq l l.
Proof. induction l; constructor; auto. Qed.

Lemma Forall2_eq_inv {A : Type} (l k : list A) : Forall2 eq l k -> l = k.
Proof. induction 1; congruence. Qed.

(** C8 (the two comparators agree).  The comparator of the defensive sort in
    [js/navgen.js] and the one in the tree variant return the same result on
    every pair of entries, a thrown exception included, hence results of the
    same sign, and the two sorts return the same list for every array. *)
Theorem C8_comparators_agree (h : Host) :
  (forall a b : Json, Navgen.compareEntries h a b = NavgenTree.compareEntries h a b)
  /\ (forall (a b : Json) (x y : Z),
        Navgen.compareEntries h a b = Ok x -> NavgenTree.compareEntries h a b = Ok y ->
        Z.sgn x = Z.sgn y)
  /\ (forall entries : list Json,
        NavCommon.sortBy (Navgen.compareEntries h) entries
        = NavCommon.sortBy (NavgenTree.compareEntries h) entries).
Proof.
  assert (Heq : forall a b, Navgen.compareEntries h a b = NavgenTree.compareEntries h a b).
  { intros a b. unfold Navgen.compareEntries, NavgenTree.compareEntries,
      Navgen.titleKey, NavgenTree.titleKey. reflexivity. }
  split; [exact Heq|]. split.
  - intros a b x y Hx Hy. pose proof (Heq a b) as E. congruence.
  - intros entries.
    pose proof (sortBy_related (Navgen.compareEntries h) (NavgenTree.compareEntries h) eq
                  ltac:(intros; subst; apply Heq) entries entries
                  (Forall2_eq_refl entries)) as H.
    destruct (NavCommon.sortBy (Navgen.compareEntries h) entries),
             (NavCommon.sortBy (NavgenTree.compareEntries h) entries);
      try contradiction; [|congruence].
    f_equal. apply Forall2_eq_inv. exact H.
Qed.

Lemma C8_comparators_agree_witness :
  Z.sgn (-1) = Z.sgn (-1)
  /\ NavCommon.sortBy (Navgen.compareEntries RefHost.host) [Examples.f02; Examples.f01]
     = NavCommon.sortBy (NavgenTree.compareEntries RefHost.host) [Examples.f02; Examples.f01].
Proof.
  destruct (C8_comparators_agree RefHost.host) as [_ [Hsign Hsort]].
  split.
  - exact (Hsign Examples.f01 Examples.f02 (-1) (-1) eq_refl eq_refl).
  - exact (Hsort [Examples.f02; Examples.f01]).
Defined.

(** ** One status element *)

Lemma navgen_attempt_status (h : Host) (env : Env) (arc : string) (options : Options)
    (mountEl done : list Node) :
  Navgen.attempt h env arc options mountEl = Ok done ->
  exists node, done = [node] /\ Spec.isStatus node.
Proof.
  unfold Navgen.attempt. intros H.
  apply bind_Ok_inv in H as [m [_ H]].
  apply bind_Ok_inv in H as [entries [_ H]].
  destruct entries as [items|].
  - destruct (length items =? 0)%nat.
    + inversion H; subst. eexists; split; [reflexivity|]. right; left; reflexivity.
    + apply bind_Ok_inv in H as [sorted [_ H]].
      unfold Navgen.renderList in H.
      apply bind_Ok_inv in H as [rows [_ H]].
      inversion H; subst. eexists; split; [reflexivity|].
      right; right; left; reflexivity.
  - inversion H; subst. eexists; split; [reflexivity|]. left; reflexivity.
Qed.

Lemma tree_attempt_status (h : Host) (env : Env) (arc : string) (options : Options)
    (mountEl done : list Node) :
  NavgenTree.attempt h env arc options mountEl = Ok done ->
  exists node, done = [node] /\ Spec.isStatus node.
Proof.
  unfold NavgenTree.attempt. intros H.
  apply bind_Ok_inv in H as [m [_ H]].
  apply bind_Ok_inv in H as [entries [_ H]].
  destruct entries as [items|].
  - destruct (length items =? 0)%nat.
    + inversion H; subst. eexists; split; [reflexivity|]. right; left; reflexivity.
    + apply bind_Ok_inv in H as [sorted [_ H]].
      destruct (String.eqb arc "lore" || String.eqb arc "characters").
      * apply bind_Ok_inv in H as [tree [_ H]].
        apply bind_Ok_inv in H as [tree' [_ H]].
        unfold NavgenTree.renderTree in H. destruct tree' as [folders pages].
        apply bind_Ok_inv in H as [rows [_ H]].
        apply bind_Ok_inv in H as [groups [_ H]].
        inversion H; subst. eexists; split; [reflexivity|].
        right; right; right; reflexivity.
      * unfold NavgenTree.renderList in H.
        apply bind_Ok_inv in H as [rows [_ H]].
        inversion H; subst. eexists; split; [reflexivity|].
        right; right; left; reflexivity.
  - inversion H; subst. eexists; split; [reflexivity|]. left; reflexivity.
Qed.

(** C9 (no exception escapes, one status element).  Whatever the fetch does
    (the promise rejects, the response is not OK, the body is not JSON, the
    manifest is malformed or well-formed) and whatever the mount held,
    [buildNav] settles with the mount holding exactly one child, which is an
    error element, the empty-state element, the list or the tree; without a
    mount element it returns having rendered nothing.  Both variants. *)
Theorem C9_single_status_element (h : Host) (env : Env) (arc : string) (opts : Opts)
    (children : list Node) :
  (exists node, Navgen.buildNav h env arc (Some children) opts = Some [node]
                /\ Spec.isStatus node)
  /\ (exists node, NavgenTree.buildNav h env arc (Some children) opts = Some [node]
                   /\ Spec.isStatus node)
  /\ Navgen.buildNav h env arc None opts = None
  /\ NavgenTree.buildNav h env arc None opts = None.
Proof.
  split; [|split; [|split; reflexivity]].
  - unfold Navgen.buildNav.
    destruct (Navgen.attempt _ _ _ _ _) as [done|err] eqn:Hattempt.
    + apply navgen_attempt_status in Hattempt as [node [-> Hnode]]. eauto.
    + eexists; split; [reflexivity|]. left; reflexivity.
  - unfold NavgenTree.buildNav.
    destruct (NavgenTree.attempt _ _ _ _ _) as [done|err] eqn:Hattempt.
    + apply tree_attempt_status in Hattempt as [node [-> Hnode]]. eauto.
    + eexists; split; [reflexivity|]. left; reflexivity.
Qed.

(** ** Conversions to strings and numbers *)

Lemma Json_nested_ind (P : Json -> Prop) :
  P JNull -> (forall b, P (JBool b)) -> (forall n, P (JNum n)) -> (forall s, P (JStr s)) ->
  (forall items, Forall P items -> P (JArr items)) ->
  (forall fields, Forall (fun kv => P (snd kv)) fields -> P (JObj fields)) ->
  forall j, P j.
Proof.
  intros Hnull Hbool Hnum Hstr Harr Hobj.
  fix IH 1. intros [|b|n|s|items|fields].
  - exact Hnull.
  - apply Hbool.
  - apply Hnum.
  - apply Hstr.
  - apply Harr. induction items as [|x rest IHrest]; constructor; [apply IH | exact IHrest].
  - apply Hobj. induction fields as [|[k x] rest IHrest]; constructor;
      [apply IH | exact IHrest].
Qed.

Lemma toStringJ_printable (j : Json) :
  Js.printable j = true -> exists s, Js.toStringJ j = Ok s.
Proof.
  induction j as [|b|n|str|items IH|fields _] using Json_nested_ind; intros Hp;
    try (eexists; reflexivity).
  - destruct b; eexists; reflexivity.
  - cbn [Js.toStringJ].
    match goal with
    | |- exists s, (parts ← ?X; _) = Ok s => assert (Hparts : exists parts, X = Ok parts)
    end.
    { cbn [Js.printable] in Hp. induction IH as [|x rest Hx _ IHrest].
      - exists []. reflexivity.
      - apply andb_prop in Hp as [Hpx Hprest].
        destruct (IHrest Hprest) as [parts Hparts].
        destruct (Hx Hpx) as [sx Hsx].
        exists ((match x with JNull => EmptyString | _ => sx end) :: parts).
        rewrite Hparts. destruct x; try rewrite Hsx; reflexivity. }
    destruct Hparts as [parts ->]. eexists; reflexivity.
  - cbn [Js.toStringJ Js.printable] in *.
    destruct (Js.assoc "toString" fields); [discriminate | eexists; reflexivity].
Qed.

Lemma toStringJ_Ok_printable (j : Json) (s : string) :
  Js.toStringJ j = Ok s -> Js.printable j = true.
Proof.
  revert s. induction j as [|b|n|str|items IH|fields _] using Json_nested_ind; intros s H;
    try reflexivity.
  - cbn [Js.toStringJ Js.printable] in *.
    apply bind_Ok_inv in H as [parts [Hparts _]]. revert parts Hparts.
    induction IH as [|x rest Hx _ IHrest]; intros parts Hparts; [reflexivity|].
    apply bind_Ok_inv in Hparts as [sx [Hsx Hparts]].
    apply bind_Ok_inv in Hparts as [ss [Hss _]].
    rewrite (IHrest ss Hss), andb_true_r.
    destruct x; try reflexivity; exact (Hx sx Hsx).
  - cbn [Js.toStringJ Js.printable] in *.
    destruct (Js.assoc "toString" fields); [discriminate | reflexivity].
Qed.

(** Every exception of a conversion is the same [TypeError]. *)
Lemma toStringJ_error (j : Json) (e : Exn) :
  Js.toStringJ j = Err e -> e = Js.conversionError.
Proof.
  intros H. destruct (Js.printable j) eqn:Hp.
  - destruct (toStringJ_printable j Hp) as [s Hs]. congruence.
  - clear Hp. revert e H.
    induction j as [|b|n|str|items IH|fields _] using Json_nested_ind; intros e H;
      try discriminate.
    + destruct b; discriminate.
    + cbn [Js.toStringJ] in H.
      match type of H with
      | (parts ← ?X; _) = _ =>
          assert (Hparts : forall e', X = Err e' -> e' = Js.conversionError)
      end.
      { clear H. induction IH as [|x rest Hx _ IHrest]; intros e' He'; [discriminate|].
        unfold_result.
        destruct (match x with JNull => Ok EmptyString | _ => Js.toStringJ x end)
          as [sx|ex] eqn:Hsx.
        - apply IHrest.
          match type of He' with
          | match ?Y with Ok _ => _ | Err _ => _ end = _ => destruct Y as [ss|es]
          end; [discriminate | exact He'].
        - injection He' as <-. destruct x; try discriminate; apply Hx; exact Hsx. }
      unfold_result.
      match type of H with
      | match ?X with Ok _ => _ | Err _ => _ end = _ => destruct X as [parts|e'] eqn:HX
      end; [discriminate|].
      injection H as <-. apply Hparts. reflexivity.
    + cbn [Js.toStringJ] in H. destruct (Js.assoc "toString" fields); [|discriminate].
      injection H as <-. reflexivity.
Qed.

Lemma toString_printable (v : JsVal) :
  Js.printableV v = true -> exists s, Js.toString v = Ok s.
Proof.
  destruct v as [j|]; [apply toStringJ_printable | eexists; reflexivity].
Qed.

Lemma toString_textOf (v : JsVal) :
  Js.printableV v = true -> Js.toString v = Ok (Spec.textOf (Js.toString v)).
Proof. intros H. destruct (toString_printable v H) as [s ->]. reflexivity. Qed.

Lemma toString_error (v : JsVal) (e : Exn) :
  Js.toString v = Err e -> e = Js.conversionError.
Proof. destruct v as [j|]; [apply toStringJ_error | discriminate]. Qed.

Lemma safeText_printable (v : JsVal) :
  Js.printableV v = true -> exists s, NavCommon.safeText v = Ok s.
Proof.
  intros Hp. destruct v as [j|]; [|eexists; reflexivity].
  destruct (toStringJ_printable j Hp) as [s Hs].
  destruct j; try (eexists; reflexivity); exists s; exact Hs.
Qed.

Lemma safeText_textOf (v : JsVal) :
  Js.printableV v = true -> NavCommon.safeText v = Ok (Spec.textOf (NavCommon.safeText v)).
Proof. intros H. destruct (safeText_printable v H) as [s ->]. reflexivity. Qed.

Lemma normalizePath_printable (v : JsVal) :
  Js.printableV v = true -> exists s, NavCommon.normalizePath v = Ok s.
Proof.
  intros Hp. unfold NavCommon.normalizePath.
  destruct (negb (Js.truthy v)); [eexists; reflexivity|].
  destruct (toString_printable v Hp) as [s ->]. eexists; reflexivity.
Qed.

Lemma normalizePath_textOf (v : JsVal) :
  Js.printableV v = true
  -> NavCommon.normalizePath v = Ok (Spec.textOf (NavCommon.normalizePath v)).
Proof. intros H. destruct (normalizePath_printable v H) as [s ->]. reflexivity. Qed.

Lemma normalizePath_Ok_printable (v : JsVal) (s : string) :
  NavCommon.normalizePath v = Ok s -> Js.printableV v = true.
Proof.
  unfold NavCommon.normalizePath. destruct v as [j|]; [|reflexivity].
  destruct (Js.truthy (Some j)) eqn:Ht; cbn [negb].
  - intros H. apply bind_Ok_inv in H as [text [Htext _]].
    eapply toStringJ_Ok_printable. exact Htext.
  - intros _. destruct j as [|b|n|str|items|fields]; try reflexivity; discriminate.
Qed.

Lemma toNumber_printable (h : Host) (v : JsVal) :
  Js.printableV v = true -> exists n, NavCommon.toNumber h v = Ok n.
Proof.
  intros Hp. destruct v as [j|]; [|eexists; reflexivity].
  destruct (toStringJ_printable j Hp) as [s Hs].
  destruct j; try (eexists; reflexivity); cbn [NavCommon.toNumber]; rewrite Hs;
    eexists; reflexivity.
Qed.

Lemma printableV_or (a b : JsVal) :
  Js.printableV a = true -> Js.printableV b = true -> Js.printableV (Js.or a b) = true.
Proof. intros Ha Hb. unfold Js.or. destruct (Js.truthy a); assumption. Qed.

Lemma or_assoc (a b c : JsVal) : Js.or (Js.or a b) c = Js.or a (Js.or b c).
Proof.
  unfold Js.or. destruct (Js.truthy a) eqn:Ha; [rewrite Ha|]; reflexivity.
Qed.

Lemma getCurrentPathnameNormalized_spec (env : Env) :
  NavCommon.normalizePath (Some (JStr (location_pathname env)))
  = Ok (NavCommon.getCurrentPathnameNormalized env).
Proof.
  unfold NavCommon.normalizePath, NavCommon.getCurrentPathnameNormalized.
  cbn [Js.truthy]. destruct (negb (Str.nonempty (location_pathname env))); reflexivity.
Qed.

(** ** Rows are total on plain entries *)

Lemma orEmptyObject_nonnull (v : JsVal) : NavCommon.orEmptyObject v <> JNull.
Proof.
  unfold NavCommon.orEmptyObject. destruct v as [[]|]; simpl; try discriminate.
  - destruct b; discriminate.
  - destruct (negb (n =? 0)); discriminate.
  - destruct (Str.nonempty s); discriminate.
Qed.

Lemma prop_get (e : Json) (k : string) (v : JsVal) :
  Js.get e k = Ok v -> Spec.prop (Some e) k = v.
Proof. intros H. unfold Spec.prop. rewrite H. reflexivity. Qed.

Lemma badges_total (h : Host) (options : Options) (e : Json) :
  e <> JNull ->
  Js.printableV
    (Spec.prop (Some (NavCommon.orEmptyObject (Spec.prop (Some e) "counts"))) "images_missing")
  = true ->
  exists bs, NavCommon.badges h options e = Ok bs.
Proof.
  intros He Hp. unfold NavCommon.badges.
  destruct (get_nonnull e "counts" He) as [countsV Hcounts].
  rewrite Hcounts. rewrite (prop_get _ _ _ Hcounts) in Hp. unfold_result.
  pose proof (orEmptyObject_nonnull countsV) as Hc.
  destruct (get_nonnull _ "images_missing" Hc) as [mv Hmv].
  rewrite Hmv. rewrite (prop_get _ _ _ Hmv) in Hp.
  destruct (get_nonnull _ "images_used" Hc) as [uv ->].
  destruct (toNumber_printable h (Js.or mv (Some (JNum 0)))) as [n ->];
    [apply printableV_or; [exact Hp | reflexivity]|].
  destruct (showCounts options && Js.truthy countsV && Js.typeof_is uv Js.TNumber) eqn:Hused.
  - apply andb_prop in Hused as [_ Hnum].
    destruct uv as [[]|]; try discriminate. eexists; reflexivity.
  - eexists; reflexivity.
Qed.

Lemma metaLine_total (iv : JsVal) :
  Js.printableV iv = true -> exists meta, NavCommon.metaLine iv = Ok meta.
Proof.
  intros Hp. unfold NavCommon.metaLine. destruct (Js.truthy iv); [|eexists; reflexivity].
  destruct (toString_printable iv Hp) as [s ->]. eexists; reflexivity.
Qed.

Lemma plain_nonnull_reads (e : Json) :
  e <> JNull -> Spec.plain e ->
  exists ov tv ttv iv,
    Js.get e "output" = Ok ov /\ Js.get e "title" = Ok tv
    /\ Js.get e "title_text" = Ok ttv /\ Js.get e "id" = Ok iv
    /\ Js.printableV ov = true /\ Js.printableV (Js.or (Js.or tv ttv) iv) = true
    /\ Js.printableV iv = true.
Proof.
  intros He [Hout [Htitle [Hid _]]]. unfold Spec.titled, Spec.titleValue in Htitle.
  destruct (get_nonnull e "output" He) as [ov Hov].
  destruct (get_nonnull e "title" He) as [tv Htv].
  destruct (get_nonnull e "title_text" He) as [ttv Httv].
  destruct (get_nonnull e "id" He) as [iv Hiv].
  rewrite (prop_get _ _ _ Hov) in Hout.
  rewrite (prop_get _ _ _ Htv), (prop_get _ _ _ Httv), (prop_get _ _ _ Hiv) in Htitle.
  rewrite (prop_get _ _ _ Hiv) in Hid.
  exists ov, tv, ttv, iv. repeat split; assumption.
Qed.

Lemma navgen_renderRow_total (h : Host) (options : Options) (cp : string) (e : Json) :
  e <> JNull -> Spec.plain e -> exists r, Navgen.renderRow h options cp e = Ok r.
Proof.
  intros He Hplain. unfold Navgen.renderRow.
  destruct (plain_nonnull_reads e He Hplain)
    as [ov [tv [ttv [iv [-> [-> [-> [-> [Hov [Htitle Hiv]]]]]]]]]].
  unfold_result.
  destruct (normalizePath_printable ov Hov) as [output ->].
  destruct (safeText_printable (Js.or (Js.or (Js.or tv ttv) iv) (Some (JStr output))))
    as [titleText ->]; [apply printableV_or; [exact Htitle | reflexivity]|].
  destruct (metaLine_total iv Hiv) as [meta ->].
  destruct (badges_total h options e He (proj2 (proj2 (proj2 Hplain)))) as [bs ->].
  eexists; reflexivity.
Qed.

Lemma leafTitle_total (e : Json) :
  e <> JNull -> Spec.titled e -> Js.printableV (Spec.prop (Some e) "output") = true ->
  exists t, NavgenTree.leafTitleFromEntry e = Ok t.
Proof.
  intros He Htitle Hout. unfold NavgenTree.leafTitleFromEntry.
  unfold Spec.titled, Spec.titleValue in Htitle.
  destruct (get_nonnull e "title" He) as [tv Htv].
  destruct (get_nonnull e "title_text" He) as [ttv Httv].
  destruct (get_nonnull e "id" He) as [iv Hiv].
  destruct (get_nonnull e "output" He) as [ov Hov].
  rewrite (prop_get _ _ _ Htv), (prop_get _ _ _ Httv), (prop_get _ _ _ Hiv) in Htitle.
  rewrite (prop_get _ _ _ Hov) in Hout.
  rewrite Htv, Httv, Hiv, Hov. unfold_result.
  destruct (safeText_printable (Js.or (Js.or (Js.or tv ttv) iv) (Some (JStr ""))))
    as [raw ->]; [apply printableV_or; [exact Htitle | reflexivity]|].
  destruct (last _); [eexists; reflexivity|].
  destruct (normalizePath_printable ov Hout) as [out ->]. eexists; reflexivity.
Qed.

Lemma tree_makeRow_total (h : Host) (env : Env) (options : Options) (cp : string) (e : Json) :
  e <> JNull -> Spec.plain e ->
  (exists u, NavgenTree.toAbsoluteFromSiteBase h env
               (Spec.textOf (NavCommon.normalizePath (Spec.prop (Some e) "output"))) = Ok u) ->
  exists r, NavgenTree.makeRow h env options cp e = Ok r.
Proof.
  intros He Hplain [u Hu]. unfold NavgenTree.makeRow.
  destruct (leafTitle_total e He (proj1 (proj2 Hplain)) (proj1 Hplain)) as [leaf Hleaf].
  destruct (plain_nonnull_reads e He Hplain)
    as [ov [tv [ttv [iv [Hov [-> [-> [-> [Hpov [Htitle Hiv]]]]]]]]]].
  rewrite (prop_get _ _ _ Hov) in Hu. rewrite Hov. unfold_result.
  destruct (normalizePath_printable ov Hpov) as [output Houtput].
  rewrite Houtput in Hu |- *. cbn [Spec.textOf] in Hu. rewrite Hu, Hleaf.
  destruct (safeText_printable
              (Js.or (Js.or (Js.or (Js.or (Some (JStr (NavgenTree.humanizeSegment leaf))) tv)
                               ttv) iv) (Some (JStr output))))
    as [shown ->].
  { rewrite !or_assoc. apply printableV_or; [reflexivity|].
    rewrite <- !or_assoc. apply printableV_or; [exact Htitle | reflexivity]. }
  destruct (metaLine_total iv Hiv) as [meta ->].
  destruct (badges_total h options e He (proj2 (proj2 (proj2 Hplain)))) as [bs ->].
  eexists; reflexivity.
Qed.

(** ** Values that cannot be converted *)

(** The row of an entry whose title is an object with a [toString] member of
    its own is not rendered: [String] throws, and the navigation shows the
    error instead of the list. *)
Example unconvertible_title_fails :
  let m := Examples.manifestOf 2 [("flame", JArr [Examples.opaqueTitle])] in
  Spec.hasNumericIndex Examples.opaqueTitle
  /\ ~ Spec.plain Examples.opaqueTitle
  /\ Navgen.buildNav RefHost.host (Examples.serve m) "flame" (Some []) noOpts
     = Some [NavCommon.errorNode Js.conversionError]
  /\ NavgenTree.buildNav RefHost.host (Examples.serve m) "flame" (Some []) noOpts
     = Some [NavCommon.errorNode Js.conversionError].
Proof.
  intros m. split; [eexists; reflexivity|].
  split; [intros [_ [Ht _]]; discriminate Ht|].
  split; reflexivity.
Qed.

(** The defensive sort throws when it compares such a title. *)
Example unconvertible_title_is_not_sorted :
  let items := [JObj [("title", Examples.opaque)]; JObj [("title", JStr "b")]] in
  Forall Spec.lacksNumericIndex items
  /\ NavCommon.sortBy (Navgen.compareEntries RefHost.host) items = Err Js.conversionError
  /\ NavCommon.sortBy (NavgenTree.compareEntries RefHost.host) items
     = Err Js.conversionError.
Proof.
  intros items. split; [|split; reflexivity].
  repeat constructor; (eexists; split; [reflexivity | discriminate]).
Qed.

(** An [output] that cannot be converted fails the list of [js/navgen.js],
    which an [output] that can be converted does not. *)
Example unconvertible_output_fails :
  Spec.sameButOutput Examples.plainOutput Examples.opaqueOutput
  /\ Spec.displayed
       (Navgen.buildNav RefHost.host
          (Examples.serve (Examples.manifestOf 2 [("flame", JArr [Examples.plainOutput])]))
          "flame" (Some []) noOpts)
     = [([], "01 THRESHOLD")]
  /\ Spec.displayed
       (Navgen.buildNav RefHost.host
          (Examples.serve (Examples.manifestOf 2 [("flame", JArr [Examples.opaqueOutput])]))
          "flame" (Some []) noOpts)
     = [].
Proof.
  split; [|split; vm_compute; reflexivity].
  eexists _, _. split; [reflexivity|]. split; [reflexivity|].
  intros k Hk. simpl.
  repeat (destruct (String.eqb k _) eqn:?; [reflexivity|]).
  destruct (String.eqb_spec k "output"); [contradiction | reflexivity].
Qed.

(** ** The defensive sort on entries with a numeric index *)

Lemma hasNumericIndex_nonnull (e : Json) : Spec.hasNumericIndex e -> e <> JNull.
Proof. intros [n Hn]. eapply get_Ok_nonnull; exact Hn. Qed.

Lemma navgen_compare_indexed (h : Host) (a b : Json) :
  Spec.hasNumericIndex a -> Spec.hasNumericIndex b ->
  Navgen.compareEntries h a b = Ok (Spec.indexKey a - Spec.indexKey b).
Proof.
  intros [x Hx] [y Hy]. unfold Navgen.compareEntries, Spec.indexKey.
  rewrite Hx, Hy. reflexivity.
Qed.

Lemma sort_indexed (h : Host) (items : list Json) :
  Forall Spec.hasNumericIndex items ->
  exists sorted,
    NavCommon.sortBy (Navgen.compareEntries h) items = Ok sorted
    /\ Permutation items sorted
    /\ StronglySorted Spec.indexNonDecreasing sorted
    /\ Forall Spec.hasNumericIndex sorted.
Proof.
  apply sortBy_sorted.
  - intros x y Hx Hy. exists (Spec.indexKey x - Spec.indexKey y).
    split; [apply navgen_compare_indexed; assumption|].
    unfold Spec.indexNonDecreasing. split; lia.
  - unfold Spec.indexNonDecreasing. intros; lia.
Qed.

Lemma sorted_strict_of_NoDup (items sorted : list Json) :
  Permutation items sorted ->
  StronglySorted Spec.indexNonDecreasing sorted ->
  NoDup (map Spec.indexKey items) ->
  StronglySorted Spec.indexAscending sorted.
Proof.
  intros Hperm Hsorted Hnd.
  apply (StronglySorted_strict Spec.indexKey); [exact Hsorted|].
  rewrite <- Hperm. exact Hnd.
Qed.

(** ** The order of the rows *)

Lemma navgen_buildNav_list (h : Host) (env : Env) (arc : string) (opts : Opts)
    (children : list Node) (m : Json) (items sorted : list Json) (rows : list Node) :
  let options := assignOptions NavCommon.DEFAULTS opts in
  Navgen.fetchManifest h env (manifestPath options) = Ok m ->
  Navgen.pickArcEntries m arc = Ok (Some items) ->
  items <> [] ->
  NavCommon.sortBy (Navgen.compareEntries h) items = Ok sorted ->
  traverse (Navgen.renderRow h options (NavCommon.getCurrentPathnameNormalized env)) sorted
    = Ok rows ->
  Navgen.buildNav h env arc (Some children) opts
    = Some [Elem "div" "chapter-list" None [] rows].
Proof.
  intros options Hfetch Hpick Hne Hsort Hrows.
  unfold Navgen.buildNav, Navgen.attempt. fold options.
  rewrite Hfetch. unfold_result. rewrite Hpick.
  destruct items as [|e items']; [congruence|].
  cbn [length Nat.eqb]. rewrite Hsort.
  unfold Navgen.renderList. unfold_result. rewrite Hrows. reflexivity.
Qed.

Lemma tree_buildNav_list (h : Host) (env : Env) (arc : string) (opts : Opts)
    (children : list Node) (m : Json) (items sorted : list Json) (rows : list Node) :
  let options := assignOptions NavCommon.DEFAULTS opts in
  NavgenTree.fetchManifest h env (manifestPath options) = Ok m ->
  NavgenTree.pickArcEntries m arc = Ok (Some items) ->
  items <> [] ->
  arc <> "lore" -> arc <> "characters" ->
  NavCommon.sortBy (NavgenTree.compareEntries h) items = Ok sorted ->
  traverse (NavgenTree.makeRow h env options (NavCommon.getCurrentPathnameNormalized env))
    sorted = Ok rows ->
  NavgenTree.buildNav h env arc (Some children) opts
    = Some [Elem "div" "chapter-list" None [] rows].
Proof.
  intros options Hfetch Hpick Hne Hlore Hchar Hsort Hrows.
  unfold NavgenTree.buildNav, NavgenTree.attempt. fold options.
  rewrite Hfetch. unfold_result. rewrite Hpick.
  destruct items as [|e items']; [congruence|].
  cbn [length Nat.eqb]. rewrite Hsort.
  apply String.eqb_neq in Hlore, Hchar. rewrite Hlore, Hchar. cbn [orb].
  unfold NavgenTree.renderList. unfold_result. rewrite Hrows. reflexivity.
Qed.

(** C2, as amended (rows in index order).  For a non-empty array of entries
    that all have a numeric [index] and are plain (their [output], title
    value, [id] and [images_missing] count hold no object with a [toString]
    member of its own, which [String] and [Number] cannot convert),
    [buildNav] renders one row per entry in non-decreasing order of [index],
    whatever the order in the manifest, and in strictly ascending order when
    the indices are pairwise distinct.  This holds in [js/navgen.js] for
    every arc, and in the tree variant for the arcs rendered as a flat list
    (all but [lore] and [characters]) when the link of every entry
    resolves. *)
Theorem C2_rows_by_index (h : Host) (env : Env) (arc : string) (opts : Opts)
    (children : list Node) (m : Json) (items : list Json) :
  let options := assignOptions NavCommon.DEFAULTS opts in
  let cp := NavCommon.getCurrentPathnameNormalized env in
  items <> [] ->
  Forall Spec.hasNumericIndex items ->
  Forall Spec.plain items ->
  (Navgen.fetchManifest h env (manifestPath options) = Ok m ->
   Navgen.pickArcEntries m arc = Ok (Some items) ->
   Spec.rendersInOrder Spec.indexNonDecreasing (Navgen.renderRow h options cp) items
     (Navgen.buildNav h env arc (Some children) opts)
   /\ (NoDup (map Spec.indexKey items) ->
       Spec.rendersInOrder Spec.indexAscending (Navgen.renderRow h options cp) items
         (Navgen.buildNav h env arc (Some children) opts)))
  /\ (NavgenTree.fetchManifest h env (manifestPath options) = Ok m ->
      NavgenTree.pickArcEntries m arc = Ok (Some items) ->
      arc <> "lore" -> arc <> "characters" ->
      Forall (fun e => exists u,
                NavgenTree.toAbsoluteFromSiteBase h env
                  (Spec.textOf (NavCommon.normalizePath (Spec.prop (Some e) "output")))
                = Ok u) items ->
      Spec.rendersInOrder Spec.indexNonDecreasing (NavgenTree.makeRow h env options cp) items
        (NavgenTree.buildNav h env arc (Some children) opts)
      /\ (NoDup (map Spec.indexKey items) ->
          Spec.rendersInOrder Spec.indexAscending (NavgenTree.makeRow h env options cp) items
            (NavgenTree.buildNav h env arc (Some children) opts))).
Proof.
  intros options cp Hne Hidx Hplain.
  destruct (sort_indexed h items Hidx) as [sorted [Hsort [Hperm [Hsorted Hidx']]]].
  assert (Hplain' : Forall Spec.plain sorted) by (rewrite <- Hperm; exact Hplain).
  split.
  - intros Hfetch Hpick.
    destruct (traverse_total (Navgen.renderRow h options cp) sorted) as [rows [Hrows Hrel]].
    { rewrite Forall_forall in Hidx', Hplain' |- *. intros e He.
      apply navgen_renderRow_total; [apply hasNumericIndex_nonnull, Hidx', He|].
      apply Hplain', He. }
    pose proof (navgen_buildNav_list h env arc opts children m items sorted rows
                  Hfetch Hpick Hne Hsort Hrows) as Hbuild.
    split; [|intros Hnd]; exists sorted, rows; repeat split; auto.
    eapply sorted_strict_of_NoDup; eassumption.
  - intros Hfetch Hpick Hlore Hchar Hlinks.
    destruct (traverse_total (NavgenTree.makeRow h env options cp) sorted)
      as [rows [Hrows Hrel]].
    { rewrite Forall_forall in Hidx', Hlinks, Hplain' |- *. intros e He.
      apply tree_makeRow_total.
      - apply hasNumericIndex_nonnull, Hidx', He.
      - apply Hplain', He.
      - apply Hlinks. rewrite Hperm. exact He. }
    pose proof (tree_buildNav_list h env arc opts children m items sorted rows
                  Hfetch Hpick Hne Hlore Hchar Hsort Hrows) as Hbuild.
    split; [|intros Hnd]; exists sorted, rows; repeat split; auto.
    eapply sorted_strict_of_NoDup; eassumption.
Qed.

Lemma C2_rows_by_index_witness :
  Spec.rendersInOrder Spec.indexAscending
    (Navgen.renderRow RefHost.host NavCommon.DEFAULTS "/STORYHUB/flame.html")
    [Examples.f02; Examples.f01]
    (Navgen.buildNav RefHost.host (Examples.serve Examples.chapters) "flame" (Some []) noOpts)
  /\ Spec.rendersInOrder Spec.indexAscending
       (NavgenTree.makeRow RefHost.host (Examples.serve Examples.chapters) NavCommon.DEFAULTS
          "/STORYHUB/flame.html")
       [Examples.f02; Examples.f01]
       (NavgenTree.buildNav RefHost.host (Examples.serve Examples.chapters) "flame" (Some [])
          noOpts).
Proof.
  assert (Hidx : Forall Spec.hasNumericIndex [Examples.f02; Examples.f01]).
  { repeat constructor; eexists; reflexivity. }
  assert (Hnd : NoDup (map Spec.indexKey [Examples.f02; Examples.f01])).
  { compute_done. }
  assert (Hplain : Forall Spec.plain [Examples.f02; Examples.f01]).
  { repeat constructor. }
  destruct (C2_rows_by_index RefHost.host (Examples.serve Examples.chapters) "flame" noOpts []
              Examples.chapters [Examples.f02; Examples.f01] ltac:(discriminate) Hidx Hplain)
    as [Hflat Htree].
  split.
  - exact (proj2 (Hflat eq_refl eq_refl) Hnd).
  - refine (proj2 (Htree eq_refl eq_refl ltac:(discriminate) ltac:(discriminate) _) Hnd).
    repeat constructor; eexists; vm_compute; reflexivity.
Defined.

(** In the tree variant the rows of [lore] and [characters] follow the folders
    and the titles, not the index. *)
Example tree_lore_rows_ignore_index :
  Forall Spec.hasNumericIndex [Examples.loreB; Examples.loreA]
  /\ Spec.displayed
       (NavgenTree.buildNav RefHost.host (Examples.serve Examples.indexedLore) "lore"
          (Some []) noOpts)
     = [(["World"], "Atlas"); (["World"], "Bestiary")].
Proof. split; [repeat constructor; eexists; reflexivity | vm_compute; reflexivity]. Qed.

(** C2, as the specification states it, fails: two entries with the same
    index are both rendered, and no arrangement of their rows is strictly
    ascending. *)
Lemma C2_counterexample :
  Forall Spec.hasNumericIndex [Examples.f01; Examples.f01bis]
  /\ Navgen.pickArcEntries Examples.twins "flame" = Ok (Some [Examples.f01; Examples.f01bis])
  /\ ~ Spec.rendersInOrder Spec.indexAscending
         (Navgen.renderRow RefHost.host NavCommon.DEFAULTS "/STORYHUB/flame.html")
         [Examples.f01; Examples.f01bis]
         (Navgen.buildNav RefHost.host (Examples.serve Examples.twins) "flame" (Some [])
            noOpts).
Proof.
  split; [repeat constructor; eexists; reflexivity|]. split; [reflexivity|].
  intros [sorted [rows [Hperm [Hsorted _]]]].
  apply Permutation_length_2_inv in Hperm as [-> | ->];
    apply StronglySorted_inv in Hsorted as [_ Hall];
    apply Forall_cons in Hall as [Hlt _];
    vm_compute in Hlt; discriminate.
Qed.

(** ** The reference host has a consistent collation *)

Lemma compareCodeUnits_refl (a : string) : Str.compareCodeUnits a a = 0.
Proof.
  induction a as [|c a IH]; simpl; [reflexivity|].
  rewrite N.ltb_irrefl. exact IH.
Qed.

Lemma compareCodeUnits_antisym (a b : string) :
  Str.compareCodeUnits a b <= 0 \/ Str.compareCodeUnits b a <= 0.
Proof.
  revert b. induction a as [|c a IH]; intros [|d b]; simpl; try lia.
  destruct (N.ltb_spec (Str.code c) (Str.code d)), (N.ltb_spec (Str.code d) (Str.code c));
    try lia.
  apply IH.
Qed.

Lemma compareCodeUnits_trans (a b c : string) :
  Str.compareCodeUnits a b <= 0 -> Str.compareCodeUnits b c <= 0 ->
  Str.compareCodeUnits a c <= 0.
Proof.
  revert b c. induction a as [|x a IH]; intros [|y b] [|z c]; simpl; try lia.
  destruct (N.ltb_spec (Str.code x) (Str.code y)), (N.ltb_spec (Str.code y) (Str.code x)),
           (N.ltb_spec (Str.code y) (Str.code z)), (N.ltb_spec (Str.code z) (Str.code y)),
           (N.ltb_spec (Str.code x) (Str.code z)), (N.ltb_spec (Str.code z) (Str.code x));
    try lia.
  apply IH.
Qed.

Lemma refhost_consistent : ConsistentCollation RefHost.host.
Proof.
  split; simpl.
  - apply compareCodeUnits_refl.
  - apply compareCodeUnits_antisym.
  - apply compareCodeUnits_trans.
Qed.

(** ** The defensive sort on entries without a numeric index *)

Lemma lacksNumericIndex_nonnull (e : Json) : Spec.lacksNumericIndex e -> e <> JNull.
Proof. intros [v [Hv _]]. eapply get_Ok_nonnull; exact Hv. Qed.

Lemma navgen_titleKey_spec (e : Json) :
  e <> JNull -> Spec.titled e -> Navgen.titleKey e = Ok (Spec.sortTitle e).
Proof.
  intros He Ht.
  assert (Hp : Js.printableV (Js.or (Spec.titleValue e) (Some (JStr ""))) = true).
  { apply printableV_or; [exact Ht | reflexivity]. }
  apply toString_textOf in Hp. revert Hp.
  unfold Navgen.titleKey, Spec.sortTitle, Spec.titleValue, Spec.prop.
  destruct (get_nonnull e "title" He) as [tv ->].
  destruct (get_nonnull e "title_text" He) as [ttv ->].
  destruct (get_nonnull e "id" He) as [iv ->].
  intros Hp. unfold_result. rewrite Hp. reflexivity.
Qed.

Lemma navgen_compare_untitled (h : Host) (a b : Json) :
  Spec.lacksNumericIndex a -> Spec.lacksNumericIndex b ->
  Spec.titled a -> Spec.titled b ->
  Navgen.compareEntries h a b
  = Ok (localeCompare h (Spec.sortTitle a) (Spec.sortTitle b)).
Proof.
  intros Ha Hb Hta Htb.
  pose proof (navgen_titleKey_spec a (lacksNumericIndex_nonnull a Ha) Hta) as Hka.
  pose proof (navgen_titleKey_spec b (lacksNumericIndex_nonnull b Hb) Htb) as Hkb.
  destruct Ha as [va [Hva Hna]], Hb as [vb [Hvb Hnb]].
  unfold Navgen.compareEntries. rewrite Hva, Hvb, Hka, Hkb. unfold_result.
  destruct va as [[| | n | | |]|]; try reflexivity.
  exfalso. apply (Hna n). reflexivity.
Qed.

(** C5, as amended (order of the reference arcs).  When [localeCompare] is a
    consistent comparator, the defensive sort of either variant arranges
    entries without a numeric [index], whose title value (the first truthy
    one of [title], [title_text] and [id]) [String] can convert, by the
    lower-cased text of that value; [category] is not read. *)
Theorem C5_reference_order_by_title (h : Host) (items : list Json) :
  ConsistentCollation h ->
  Forall Spec.lacksNumericIndex items ->
  Forall Spec.titled items ->
  exists sorted,
    NavCommon.sortBy (Navgen.compareEntries h) items = Ok sorted
    /\ NavCommon.sortBy (NavgenTree.compareEntries h) items = Ok sorted
    /\ Permutation items sorted
    /\ StronglySorted (Spec.bySortTitle h) sorted.
Proof.
  intros Hh Hitems Htitled.
  destruct (sortBy_sorted (Navgen.compareEntries h)
              (fun e => Spec.lacksNumericIndex e /\ Spec.titled e)
              (Spec.bySortTitle h)) with (l := items)
    as [sorted [Hsort [Hperm [Hsorted _]]]].
  - intros x y [Hx Htx] [Hy Hty]. eexists.
    split; [apply navgen_compare_untitled; assumption|].
    unfold Spec.bySortTitle. split; [auto|]. intros Hpos.
    destruct (collation_total h Hh (Spec.sortTitle x) (Spec.sortTitle y)); [lia|assumption].
  - unfold Spec.bySortTitle. intros x y z _ _ _. apply (collation_trans h Hh).
  - rewrite Forall_forall in Hitems, Htitled |- *. intros e He.
    split; [apply Hitems | apply Htitled]; exact He.
  - exists sorted. repeat split; assumption.
Qed.

Lemma C5_reference_order_by_title_witness :
  exists sorted,
    NavCommon.sortBy (Navgen.compareEntries RefHost.host) [Examples.zed; Examples.lucy]
      = Ok sorted
    /\ NavCommon.sortBy (NavgenTree.compareEntries RefHost.host) [Examples.zed; Examples.lucy]
       = Ok sorted
    /\ Permutation [Examples.zed; Examples.lucy] sorted
    /\ StronglySorted (Spec.bySortTitle RefHost.host) sorted.
Proof.
  apply (C5_reference_order_by_title RefHost.host [Examples.zed; Examples.lucy]
           refhost_consistent).
  - repeat constructor; (eexists; split; [reflexivity | discriminate]).
  - repeat constructor.
Defined.

(** C5, as the specification states it, fails: of two character entries the
    one in category "fiends" is placed before the one in category "allies",
    its title being the smaller. *)
Lemma C5_counterexample :
  Forall Spec.lacksNumericIndex [Examples.zed; Examples.lucy]
  /\ NavCommon.sortBy (Navgen.compareEntries RefHost.host) [Examples.zed; Examples.lucy]
     = Ok [Examples.lucy; Examples.zed]
  /\ NavCommon.sortBy (NavgenTree.compareEntries RefHost.host) [Examples.zed; Examples.lucy]
     = Ok [Examples.lucy; Examples.zed]
  /\ ~ StronglySorted (Spec.categoryThenTitle RefHost.host) [Examples.lucy; Examples.zed].
Proof.
  split; [repeat constructor; (eexists; split; [reflexivity | discriminate])|].
  split; [reflexivity|]. split; [reflexivity|].
  intros Hsorted. apply StronglySorted_inv in Hsorted as [_ Hall].
  apply Forall_cons in Hall as [Hlt _].
  vm_compute in Hlt. destruct Hlt as [Hlt | [Heq _]]; discriminate.
Qed.

(** ** What depends on [output] in the flat list *)

Lemma sameButOutput_get (a b : Json) (k : string) :
  Spec.sameButOutput a b -> k <> "output" -> Js.get a k = Js.get b k.
Proof.
  intros [fa [fb [-> [-> H]]]] Hk. simpl. rewrite (H k Hk). reflexivity.
Qed.

Lemma sameButOutput_prop (a b : Json) (k : string) :
  Spec.sameButOutput a b -> k <> "output" -> Spec.prop (Some a) k = Spec.prop (Some b) k.
Proof.
  intros H Hk. unfold Spec.prop. rewrite (sameButOutput_get a b k H Hk). reflexivity.
Qed.

Lemma sameButOutput_compare (h : Host) (x y x' y' : Json) :
  Spec.sameButOutput x x' -> Spec.sameButOutput y y' ->
  Navgen.compareEntries h x y = Navgen.compareEntries h x' y'.
Proof.
  intros Hx Hy. unfold Navgen.compareEntries, Navgen.titleKey.
  rewrite (sameButOutput_get x x' "index" Hx), (sameButOutput_get y y' "index" Hy),
    (sameButOutput_get x x' "title" Hx), (sameButOutput_get y y' "title" Hy),
    (sameButOutput_get x x' "title_text" Hx), (sameButOutput_get y y' "title_text" Hy),
    (sameButOutput_get x x' "id" Hx), (sameButOutput_get y y' "id" Hy) by discriminate.
  reflexivity.
Qed.

Lemma displayedUnder_list (path : list string) (tag cls : string) (attrs : list (string * string))
    (rows : list Node) :
  String.eqb cls "nav-group" = false -> String.eqb cls "chapter-title" = false ->
  Spec.displayedUnder path (Elem tag cls None attrs rows)
  = concat (map (Spec.displayedUnder path) rows).
Proof.
  intros H1 H2. simpl. rewrite H1, H2. simpl.
  induction rows as [|r rows IH]; simpl; [reflexivity|]. rewrite IH. reflexivity.
Qed.

Lemma sameButOutput_titleValue (a b : Json) :
  Spec.sameButOutput a b -> Spec.titleValue a = Spec.titleValue b.
Proof.
  intros H. unfold Spec.titleValue.
  rewrite (sameButOutput_prop a b "title"), (sameButOutput_prop a b "title_text"),
    (sameButOutput_prop a b "id") by (assumption || discriminate).
  reflexivity.
Qed.

(** The line under the title is absent, or one element. *)
Lemma metaLine_shape (iv : JsVal) (meta : list Node) :
  NavCommon.metaLine iv = Ok meta ->
  meta = [] \/ exists t, meta = [Elem "div" "chapter-meta" (Some t) [] []].
Proof.
  unfold NavCommon.metaLine. destruct (Js.truthy iv).
  - intros H. apply bind_Ok_inv in H as [t [_ H]]. unfold_result. injection H as <-.
    right. eexists. reflexivity.
  - unfold_result. intros H. injection H as <-. left. reflexivity.
Qed.

(** The badges are at most one of each kind. *)
Lemma badges_shape (h : Host) (options : Options) (e : Json) (bs : list Node) :
  NavCommon.badges h options e = Ok bs ->
  exists used missing,
    bs = used ++ missing
    /\ (used = [] \/ exists t, used = [Dom.makeBadge t "badge badge-img"])
    /\ (missing = [] \/ exists t, missing = [Dom.makeBadge t "badge badge-missing"]).
Proof.
  unfold NavCommon.badges. intros H.
  apply bind_Ok_inv in H as [cv [_ H]].
  apply bind_Ok_inv in H as [mv [_ H]].
  apply bind_Ok_inv in H as [n [_ H]].
  apply bind_Ok_inv in H as [uv [_ H]].
  apply bind_Ok_inv in H as [used [Hused H]].
  unfold_result. injection H as <-.
  eexists _, _. split; [reflexivity|]. split.
  - destruct (showCounts options && Js.truthy cv && Js.typeof_is uv Js.TNumber).
    + apply bind_Ok_inv in Hused as [t [_ Hused]]. unfold_result. injection Hused as <-.
      right. eexists. reflexivity.
    + unfold_result. injection Hused as <-. left. reflexivity.
  - destruct n as [n|]; [|left; reflexivity].
    destruct (showMissingBadge options && (0 <? n)); [right; eexists|left]; reflexivity.
Qed.

(** The title a row of the flat list shows. *)
Lemma navgen_row_displayed (h : Host) (options : Options) (cp : string) (e : Json) (r : Node)
    (path : list string) :
  Navgen.renderRow h options cp e = Ok r ->
  Spec.displayedUnder path r
  = [(path,
      Spec.textOf
        (NavCommon.safeText
           (Js.or (Spec.titleValue e)
              (Some (JStr (Spec.textOf
                             (NavCommon.normalizePath (Spec.prop (Some e) "output"))))))))].
Proof.
  unfold Navgen.renderRow. intros H.
  apply bind_Ok_inv in H as [ov [Hov H]].
  apply bind_Ok_inv in H as [output [Hout H]].
  apply bind_Ok_inv in H as [tv [Htv H]].
  apply bind_Ok_inv in H as [ttv [Httv H]].
  apply bind_Ok_inv in H as [iv [Hiv H]].
  apply bind_Ok_inv in H as [titleText [Htitle H]].
  apply bind_Ok_inv in H as [meta [Hmeta H]].
  apply bind_Ok_inv in H as [right [Hright H]].
  unfold Spec.titleValue, Spec.prop. rewrite Hov, Htv, Httv, Hiv, Hout.
  cbn [Spec.textOf]. rewrite Htitle. cbn [Spec.textOf].
  unfold_result. injection H as <-.
  apply metaLine_shape in Hmeta.
  apply badges_shape in Hright as [used [missing [-> [Hused Hmissing]]]].
  unfold NavCommon.assembleRow, NavCommon.rowAnchor.
  destruct (Str.nonempty _ && Str.endsWith _ _), Hmeta as [-> | [t ->]],
    Hused as [-> | [u ->]], Hmissing as [-> | [w ->]]; reflexivity.
Qed.

Lemma hasTitle_row_title (e : Json) (href : string) :
  Spec.hasTitle e -> Js.or (Spec.titleValue e) (Some (JStr href)) = Spec.titleValue e.
Proof. unfold Spec.hasTitle, Spec.titleValue. intros H. unfold Js.or at 1. rewrite H. reflexivity. Qed.

Lemma navgen_rows_displayed (h : Host) (options : Options) (cp cp' : string)
    (s s' : list Json) (rows rows' : list Node) :
  Forall2 (fun a b => Spec.sameButOutput a b /\ Spec.hasTitle a) s s' ->
  traverse (Navgen.renderRow h options cp) s = Ok rows ->
  traverse (Navgen.renderRow h options cp') s' = Ok rows' ->
  concat (map (Spec.displayedUnder []) rows) = concat (map (Spec.displayedUnder []) rows').
Proof.
  intros HR. revert rows rows'.
  induction HR as [|a b s s' [Hab Ha] _ IH]; simpl; intros rows rows' H H'.
  - injection H as <-. injection H' as <-. reflexivity.
  - apply bind_Ok_inv in H as [r [Hr H]]. apply bind_Ok_inv in H as [rs [Hrs H]].
    apply bind_Ok_inv in H' as [r' [Hr' H']]. apply bind_Ok_inv in H' as [rs' [Hrs' H']].
    unfold_result. injection H as <-. injection H' as <-. simpl.
    rewrite (IH rs rs' Hrs Hrs').
    rewrite (navgen_row_displayed _ _ _ _ _ [] Hr), (navgen_row_displayed _ _ _ _ _ [] Hr').
    assert (Hb : Spec.hasTitle b).
    { unfold Spec.hasTitle in *.
      rewrite <- (sameButOutput_prop a b "title"), <- (sameButOutput_prop a b "title_text"),
        <- (sameButOutput_prop a b "id") by (assumption || discriminate). exact Ha. }
    rewrite (hasTitle_row_title a _ Ha), (hasTitle_row_title b _ Hb).
    rewrite (sameButOutput_titleValue a b Hab). reflexivity.
Qed.

Lemma tree_leafTitle_of_pathLeaf (e : Json) (leaf : string) :
  e <> JNull -> Spec.pathLeaf e = Some leaf -> NavgenTree.leafTitleFromEntry e = Ok leaf.
Proof.
  intros He. unfold Spec.pathLeaf, NavgenTree.leafTitleFromEntry, Spec.prop.
  destruct (get_nonnull e "title" He) as [tv ->].
  destruct (get_nonnull e "title_text" He) as [ttv ->].
  destruct (get_nonnull e "id" He) as [iv ->].
  unfold_result.
  destruct (NavCommon.safeText _) as [raw|err]; cbn [Spec.textOf]; [|discriminate].
  intros H.
  destruct (Str.includes _ " / "); [|discriminate].
  rewrite H. reflexivity.
Qed.

Lemma sameButOutput_pathLeaf (a b : Json) :
  Spec.sameButOutput a b -> Spec.pathLeaf a = Spec.pathLeaf b.
Proof.
  intros H. unfold Spec.pathLeaf.
  rewrite (sameButOutput_prop a b "title"), (sameButOutput_prop a b "title_text"),
    (sameButOutput_prop a b "id") by (assumption || discriminate).
  reflexivity.
Qed.

Lemma sameButOutput_nonnull (a b : Json) : Spec.sameButOutput a b -> a <> JNull /\ b <> JNull.
Proof. intros [fa [fb [-> [-> _]]]]. split; discriminate. Qed.

(** ** The lightbox *)

Lemma wrap_spec (i n : Z) :
  0 < n -> Lightbox.rem (Lightbox.rem i n + n) n = i mod n.
Proof.
  intros Hn. unfold Lightbox.rem.
  pose proof (Z.quot_rem' i n) as Hq.
  pose proof (Z.rem_bound_abs i n ltac:(lia)) as Habs.
  rewrite Z.rem_mod_nonneg by lia.
  transitivity ((Z.rem i n + n + (i ÷ n - 1) * n) mod n).
  - rewrite Z_mod_plus_full. reflexivity.
  - f_equal. lia.
Qed.

Lemma wrap_in_range (i n : Z) :
  0 < n -> 0 <= Lightbox.rem (Lightbox.rem i n + n) n < n.
Proof. intros Hn. rewrite wrap_spec by exact Hn. apply Z.mod_pos_bound. exact Hn. Qed.

Lemma openAt_index (gallery : list Lightbox.Item) (b : bool) (i : Z) (st : Lightbox.State) :
  gallery <> [] ->
  let n := Z.of_nat (length gallery) in
  Lightbox.index (Lightbox.openAt gallery b i st) = Lightbox.rem (Lightbox.rem i n + n) n
  /\ Lightbox.items (Lightbox.openAt gallery b i st) = gallery
  /\ Lightbox.lb_hidden (Lightbox.openAt gallery b i st) = false.
Proof.
  intros Hne n. unfold Lightbox.openAt. cbn [Lightbox.refreshItems Lightbox.items].
  fold n.
  assert (Hn : 0 < n) by (destruct gallery; [congruence | unfold n; simpl; lia]).
  destruct (Z.eqb_spec n 0) as [|_]; [lia|].
  pose proof (wrap_in_range i n Hn) as Hrange.
  destruct (gallery !! Z.to_nat (Lightbox.rem (Lightbox.rem i n + n) n)) as [a|] eqn:Ha.
  - repeat split.
  - exfalso. apply lookup_ge_None in Ha. unfold n in *. lia.
Qed.

(** The item list is a cache: [openAt] reads it only after refreshing it. *)
Lemma openAt_ignores_cached_items (gallery stale : list Lightbox.Item) (b : bool) (i : Z)
    (st : Lightbox.State) :
  Lightbox.openAt gallery b i (Lightbox.refreshItems stale st) = Lightbox.openAt gallery b i st.
Proof. reflexivity. Qed.

(** C10 (the lightbox index wraps).  For a gallery of [n > 0] items and every
    integer [i], [openAt(i)] sets the index to [((i % n) + n) % n], which is
    [i] modulo [n] and lies in [0, n), and shows the overlay; so [next()] on
    the last item moves to item 0 and [prev()] on item 0 moves to the last
    one.  For an empty gallery [openAt] returns at once: the index and what
    the overlay shows stay as they were, the item list being the empty list
    read from the page. *)
Theorem C10_lightbox_index_wraps (gallery : list Lightbox.Item) (b : bool) (i : Z)
    (st : Lightbox.State) :
  let n := Z.of_nat (length gallery) in
  (gallery <> [] ->
     Lightbox.index (Lightbox.openAt gallery b i st) = Lightbox.rem (Lightbox.rem i n + n) n
     /\ Lightbox.index (Lightbox.openAt gallery b i st) = i mod n
     /\ 0 <= Lightbox.index (Lightbox.openAt gallery b i st) < n
     /\ (Lightbox.index st = n - 1 -> Lightbox.index (Lightbox.next gallery b st) = 0)
     /\ (Lightbox.index st = 0 -> Lightbox.index (Lightbox.prev gallery b st) = n - 1))
  /\ Lightbox.openAt [] b i st = Lightbox.refreshItems [] st
  /\ (Lightbox.items st = [] -> Lightbox.openAt [] b i st = st).
Proof.
  intros n. split; [intros Hne | split].
  - assert (Hn : 0 < n) by (destruct gallery; [congruence | unfold n; simpl; lia]).
    destruct (openAt_index gallery b i st Hne) as [Hidx _]. fold n in Hidx.
    split; [exact Hidx|]. split; [rewrite Hidx; apply wrap_spec; exact Hn|].
    split; [rewrite Hidx; apply wrap_in_range; exact Hn|].
    split; intros Hst.
    + unfold Lightbox.next. destruct (Z.ltb_spec (Lightbox.index st) 0) as [|_]; [lia|].
      destruct (openAt_index gallery b (Lightbox.index st + 1) st Hne) as [-> _]. fold n.
      rewrite wrap_spec by exact Hn. rewrite Hst.
      replace (n - 1 + 1) with n by lia. apply Z.mod_same. lia.
    + unfold Lightbox.prev. destruct (Z.ltb_spec (Lightbox.index st) 0) as [|_]; [lia|].
      destruct (openAt_index gallery b (Lightbox.index st - 1) st Hne) as [-> _]. fold n.
      rewrite wrap_spec by exact Hn. rewrite Hst.
      replace (0 - 1) with (n - 1 + (-1) * n) by lia.
      rewrite Z_mod_plus_full. apply Z.mod_small. lia.
  - reflexivity.
  - intros Hitems. destruct st as [its idx hid src alt ns cf]. simpl in Hitems. subst its.
    reflexivity.
Qed.

Lemma C10_lightbox_index_wraps_witness :
  let gallery := [Lightbox.mkItem (Some "media/a.webp") (Some (Some "A"));
                  Lightbox.mkItem (Some "media/b.webp") None;
                  Lightbox.mkItem None (Some None)] in
  let st := Lightbox.openAt gallery true 2 (Lightbox.initial true) in
  Lightbox.index (Lightbox.openAt gallery true (-4) (Lightbox.initial true)) = 2
  /\ Lightbox.index (Lightbox.next gallery true st) = 0
  /\ Lightbox.index (Lightbox.prev gallery true (Lightbox.next gallery true st)) = 2.
Proof.
  intros gallery st.
  destruct (C10_lightbox_index_wraps gallery true (-4) (Lightbox.initial true)) as [H _].
  destruct (H ltac:(discriminate)) as [_ [Hmod _]].
  destruct (C10_lightbox_index_wraps gallery true 0 st) as [Hst _].
  destruct (Hst ltac:(discriminate)) as [_ [_ [_ [Hnext _]]]].
  destruct (C10_lightbox_index_wraps gallery true 0 (Lightbox.next gallery true st))
    as [Hst' _].
  destruct (Hst' ltac:(discriminate)) as [_ [_ [_ [_ Hprev]]]].
  split; [exact Hmod|]. split; [exact (Hnext eq_refl) | exact (Hprev (Hnext eq_refl))].
Defined.

(** ** The manifest is only read *)

Section StoreFrame.
Local Open Scope nat_scope.
Import Store.

Lemma preserves_refl (base : nat) (h : Heap) : preserves base h h.
Proof. intros a _. reflexivity. Qed.

Lemma preserves_trans (base : nat) (h1 h2 h3 : Heap) :
  preserves base h1 h2 -> preserves base h2 h3 -> preserves base h1 h3.
Proof. intros H12 H23 a Ha. rewrite (H23 a Ha). apply H12, Ha. Qed.

Lemma preserves_app (base : nat) (h ext : Heap) :
  base <= length h -> preserves base h (h ++ ext).
Proof. intros Hb a Ha. apply lookup_app_l. lia. Qed.

Lemma preserves_insert (base a : nat) (c : Cell) (h : Heap) :
  base <= a -> preserves base h (<[a := c]> h).
Proof. intros Hb x Hx. apply list_lookup_insert_ne. lia. Qed.

Lemma preserves_unchanged (h h' : Heap) : preserves (length h) h h' -> unchanged h h'.
Proof.
  intros H a cell Ha. rewrite (H a); [exact Ha|]. eapply lookup_lt_Some, Ha.
Qed.

Lemma sortInPlace_frame (cmp : Val -> Val -> Result Z) (base a : nat) (h : Heap) :
  base <= a ->
  preserves base h (fst (sortInPlace cmp h a))
  /\ length (fst (sortInPlace cmp h a)) = length h.
Proof.
  intros Hb. unfold sortInPlace. destruct (NavCommon.sortBy cmp (itemsAt h a)); simpl.
  - split; [apply preserves_insert, Hb | apply length_insert].
  - split; [apply preserves_refl | reflexivity].
Qed.

Lemma assoc_In {A : Type} (k : string) (fields : list (string * A)) (v : A) :
  assoc k fields = Some v -> exists k', (k', v) ∈ fields.
Proof.
  induction fields as [|[k' v'] rest IH]; simpl; [discriminate|].
  destruct (String.eqb k k').
  - intros [= <-]. exists k'. left.
  - intros H. destruct (IH H) as [k'' Hin]. exists k''. right. exact Hin.
Qed.

Lemma walkStep_frame (base : nat) (h : Heap) (node : nat) (folder : string) :
  base <= node -> owned base h ->
  preserves base h (fst (walkStep h node folder))
  /\ owned base (fst (walkStep h node folder))
  /\ base <= snd (walkStep h node folder).
Proof.
  intros Hb Hown. unfold walkStep.
  destruct (h !! node) as [[items|fields|folders pages]|] eqn:Hnode; simpl;
    try (split; [apply preserves_refl | split; assumption]).
  destruct (assoc folder folders) as [child|] eqn:Hchild; simpl.
  - split; [apply preserves_refl|]. split; [assumption|].
    destruct (assoc_In _ _ _ Hchild) as [k' Hin].
    pose proof (Hown node folders pages Hb Hnode) as Hall.
    rewrite Forall_forall in Hall. apply (Hall _ Hin).
  - pose proof (lookup_lt_Some _ _ _ Hnode) as Hlt.
    split; [|split; [|lia]].
    + eapply preserves_trans; [apply preserves_app; lia | apply preserves_insert, Hb].
    + intros a fs ps Ha Hcell.
      destruct (decide (a = node)) as [->|Hne].
      * rewrite list_lookup_insert_eq in Hcell by (rewrite length_app; simpl; lia).
        injection Hcell as <- <-.
        apply Forall_app. split.
        -- apply (Hown node folders pages Hb Hnode).
        -- constructor; [simpl; lia | constructor].
      * rewrite list_lookup_insert_ne in Hcell by congruence.
        destruct (decide (a < length h)) as [Hin|Hout].
        -- rewrite lookup_app_l in Hcell by exact Hin. apply (Hown a fs ps Ha Hcell).
        -- rewrite lookup_app_r in Hcell by lia.
           destruct (a - length h) as [|k]; simpl in Hcell; [|discriminate].
           injection Hcell as <- <-. constructor.
Qed.

Lemma walk_frame (base : nat) (parts : list string) (h : Heap) (node : nat) :
  base <= node -> owned base h ->
  preserves base h (fst (walk h node parts))
  /\ owned base (fst (walk h node parts))
  /\ base <= snd (walk h node parts).
Proof.
  revert h node. induction parts as [|folder rest IH]; intros h node Hb Hown; simpl.
  - split; [apply preserves_refl | split; assumption].
  - destruct (walkStep_frame base h node folder Hb Hown) as [Hp [Hown' Hb']].
    destruct (walkStep h node folder) as [h' node']. simpl in *.
    destruct (IH h' node' Hb' Hown') as [Hp' [Hown'' Hb'']].
    split; [eapply preserves_trans; eassumption | split; assumption].
Qed.

Lemma push_frame (base : nat) (h : Heap) (node : nat) (entry : Val) :
  base <= node -> owned base h ->
  preserves base h (push h node entry) /\ owned base (push h node entry).
Proof.
  intros Hb Hown. unfold push.
  destruct (h !! node) as [[items|fields|folders pages]|] eqn:Hnode;
    try (split; [apply preserves_refl | assumption]).
  split; [apply preserves_insert, Hb|].
  intros a fs ps Ha Hcell.
  destruct (decide (a = node)) as [->|Hne].
  - rewrite list_lookup_insert_eq in Hcell by (eapply lookup_lt_Some, Hnode).
    injection Hcell as <- <-. apply (Hown node folders pages Hb Hnode).
  - rewrite list_lookup_insert_ne in Hcell by congruence. apply (Hown a fs ps Ha Hcell).
Qed.

Lemma addEntry_frame (base : nat) (arc : string) (h : Heap) (root : nat) (entry : Val) :
  base <= root -> owned base h ->
  preserves base h (fst (addEntry arc h root entry))
  /\ owned base (fst (addEntry arc h root entry)).
Proof.
  intros Hb Hown. unfold addEntry.
  match goal with |- context [match ?X with Ok _ => _ | Err _ => _ end] =>
    destruct X as [path|e] end; simpl; [|split; [apply preserves_refl | assumption]].
  match goal with |- context [walk h root ?ps] =>
    destruct (walk_frame base ps h root Hb Hown) as [Hp [Hown' Hb']];
    destruct (walk h root ps) as [h' node] end.
  simpl in *.
  destruct (push_frame base h' node entry Hb' Hown') as [Hp' Hown''].
  split; [eapply preserves_trans; eassumption | assumption].
Qed.

Lemma addEntries_frame (base : nat) (arc : string) (entries : list Val) (h : Heap)
    (root : nat) :
  base <= root -> owned base h ->
  preserves base h (fst (addEntries arc h root entries))
  /\ owned base (fst (addEntries arc h root entries)).
Proof.
  revert h. induction entries as [|entry rest IH]; intros h Hb Hown; simpl.
  - split; [apply preserves_refl | assumption].
  - destruct (addEntry_frame base arc h root entry Hb Hown) as [Hp Hown'].
    destruct (addEntry arc h root entry) as [h' [u|e]]; simpl in *.
    + destruct (IH h' Hb Hown') as [Hp' Hown''].
      split; [eapply preserves_trans; eassumption | assumption].
    + split; assumption.
Qed.

Lemma insertBy_Forall {A : Type} (cmp : A -> A -> Result Z) (Q : A -> Prop) (x : A)
    (s t : list A) :
  NavCommon.insertBy cmp x s = Ok t -> Q x -> Forall Q s -> Forall Q t.
Proof.
  revert t. induction s as [|y rest IH]; simpl; intros t H Hx Hs.
  - injection H as <-. constructor; [assumption | constructor].
  - apply bind_Ok_inv in H as [c [_ H]]. apply Forall_cons in Hs as [Hy Hrest].
    destruct (c <=? 0)%Z.
    + injection H as <-. repeat (constructor; try assumption).
    + apply bind_Ok_inv in H as [rest' [Hrest' H]]. injection H as <-.
      constructor; [assumption | apply IH; assumption].
Qed.

Lemma sortBy_Forall {A : Type} (cmp : A -> A -> Result Z) (Q : A -> Prop) (l s : list A) :
  NavCommon.sortBy cmp l = Ok s -> Forall Q l -> Forall Q s.
Proof.
  revert s. induction l as [|x rest IH]; simpl; intros s H Hl.
  - injection H as <-. constructor.
  - apply bind_Ok_inv in H as [sorted [Hsorted H]]. apply Forall_cons in Hl as [Hx Hrest].
    eapply insertBy_Forall; [exact H | exact Hx | apply IH; assumption].
Qed.

Lemma owned_insert (base node : nat) (h : Heap) (folders : list (string * nat))
    (pages : list Val) :
  owned base h -> Forall (fun kc => base <= snd kc) folders ->
  owned base (<[node := CTree folders pages]> h).
Proof.
  intros Hown Hall a fs ps Ha Hcell.
  destruct (decide (a = node)) as [->|Hne].
  - pose proof (lookup_lt_Some _ _ _ Hcell) as Hlt. rewrite length_insert in Hlt.
    rewrite list_lookup_insert_eq in Hcell by exact Hlt.
    injection Hcell as <- <-. exact Hall.
  - rewrite list_lookup_insert_ne in Hcell by congruence. apply (Hown a fs ps Ha Hcell).
Qed.

Lemma sortNode_frame (base : nat) (host : Host) (fuel : nat) (h : Heap) (node : nat) :
  base <= node -> owned base h ->
  preserves base h (fst (sortNode fuel host h node))
  /\ owned base (fst (sortNode fuel host h node)).
Proof.
  revert h node. induction fuel as [|fuel IH]; intros h node Hb Hown; simpl.
  - split; [apply preserves_refl | assumption].
  - destruct (h !! node) as [[items|fields|folders pages]|] eqn:Hnode; simpl;
      try (split; [apply preserves_refl | assumption]).
    pose proof (Hown node folders pages Hb Hnode) as Hfolders.
    destruct (NavCommon.sortBy _ pages) as [pages'|e]; simpl;
      [|split; [apply preserves_refl | assumption]].
    assert (Hp1 : preserves base h (<[node := CTree folders pages']> h))
      by (apply preserves_insert, Hb).
    assert (Hown1 : owned base (<[node := CTree folders pages']> h))
      by (apply owned_insert; assumption).
    destruct (NavCommon.sortBy (NavgenTree.compareFolders host) folders) as [newMap|e]
      eqn:HnewMap; simpl; [|split; assumption].
    pose proof (sortBy_Forall _ _ _ _ HnewMap Hfolders) as HnewAll.
    assert (Heach : forall fs h0, Forall (fun kc => base <= snd kc) fs -> owned base h0 ->
              preserves base h0 (fst (sortChildren (sortNode fuel host) fs h0))
              /\ owned base (fst (sortChildren (sortNode fuel host) fs h0))).
    { induction fs as [|[k child] rest IHfs]; intros h0 Hfs Hown0; simpl.
      - split; [apply preserves_refl | assumption].
      - apply Forall_cons in Hfs as [Hchild Hrest]. simpl in Hchild.
        destruct (IH h0 child Hchild Hown0) as [Hp Hown'].
        destruct (sortNode fuel host h0 child) as [h' [u|e]]; simpl in *.
        + destruct (IHfs h' Hrest Hown') as [Hp' Hown''].
          split; [eapply preserves_trans; eassumption | assumption].
        + split; assumption. }
    destruct (Heach newMap _ HnewAll Hown1) as [Hp2 Hown2].
    destruct (sortChildren (sortNode fuel host) newMap (<[node := CTree folders pages']> h))
      as [h2 [u|e]]; simpl in *.
    + destruct (h2 !! node) as [[?|?|fs'' pages'']|]; simpl;
        try (split; [eapply preserves_trans; eassumption | assumption]).
      split.
      * eapply preserves_trans; [exact Hp1|].
        eapply preserves_trans; [exact Hp2 | apply preserves_insert, Hb].
      * apply owned_insert; assumption.
    + split; [eapply preserves_trans; eassumption | assumption].
Qed.

Lemma buildTree_frame (base : nat) (arc : string) (h : Heap) (entries : nat) :
  base <= length h -> owned base h ->
  preserves base h (fst (fst (buildTree arc h entries)))
  /\ owned base (fst (fst (buildTree arc h entries)))
  /\ base <= snd (fst (buildTree arc h entries)).
Proof.
  intros Hb Hown. unfold buildTree.
  assert (Hown0 : owned base (h ++ [CTree [] []])).
  { intros a fs ps Ha Hcell.
    destruct (decide (a < length h)) as [Hin|Hout].
    - rewrite lookup_app_l in Hcell by exact Hin. apply (Hown a fs ps Ha Hcell).
    - rewrite lookup_app_r in Hcell by lia.
      destruct (a - length h) as [|k]; simpl in Hcell; [|discriminate].
      injection Hcell as <- <-. constructor. }
  destruct (addEntries_frame base arc (itemsAt h entries) (h ++ [CTree [] []]) (length h)
              Hb Hown0) as [Hp Hown'].
  destruct (addEntries arc (h ++ [CTree [] []]) (length h) (itemsAt h entries)) as [h' r].
  simpl in *. split; [|split; assumption].
  eapply preserves_trans; [apply preserves_app, Hb | exact Hp].
Qed.

Lemma owned_no_tree (base : nat) (h : Heap) :
  (forall a folders pages, base <= a -> h !! a <> Some (CTree folders pages)) ->
  owned base h.
Proof. intros H a fs ps Ha Hcell. exfalso. apply (H a fs ps Ha Hcell). Qed.

Lemma sorted_copy_frame (cmp : Val -> Val -> Result Z) (h1 : Heap) (entries : nat) :
  let h2 := fst (slice h1 entries) in
  let h3 := fst (sortInPlace cmp h2 (snd (slice h1 entries))) in
  preserves (length h1) h1 h3 /\ owned (length h1) h3 /\ length h1 <= length h3.
Proof.
  intros h2 h3. unfold slice in *. simpl in *.
  destruct (sortInPlace_frame cmp (length h1) (length h1) h2 ltac:(lia)) as [Hp Hlen].
  fold h3 in Hp, Hlen.
  split; [|split].
  - eapply preserves_trans; [apply preserves_app; lia | exact Hp].
  - apply owned_no_tree. intros a fs ps Ha Hcell.
    subst h3. unfold sortInPlace in Hcell.
    destruct (NavCommon.sortBy cmp (itemsAt h2 (length h1))); simpl in Hcell.
    + destruct (decide (a = length h1)) as [->|Hne].
      * rewrite list_lookup_insert_eq in Hcell
          by (subst h2; rewrite length_app; simpl; lia).
        discriminate.
      * rewrite list_lookup_insert_ne in Hcell by congruence.
        subst h2. rewrite lookup_app_r in Hcell by lia.
        destruct (a - length h1) as [|k] eqn:Hk; simpl in Hcell; [lia | discriminate].
    + subst h2. rewrite lookup_app_r in Hcell by lia.
      destruct (a - length h1) as [|k] eqn:Hk; simpl in Hcell; [discriminate | discriminate].
  - rewrite Hlen. subst h2. rewrite length_app. lia.
Qed.

Lemma attemptFlat_frame (host : Host) (env : Env) (arc : string) (options : Options)
    (h : Heap) (mountEl : list Node) (document : Json) :
  Navgen.fetchManifest host env (manifestPath options) = Ok document ->
  preserves (length (fst (load document h))) (fst (load document h))
    (fst (attemptFlat host env arc options h mountEl)).
Proof.
  intros Hfetch. unfold attemptFlat. rewrite Hfetch.
  destruct (load document h) as [h1 manifest]. simpl.
  destruct (pickArcEntries h1 manifest arc) as [[entries|]|e]; simpl;
    try apply preserves_refl.
  destruct (length (itemsAt h1 entries) =? 0); simpl; [apply preserves_refl|].
  pose proof (sorted_copy_frame
                (onEntries (Navgen.compareEntries host) (fst (slice h1 entries)))
                h1 entries) as [Hp _].
  simpl in Hp.
  destruct (sortInPlace _ _ _) as [h3 [u|e]]; simpl in *; exact Hp.
Qed.

Lemma attemptTree_frame (fuel : nat) (host : Host) (env : Env) (arc : string)
    (options : Options) (h : Heap) (mountEl : list Node) (document : Json) :
  NavgenTree.fetchManifest host env (manifestPath options) = Ok document ->
  preserves (length (fst (load document h))) (fst (load document h))
    (fst (attemptTree fuel host env arc options h mountEl)).
Proof.
  intros Hfetch. unfold attemptTree. rewrite Hfetch.
  destruct (load document h) as [h1 manifest]. simpl.
  destruct (pickArcEntries h1 manifest arc) as [[entries|]|e]; simpl;
    try apply preserves_refl.
  destruct (length (itemsAt h1 entries) =? 0); simpl; [apply preserves_refl|].
  pose proof (sorted_copy_frame
                (onEntries (NavgenTree.compareEntries host) (fst (slice h1 entries)))
                h1 entries) as [Hp [Hown Hlen]].
  simpl in Hp, Hown, Hlen.
  destruct (sortInPlace _ _ _) as [h3 [u|e]]; simpl in *; [|exact Hp].
  destruct (String.eqb arc "lore" || String.eqb arc "characters"); simpl; [|exact Hp].
  destruct (buildTree_frame (length h1) arc h3 (length h1) Hlen Hown) as [Hp4 [Hown4 Hroot]].
  destruct (buildTree arc h3 (length h1)) as [[h4 root] [u'|e]]; simpl in *.
  - destruct (sortNode_frame (length h1) host fuel h4 root Hroot Hown4) as [Hp5 _].
    destruct (sortNode fuel host h4 root) as [h5 [u''|e]]; simpl in *;
      (eapply preserves_trans; [exact Hp|]; eapply preserves_trans; eassumption).
  - eapply preserves_trans; eassumption.
Qed.

End StoreFrame.

(** C3 (the manifest is only read).  In the store, once [res.json()] has
    built the manifest, [buildNav] of either variant leaves every cell that
    exists at that moment as it is: the manifest object, its [arcs] mapping,
    the array [pickArcEntries] returns and every entry.  What the script
    writes (the sorted copy made by [slice], the nodes and the page lists of
    the tree) are cells it has allocated itself, however deep the tree is
    walked.  When the fetch fails the store is left as it was. *)
Theorem C3_manifest_only_read (host : Host) (env : Env) (arc : string) (opts : Opts)
    (h : Store.Heap) (children : list Node) (fuel : nat) :
  let path := manifestPath (assignOptions NavCommon.DEFAULTS opts) in
  (forall document, Navgen.fetchManifest host env path = Ok document ->
     Store.unchanged (fst (Store.load document h))
       (fst (Store.buildNavFlat host env arc opts h children)))
  /\ (forall document, NavgenTree.fetchManifest host env path = Ok document ->
        Store.unchanged (fst (Store.load document h))
          (fst (Store.buildNavTree fuel host env arc opts h children)))
  /\ (forall e, Navgen.fetchManifest host env path = Err e ->
        fst (Store.buildNavFlat host env arc opts h children) = h)
  /\ (forall e, NavgenTree.fetchManifest host env path = Err e ->
        fst (Store.buildNavTree fuel host env arc opts h children) = h).
Proof.
  intros path. repeat split.
  - intros document Hfetch. apply preserves_unchanged.
    unfold Store.buildNavFlat. fold path.
    match goal with |- context [Store.attemptFlat host env arc ?o h ?m] =>
      pose proof (attemptFlat_frame host env arc o h m document Hfetch) as Hp;
      destruct (Store.attemptFlat host env arc o h m) as [h' [done|err]] end;
      exact Hp.
  - intros document Hfetch. apply preserves_unchanged.
    unfold Store.buildNavTree. fold path.
    match goal with |- context [Store.attemptTree fuel host env arc ?o h ?m] =>
      pose proof (attemptTree_frame fuel host env arc o h m document Hfetch) as Hp;
      destruct (Store.attemptTree fuel host env arc o h m) as [h' [done|err]] end;
      exact Hp.
  - intros e Hfetch. unfold Store.buildNavFlat, Store.attemptFlat. fold path.
    rewrite Hfetch. reflexivity.
  - intros e Hfetch. unfold Store.buildNavTree, Store.attemptTree. fold path.
    rewrite Hfetch. reflexivity.
Qed.

Lemma C3_manifest_only_read_witness :
  Store.unchanged (fst (Store.load Examples.chapters []))
    (fst (Store.buildNavFlat RefHost.host (Examples.serve Examples.chapters) "flame" noOpts
            [] []))
  /\ Store.unchanged (fst (Store.load Examples.cast []))
       (fst (Store.buildNavTree 8 RefHost.host (Examples.serve Examples.cast) "characters"
               noOpts [] [])).
Proof.
  split.
  - destruct (C3_manifest_only_read RefHost.host (Examples.serve Examples.chapters) "flame"
                noOpts [] [] 8) as [Hflat _].
    apply (Hflat Examples.chapters eq_refl).
  - destruct (C3_manifest_only_read RefHost.host (Examples.serve Examples.cast) "characters"
                noOpts [] [] 8) as [_ [Htree _]].
    apply (Htree Examples.cast eq_refl).
Defined.

(** The sort does take place, on the copy: the array of the manifest keeps
    the order of the document and the new cell holds the sorted one. *)
Example store_sorts_the_copy :
  let h1 := fst (Store.load Examples.chapters []) in
  let h' := fst (Store.buildNavFlat RefHost.host (Examples.serve Examples.chapters) "flame"
                   noOpts [] []) in
  Store.pickArcEntries h1 (snd (Store.load Examples.chapters [])) "flame" = Ok (Some 4%nat)
  /\ h' !! 4%nat = Some (Store.CArray [Store.VRef 1; Store.VRef 3])
  /\ h' = h1 ++ [Store.CArray [Store.VRef 3; Store.VRef 1]].
Proof. repeat split. Qed.

(** On sample manifests the scripts over the store render what the scripts
    over documents render. *)
Example store_renders_alike :
  snd (Store.buildNavFlat RefHost.host (Examples.serve Examples.chapters) "flame" noOpts [] [])
  = default [] (Navgen.buildNav RefHost.host (Examples.serve Examples.chapters) "flame"
                  (Some []) noOpts)
  /\ snd (Store.buildNavTree 8 RefHost.host (Examples.serve Examples.cast) "characters" noOpts
            [] [])
     = default [] (NavgenTree.buildNav RefHost.host (Examples.serve Examples.cast)
                     "characters" (Some []) noOpts)
  /\ snd (Store.buildNavTree 8 RefHost.host (Examples.serve Examples.library) "characters"
            noOpts [] [])
     = default [] (NavgenTree.buildNav RefHost.host (Examples.serve Examples.library)
                     "characters" (Some []) noOpts)
  /\ snd (Store.buildNavTree 8 RefHost.host (Examples.serve Examples.indexedLore) "lore" noOpts
            [] [])
     = default [] (NavgenTree.buildNav RefHost.host (Examples.serve Examples.indexedLore)
                     "lore" (Some []) noOpts).
Proof. repeat split; vm_compute; reflexivity. Qed.

(** ** The store and the documents *)

Section StoreRefines.
Local Open Scope nat_scope.
Import Store.

Lemma represents_arr (h : Heap) (items : list Json) (v : Val) :
  represents h (JArr items) v
  <-> exists a vs, v = VRef a /\ h !! a = Some (CArray vs) /\ itemsRep h a items vs.
Proof.
  destruct v as [| | | |a]; simpl; try (split; [contradiction | intros [? [? [? _]]]; discriminate]).
  split.
  - intros [vs [Hcell Hall]]. exists a, vs. split; [reflexivity|]. split; [exact Hcell|].
    clear Hcell. revert vs Hall. induction items as [|j js IH]; intros [|v vs] Hall;
      try contradiction; constructor.
    + destruct Hall as [H1 [H2 _]]. split; assumption.
    + apply IH. destruct Hall as [_ [_ H3]]. exact H3.
  - intros [a' [vs [Heq [Hcell Hall]]]]. injection Heq as <-. exists vs. split; [exact Hcell|].
    clear Hcell. induction Hall as [|j v js vs' [H1 H2] _ IH]; simpl; auto.
Qed.

Lemma represents_obj (h : Heap) (fields : list (string * Json)) (v : Val) :
  represents h (JObj fields) v
  <-> exists a fs, v = VRef a /\ h !! a = Some (CObject fs) /\ fieldsRep h a fields fs.
Proof.
  destruct v as [| | | |a]; simpl; try (split; [contradiction | intros [? [? [? _]]]; discriminate]).
  split.
  - intros [fs [Hcell Hall]]. exists a, fs. split; [reflexivity|]. split; [exact Hcell|].
    clear Hcell. revert fs Hall. induction fields as [|[k j] js IH]; intros [|[k' v] vs] Hall;
      try contradiction; constructor.
    + destruct Hall as [H0 [H1 [H2 _]]]. repeat split; assumption.
    + apply IH. destruct Hall as [_ [_ [_ H3]]]. exact H3.
  - intros [a' [fs [Heq [Hcell Hall]]]]. injection Heq as <-. exists fs. split; [exact Hcell|].
    clear Hcell. induction Hall as [|[k j] [k' v] js vs' [H0 [H1 H2]] _ IH]; simpl in *; auto.
Qed.

Lemma represents_mono (h h' : Heap) (j : Json) (v : Val) :
  unchanged h h' -> represents h j v -> represents h' j v.
Proof.
  intros Hun. revert v. induction j as [|b|n|s|items IH|fields IH] using Json_nested_ind;
    intros v Hv; try (destruct v; simpl in *; assumption).
  - apply represents_arr in Hv as [a [vs [-> [Hcell Hall]]]].
    apply represents_arr. exists a, vs. split; [reflexivity|]. split; [apply Hun, Hcell|].
    clear Hcell. induction Hall as [|j v js vs' [H1 H2] _ IHall]; [constructor|].
    apply Forall_cons in IH as [IHj IHjs].
    constructor; [split; [apply IHj, H1 | exact H2] | apply IHall, IHjs].
  - apply represents_obj in Hv as [a [fs [-> [Hcell Hall]]]].
    apply represents_obj. exists a, fs. split; [reflexivity|]. split; [apply Hun, Hcell|].
    clear Hcell. induction Hall as [|kj kv js vs' [H0 [H1 H2]] _ IHall]; [constructor|].
    apply Forall_cons in IH as [IHj IHjs].
    constructor; [repeat split; [exact H0 | apply IHj, H1 | exact H2] | apply IHall, IHjs].
Qed.

Lemma unchanged_refl (h : Heap) : unchanged h h.
Proof. intros a c H. exact H. Qed.

Lemma unchanged_trans (h1 h2 h3 : Heap) : unchanged h1 h2 -> unchanged h2 h3 -> unchanged h1 h3.
Proof. intros H12 H23 a c H. apply H23, H12, H. Qed.

Lemma unchanged_app (h ext : Heap) : unchanged h (h ++ ext).
Proof. intros a c H. rewrite lookup_app_l; [exact H | eapply lookup_lt_Some, H]. Qed.

Lemma unchanged_length (h h' : Heap) : unchanged h h' -> length h <= length h'.
Proof.
  intros Hun. destruct h as [|c h0] eqn:Hh using rev_ind; [simpl; lia|].
  clear IHh0. rewrite length_app. simpl.
  assert (Hlast : (h0 ++ [c]) !! length h0 = Some c).
  { rewrite lookup_app_r by lia. rewrite Nat.sub_diag. reflexivity. }
  apply Hun in Hlast. apply lookup_lt_Some in Hlast. lia.
Qed.

Lemma below_mono (n m : nat) (v : Val) : n <= m -> below n v -> below m v.
Proof. destruct v; simpl; auto. lia. Qed.

Lemma loadItems_spec (items : list Json) :
  Forall (fun j => forall h, loaded j h (fst (load j h)) (snd (load j h))) items ->
  forall h,
    unchanged h (fst (loadItems load items h))
    /\ itemsRep (fst (loadItems load items h)) (length (fst (loadItems load items h)))
         items (snd (loadItems load items h)).
Proof.
  induction 1 as [|j js Hj _ IH]; intros h; simpl.
  - split; [apply unchanged_refl | constructor].
  - destruct (Hj h) as [Hun1 [Hrep1 Hbelow1]].
    destruct (load j h) as [h1 v]. simpl in *.
    destruct (IH h1) as [Hun2 Hrep2].
    destruct (loadItems load js h1) as [h2 vs]. simpl in *.
    split; [eapply unchanged_trans; eassumption|].
    constructor; [|exact Hrep2].
    split; [eapply represents_mono; eassumption|].
    eapply below_mono; [apply unchanged_length, Hun2 | exact Hbelow1].
Qed.

Lemma loadFields_spec (fields : list (string * Json)) :
  Forall (fun kj => forall h, loaded (snd kj) h (fst (load (snd kj) h)) (snd (load (snd kj) h)))
    fields ->
  forall h,
    unchanged h (fst (loadFields load fields h))
    /\ fieldsRep (fst (loadFields load fields h)) (length (fst (loadFields load fields h)))
         fields (snd (loadFields load fields h)).
Proof.
  induction 1 as [|[k j] js Hj _ IH]; intros h; simpl.
  - split; [apply unchanged_refl | constructor].
  - simpl in Hj. destruct (Hj h) as [Hun1 [Hrep1 Hbelow1]].
    destruct (load j h) as [h1 v]. simpl in *.
    destruct (IH h1) as [Hun2 Hrep2].
    destruct (loadFields load js h1) as [h2 vs]. simpl in *.
    split; [eapply unchanged_trans; eassumption|].
    constructor; [|exact Hrep2]. simpl.
    split; [reflexivity|].
    split; [eapply represents_mono; eassumption|].
    eapply below_mono; [apply unchanged_length, Hun2 | exact Hbelow1].
Qed.

Lemma itemsRep_mono (h h' : Heap) (a : nat) (js : list Json) (vs : list Val) :
  unchanged h h' -> itemsRep h a js vs -> itemsRep h' a js vs.
Proof.
  intros Hun H. induction H as [|j v js vs [H1 H2] _ IH]; constructor; auto.
  split; [eapply represents_mono; eassumption | exact H2].
Qed.

Lemma fieldsRep_mono (h h' : Heap) (a : nat) (js : list (string * Json))
    (vs : list (string * Val)) :
  unchanged h h' -> fieldsRep h a js vs -> fieldsRep h' a js vs.
Proof.
  intros Hun H. induction H as [|j v js vs [H0 [H1 H2]] _ IH]; constructor; auto.
  split; [exact H0|]. split; [eapply represents_mono; eassumption | exact H2].
Qed.

Lemma load_spec (j : Json) (h : Heap) : loaded j h (fst (load j h)) (snd (load j h)).
Proof.
  revert h. induction j as [|b|n|s|items IH|fields IH] using Json_nested_ind; intros h;
    try (split; [apply unchanged_refl | split; simpl; auto]).
  - destruct (loadItems_spec items IH h) as [Hun Hrep]. simpl.
    destruct (loadItems load items h) as [h' vs]. simpl in *.
    split; [eapply unchanged_trans; [exact Hun | apply unchanged_app]|].
    split; [|rewrite length_app; simpl; lia].
    apply represents_arr. exists (length h'), vs. split; [reflexivity|].
    split; [rewrite lookup_app_r by lia; rewrite Nat.sub_diag; reflexivity|].
    eapply itemsRep_mono; [apply unchanged_app | exact Hrep].
  - destruct (loadFields_spec fields IH h) as [Hun Hrep]. simpl.
    destruct (loadFields load fields h) as [h' fs]. simpl in *.
    split; [eapply unchanged_trans; [exact Hun | apply unchanged_app]|].
    split; [|rewrite length_app; simpl; lia].
    apply represents_obj. exists (length h'), fs. split; [reflexivity|].
    split; [rewrite lookup_app_r by lia; rewrite Nat.sub_diag; reflexivity|].
    eapply fieldsRep_mono; [apply unchanged_app | exact Hrep].
Qed.

(** A value that stands for a document reads back as that document. *)
Lemma reify_represents (h : Heap) (j : Json) :
  forall (v : Val) (fuel : nat), represents h j v -> below fuel v -> reify fuel h v = j.
Proof.
  induction j as [|b|n|s|items IH|fields IH] using Json_nested_ind; intros v fuel Hv Hfuel;
    try (destruct v, fuel; simpl in *; try contradiction; congruence).
  - apply represents_arr in Hv as [a [vs [-> [Hcell Hall]]]]. simpl in Hfuel.
    destruct fuel as [|fuel]; [lia|]. simpl. rewrite Hcell. f_equal. clear Hcell.
    induction Hall as [|j v js vs' [H1 H2] _ IHall]; [reflexivity|].
    apply Forall_cons in IH as [IHj IHjs]. simpl. f_equal.
    + apply IHj; [exact H1|]. eapply below_mono; [|exact H2]. lia.
    + apply IHall, IHjs.
  - apply represents_obj in Hv as [a [fs [-> [Hcell Hall]]]]. simpl in Hfuel.
    destruct fuel as [|fuel]; [lia|]. simpl. rewrite Hcell. f_equal. clear Hcell.
    induction Hall as [|[k j] [k' v] js vs' [H0 [H1 H2]] _ IHall]; [reflexivity|].
    apply Forall_cons in IH as [IHj IHjs]. simpl in *. f_equal.
    + subst k'. f_equal. apply IHj; [exact H1|]. eapply below_mono; [|exact H2]. lia.
    + apply IHall, IHjs.
Qed.

Lemma represents_below (h : Heap) (j : Json) (v : Val) :
  represents h j v -> below (length h) v.
Proof.
  destruct v as [| | | |a]; simpl; auto.
  destruct j; simpl; try contradiction; intros [x [Hcell _]]; eapply lookup_lt_Some, Hcell.
Qed.

Lemma read_represents (h : Heap) (j : Json) (v : Val) : represents h j v -> read h v = j.
Proof.
  intros Hv. apply reify_represents; [exact Hv | eapply represents_below, Hv].
Qed.

Lemma elementAt_represents (h : Heap) (a : nat) (k : string) (js : list Json) (vs : list Val) :
  itemsRep h a js vs ->
  forall i, sameRead h (Ok (Js.elementAt i k js)) (Ok (Js.elementAt i k vs)).
Proof.
  induction 1 as [|j v js vs [H1 H2] _ IH]; intros i; simpl; [exact I|].
  destruct (String.eqb k (Str.ofNat i)); [exact H1 | apply IH].
Qed.

Lemma assoc_represents (h : Heap) (a : nat) (k : string) (js : list (string * Json))
    (vs : list (string * Val)) :
  fieldsRep h a js vs -> sameRead h (Ok (Js.assoc k js)) (Ok (assoc k vs)).
Proof.
  induction 1 as [|[k1 j] [k2 v] js vs [H0 [H1 H2]] _ IH]; simpl in *; [exact I|].
  subst k2. destruct (String.eqb k k1); [exact H1 | exact IH].
Qed.

Lemma chars_represent (h : Heap) (k : string) (cs : list ascii) (i : nat) :
  sameRead h
    (Ok (option_map (fun c => JStr (String c EmptyString)) (Js.elementAt i k cs)))
    (Ok (option_map (fun c => VStr (String c EmptyString)) (Js.elementAt i k cs))).
Proof. destruct (Js.elementAt i k cs); simpl; auto. Qed.

Lemma get_represents (h : Heap) (j : Json) (v : Val) (k : string) :
  represents h j v -> sameRead h (Js.get j k) (get h v k).
Proof.
  intros Hv. destruct j as [|b|n|s|items|fields].
  - destruct v; simpl in Hv; try contradiction. reflexivity.
  - destruct v; simpl in Hv; try contradiction. exact I.
  - destruct v; simpl in Hv; try contradiction. exact I.
  - destruct v; simpl in Hv; try contradiction. subst. simpl.
    destruct (String.eqb k "length"); [reflexivity | apply chars_represent].
  - apply represents_arr in Hv as [a [vs [-> [Hcell Hall]]]]. simpl. rewrite Hcell.
    destruct (String.eqb k "length").
    + simpl. rewrite (Forall2_length _ _ _ Hall). reflexivity.
    + eapply elementAt_represents, Hall.
  - apply represents_obj in Hv as [a [fs [-> [Hcell Hall]]]]. simpl. rewrite Hcell.
    eapply assoc_represents, Hall.
Qed.

Lemma truthy_represents (h : Heap) (j : Json) (v : Val) :
  represents h j v ->
  truthy (Some v) = Js.truthy (Some j)
  /\ isObjectType (Some v) = Js.typeof_is (Some j) Js.TObject.
Proof.
  destruct j, v; simpl; try contradiction; intros H; subst; split; reflexivity.
Qed.

Lemma pick_represents (h : Heap) (j : Json) (v : Val) (arc : string) :
  represents h j v ->
  match Navgen.pickArcEntries j arc, pickArcEntries h v arc with
  | Ok None, Ok None => True
  | Ok (Some items), Ok (Some a) =>
      exists vs, h !! a = Some (CArray vs) /\ itemsRep h a items vs
  | Err e, Err e' => e = e'
  | _, _ => False
  end.
Proof.
  intros Hv. unfold Navgen.pickArcEntries, pickArcEntries.
  destruct (truthy_represents h j v Hv) as [-> ->].
  destruct (negb (Js.truthy (Some j)) || negb (Js.typeof_is (Some j) Js.TObject));
    [exact I|].
  pose proof (get_represents h j v "schema" Hv) as Hschema.
  pose proof (get_represents h j v "arcs" Hv) as Harcs.
  unfold sameRead in Hschema, Harcs.
  destruct (Js.get j "schema") as [[sj|]|e], (get h v "schema") as [[sv|]|e'];
    try contradiction; unfold_result; try exact I; try exact Hschema.
  destruct sj as [|?|n|?|?|?], sv as [|?|n'|?|?]; simpl in Hschema; try contradiction;
    try exact I.
  subst n'. destruct n as [|[p|[p|p|]|]|p]; try exact I.
  destruct (Js.get j "arcs") as [[aj|]|e], (get h v "arcs") as [[av|]|e'];
    try contradiction; try exact I; try exact Harcs.
  destruct (truthy_represents h aj av Harcs) as [-> ->].
  destruct (negb (Js.truthy (Some aj)) || negb (Js.typeof_is (Some aj) Js.TObject));
    [exact I|].
  pose proof (get_represents h aj av arc Harcs) as Hentries. unfold sameRead in Hentries.
  destruct (Js.get aj arc) as [[ej|]|e], (get h av arc) as [[ev|]|e'];
    try contradiction; try exact I; try exact Hentries.
  destruct ej as [|?|?|?|items|?].
  1-4: destruct ev; simpl in Hentries; try contradiction; exact I.
  - apply represents_arr in Hentries as [a [vs [-> [Hcell Hall]]]]. rewrite Hcell.
    exists vs. split; assumption.
  - apply represents_obj in Hentries as [a [fs [-> [Hcell Hall]]]]. rewrite Hcell. exact I.
Qed.

Lemma itemsRep_represents (h : Heap) (a : nat) (js : list Json) (vs : list Val) :
  itemsRep h a js vs -> Forall2 (represents h) js vs.
Proof. intros H. eapply Forall2_impl; [exact H|]. intros j v [Hv _]. exact Hv. Qed.

Lemma reads_represent (h h' : Heap) (js : list Json) (vs : list Val) :
  unchanged h h' -> Forall2 (represents h) js vs -> map (read h') vs = js.
Proof.
  intros Hun H. induction H as [|j v js vs Hv _ IH]; simpl; [reflexivity|].
  rewrite IH. f_equal. apply read_represents. eapply represents_mono; eassumption.
Qed.

Lemma itemsAt_lookup (h : Heap) (a : nat) (vs : list Val) :
  h !! a = Some (CArray vs) -> itemsAt h a = vs.
Proof. unfold itemsAt. intros ->. reflexivity. Qed.

(** The sorted copy holds the entries the sort of the document returns. *)
Lemma sorted_copy_refines (cmp : Json -> Json -> Result Z) (h1 : Heap) (a : nat)
    (items : list Json) (vs : list Val) :
  h1 !! a = Some (CArray vs) ->
  Forall2 (represents h1) items vs ->
  match NavCommon.sortBy cmp items,
        sortInPlace (onEntries cmp (fst (slice h1 a))) (fst (slice h1 a)) (snd (slice h1 a))
  with
  | Ok sorted, (h3, Ok _) => map (read h3) (itemsAt h3 (snd (slice h1 a))) = sorted
  | Err e, (_, Err e') => e = e'
  | _, _ => False
  end.
Proof.
  intros Hcell Hrep. unfold slice. cbn [fst snd].
  rewrite (itemsAt_lookup h1 a vs Hcell).
  set (h2 := h1 ++ [CArray vs]).
  assert (Hcopy : itemsAt h2 (length h1) = vs).
  { apply itemsAt_lookup. unfold h2. rewrite lookup_app_r by lia.
    rewrite Nat.sub_diag. reflexivity. }
  unfold sortInPlace. rewrite Hcopy.
  pose proof (sortBy_related cmp (onEntries cmp h2) (represents h1)) as Hsort.
  specialize (Hsort ltac:(
    intros x y x' y' Hx Hy; unfold onEntries;
    rewrite (read_represents h2 x x'), (read_represents h2 y y')
      by (eapply represents_mono; [apply unchanged_app | eassumption]);
    reflexivity) items vs Hrep).
  destruct (NavCommon.sortBy cmp items) as [sorted|e],
           (NavCommon.sortBy (onEntries cmp h2) vs) as [sortedV|e'];
    try contradiction; [|exact Hsort].
  rewrite (itemsAt_lookup _ (length h1) sortedV).
  - apply (reads_represent h1); [|exact Hsort].
    intros x c Hx. pose proof (lookup_lt_Some _ _ _ Hx) as Hlt.
    rewrite list_lookup_insert_ne by lia.
    unfold h2. rewrite lookup_app_l by exact Hlt. exact Hx.
  - apply list_lookup_insert_eq. unfold h2. rewrite length_app. simpl. lia.
Qed.

Lemma attemptFlat_refines (host : Host) (env : Env) (arc : string) (options : Options)
    (h : Heap) (mountEl : list Node) :
  snd (attemptFlat host env arc options h mountEl)
  = Navgen.attempt host env arc options mountEl.
Proof.
  unfold attemptFlat, Navgen.attempt.
  destruct (Navgen.fetchManifest host env (manifestPath options)) as [document|e];
    [|reflexivity].
  unfold_result.
  destruct (load_spec document h) as [_ [Hrep _]].
  destruct (load document h) as [h1 manifest]. simpl in Hrep.
  pose proof (pick_represents h1 document manifest arc Hrep) as Hpick.
  destruct (Navgen.pickArcEntries document arc) as [[items|]|e],
           (pickArcEntries h1 manifest arc) as [[a|]|e'];
    try contradiction; try reflexivity; [|subst; reflexivity].
  destruct Hpick as [vs [Hcell Hitems]].
  rewrite (itemsAt_lookup h1 a vs Hcell).
  rewrite <- (Forall2_length _ _ _ Hitems).
  destruct (length items =? 0); [reflexivity|].
  pose proof (sorted_copy_refines (Navgen.compareEntries host) h1 a items vs Hcell
                (itemsRep_represents _ _ _ _ Hitems)) as Hsort.
  destruct (slice h1 a) as [h2 copy]. cbn [fst snd] in Hsort.
  destruct (NavCommon.sortBy (Navgen.compareEntries host) items) as [sorted|e],
           (sortInPlace _ _ _) as [h3 [u|e']];
    try contradiction; simpl; [|subst; reflexivity].
  rewrite Hsort. reflexivity.
Qed.

Lemma attemptTree_refines (fuel : nat) (host : Host) (env : Env) (arc : string)
    (options : Options) (h : Heap) (mountEl : list Node) :
  String.eqb arc "lore" || String.eqb arc "characters" = false ->
  snd (attemptTree fuel host env arc options h mountEl)
  = NavgenTree.attempt host env arc options mountEl.
Proof.
  intros Harc. unfold attemptTree, NavgenTree.attempt.
  destruct (NavgenTree.fetchManifest host env (manifestPath options)) as [document|e];
    [|reflexivity].
  unfold_result.
  destruct (load_spec document h) as [_ [Hrep _]].
  destruct (load document h) as [h1 manifest]. simpl in Hrep.
  pose proof (pick_represents h1 document manifest arc Hrep) as Hpick.
  change (NavgenTree.pickArcEntries document arc) with (Navgen.pickArcEntries document arc).
  destruct (Navgen.pickArcEntries document arc) as [[items|]|e],
           (pickArcEntries h1 manifest arc) as [[a|]|e'];
    try contradiction; try reflexivity; [|subst; reflexivity].
  destruct Hpick as [vs [Hcell Hitems]].
  rewrite (itemsAt_lookup h1 a vs Hcell).
  rewrite <- (Forall2_length _ _ _ Hitems).
  destruct (length items =? 0); [reflexivity|].
  pose proof (sorted_copy_refines (NavgenTree.compareEntries host) h1 a items vs Hcell
                (itemsRep_represents _ _ _ _ Hitems)) as Hsort.
  destruct (slice h1 a) as [h2 copy]. cbn [fst snd] in Hsort.
  destruct (NavCommon.sortBy (NavgenTree.compareEntries host) items) as [sorted|e],
           (sortInPlace _ _ _) as [h3 [u|e']];
    try contradiction; simpl; [|subst; reflexivity].
  rewrite Harc, Hsort. reflexivity.
Qed.

End StoreRefines.

(** The scripts over the store render what the scripts over documents
    render: [js/navgen.js] always, the tree variant for the arcs it lists
    flat.  (For [lore] and [characters] see [store_renders_alike].) *)
Theorem store_refines (host : Host) (env : Env) (arc : string) (opts : Opts)
    (h : Store.Heap) (children : list Node) (fuel : nat) :
  Some (snd (Store.buildNavFlat host env arc opts h children))
  = Navgen.buildNav host env arc (Some children) opts
  /\ (String.eqb arc "lore" || String.eqb arc "characters" = false ->
      Some (snd (Store.buildNavTree fuel host env arc opts h children))
      = NavgenTree.buildNav host env arc (Some children) opts).
Proof.
  split; [|intros Harc].
  - unfold Store.buildNavFlat, Navgen.buildNav.
    rewrite <- attemptFlat_refines with (h := h).
    destruct (Store.attemptFlat _ _ _ _ _ _) as [h' [done|err]]; reflexivity.
  - unfold Store.buildNavTree, NavgenTree.buildNav.
    rewrite <- attemptTree_refines with (fuel := fuel) (h := h) by exact Harc.
    destruct (Store.attemptTree _ _ _ _ _ _ _) as [h' [done|err]]; reflexivity.
Qed.

(** ** The manifest store *)




Section ManifestStoreFacts.
Import ManifestStore.

Context {Media : Type} (process : Media -> SourceDocument -> ManifestEntry).

Lemma install_lookup (media : Media) (docs : list SourceDocument) (owned : list string)
    (m : gmap string (list ManifestEntry)) (k : string) :
  foldr (fun arc acc => <[arc := entriesOf Media process media docs arc]> acc) m owned !! k
  = if decide (k ∈ owned) then Some (entriesOf Media process media docs k) else m !! k.
Proof.
  induction owned as [|arc rest IH]; cbn [foldr].
  - rewrite decide_False by apply not_elem_of_nil. reflexivity.
  - destruct (decide (arc = k)) as [->|Hne].
    + rewrite lookup_insert_eq.
      rewrite decide_True by (apply elem_of_cons; left; reflexivity). reflexivity.
    + rewrite lookup_insert_ne by exact Hne. rewrite IH.
      destruct (decide (k ∈ rest)) as [Hin|Hout].
      * rewrite decide_True by (apply elem_of_cons; right; exact Hin). reflexivity.
      * rewrite decide_False; [reflexivity|].
        intros Hk. apply elem_of_cons in Hk as [Hk|Hk]; [congruence | contradiction].
Qed.

Lemma runPass_lookup (p : Pass) (now : string) (media : Media) (docs : list SourceDocument)
    (existing : option Manifest) (k : string) :
  arcs (runPass Media process p now media docs existing) !! k
  = if decide (k ∈ owns p) then Some (entriesOf Media process media docs k)
    else arcs (default initialManifest existing) !! k.
Proof. unfold runPass. simpl. apply install_lookup. Qed.











Lemma fullRebuild_fields (t1 t2 t3 : string) (media : Media) (docs : list SourceDocument)
    (existing : option Manifest) :
  schema (fullRebuild Media process t1 t2 t3 media docs existing)
  = schema (default initialManifest existing)
  /\ root (fullRebuild Media process t1 t2 t3 media docs existing)
     = root (default initialManifest existing).
Proof. split; reflexivity. Qed.

End ManifestStoreFacts.

(** C6 (a pass leaves the other arcs alone).  In the manifest store of the
    specification, a pass run on an existing manifest keeps [schema] and
    [root], leaves every arc it does not own exactly as it was, and installs
    the rebuilt entries under the arcs it owns: only [generated_at] and the
    owned arcs can differ.  So the chapters pass leaves [characters] and
    [lore] alone, the characters pass writes [characters] only and the lore
    pass [lore] only. *)
Theorem C6_pass_keeps_other_arcs {Media : Type}
    (process : Media -> ManifestStore.SourceDocument -> ManifestStore.ManifestEntry)
    (p : ManifestStore.Pass) (now : string) (media : Media)
    (docs : list ManifestStore.SourceDocument) (m : ManifestStore.Manifest) :
  let m' := ManifestStore.runPass Media process p now media docs (Some m) in
  ManifestStore.schema m' = ManifestStore.schema m
  /\ ManifestStore.root m' = ManifestStore.root m
  /\ ManifestStore.generated_at m' = now
  /\ (forall arc, arc ∉ ManifestStore.owns p ->
        ManifestStore.arcs m' !! arc = ManifestStore.arcs m !! arc)
  /\ (forall arc, arc ∈ ManifestStore.owns p ->
        ManifestStore.arcs m' !! arc
        = Some (ManifestStore.entriesOf Media process media docs arc)).
Proof.
  intros m'. repeat split.
  - intros arc Harc. unfold m'. rewrite runPass_lookup.
    rewrite decide_False by exact Harc. reflexivity.
  - intros arc Harc. unfold m'. rewrite runPass_lookup.
    rewrite decide_True by exact Harc. reflexivity.
Qed.

Lemma C6_pass_keeps_other_arcs_witness :
  let m' := ManifestStore.runPass (list string) Examples.processSample
              ManifestStore.ChaptersPass "2024-06-01T09:00:00" [] Examples.sources
              (Some Examples.priorManifest) in
  ManifestStore.arcs m' !! "characters"
  = ManifestStore.arcs Examples.priorManifest !! "characters"
  /\ ManifestStore.arcs m' !! "lore" = ManifestStore.arcs Examples.priorManifest !! "lore"
  /\ ManifestStore.arcs m' !! "flame"
     = Some (ManifestStore.entriesOf (list string) Examples.processSample [] Examples.sources
               "flame").
Proof.
  intros m'.
  destruct (C6_pass_keeps_other_arcs Examples.processSample ManifestStore.ChaptersPass
              "2024-06-01T09:00:00" [] Examples.sources Examples.priorManifest)
    as [_ [_ [_ [Hother Hown]]]].
  split; [|split].
  - apply Hother. compute_done.
  - apply Hother. compute_done.
  - apply Hown. compute_done.
Defined.




(* ===================================================================== *)
(** * Part III: further properties of the scripts                         *)
(* ===================================================================== *)

(** ** The lightbox: its handlers *)

(** [a.querySelector("img")] and the [alt] attribute read from it. *)
Lemma openAt_shown (gallery : list Lightbox.Item) (b : bool) (i : Z) (st : Lightbox.State) :
  gallery <> [] ->
  let n := Z.of_nat (length gallery) in
  exists a, gallery !! Z.to_nat (i mod n) = Some a
    /\ Lightbox.openAt gallery b i st
       = Lightbox.mkState gallery (i mod n) false
           (Lightbox.orEmpty (Lightbox.item_href a))
           (match Lightbox.item_img_alt a with
            | Some im => Lightbox.orEmpty im
            | None => ""
            end)
           true (Lightbox.close_focused st || b).
Proof.
  intros Hne n.
  assert (Hn : 0 < n) by (destruct gallery; [congruence | unfold n; simpl; lia]).
  pose proof (Z.mod_pos_bound i n Hn) as Hrange.
  destruct (gallery !! Z.to_nat (i mod n)) as [a|] eqn:Ha.
  - exists a. split; [reflexivity|].
    unfold Lightbox.openAt. cbn [Lightbox.refreshItems Lightbox.items]. fold n.
    destruct (Z.eqb_spec n 0) as [|_]; [lia|].
    rewrite wrap_spec by exact Hn. rewrite Ha. reflexivity.
  - exfalso. apply lookup_ge_None in Ha. unfold n in *. lia.
Qed.

Lemma openAt_coherent (gallery : list Lightbox.Item) (b : bool) (i : Z) (st : Lightbox.State) :
  LightboxEvents.coherent st -> LightboxEvents.coherent (Lightbox.openAt gallery b i st).
Proof.
  intros Hst. destruct gallery as [|x rest] eqn:Hg.
  - destruct st; exact Hst.
  - rewrite <- Hg.
    destruct (openAt_shown gallery b i st ltac:(congruence)) as [a [_ ->]].
    right. cbn. repeat split.
    apply Z.mod_pos_bound. subst gallery. simpl. lia.
Qed.

Lemma close_coherent (st : Lightbox.State) : LightboxEvents.coherent (Lightbox.close st).
Proof. left. repeat split. Qed.

Lemma step_coherent (b : bool) (gallery : list Lightbox.Item) (e : LightboxEvents.Event)
    (st : Lightbox.State) :
  LightboxEvents.coherent st -> LightboxEvents.coherent (LightboxEvents.step b gallery e st).
Proof.
  intros Hst.
  assert (Hnext : LightboxEvents.coherent (Lightbox.next gallery b st)).
  { unfold Lightbox.next. destruct (Lightbox.index st <? 0); [exact Hst|].
    apply openAt_coherent, Hst. }
  assert (Hprev : LightboxEvents.coherent (Lightbox.prev gallery b st)).
  { unfold Lightbox.prev. destruct (Lightbox.index st <? 0); [exact Hst|].
    apply openAt_coherent, Hst. }
  destruct e as [t|key|i| | |]; simpl.
  - unfold LightboxEvents.onClick. destruct (LightboxEvents.closest_item t).
    + apply openAt_coherent. destruct st; exact Hst.
    + destruct (LightboxEvents.closest_prev t); [exact Hprev|].
      destruct (LightboxEvents.closest_next t); [exact Hnext|].
      destruct (LightboxEvents.closest_close t); [apply close_coherent | exact Hst].
  - unfold LightboxEvents.onKeydown. destruct (Lightbox.lb_hidden st); [exact Hst|].
    destruct (String.eqb key "Escape"); [apply close_coherent|].
    destruct (String.eqb key "ArrowRight"); [exact Hnext|].
    destruct (String.eqb key "ArrowLeft"); [exact Hprev | exact Hst].
  - apply openAt_coherent, Hst.
  - apply close_coherent.
  - exact Hnext.
  - exact Hprev.
Qed.

(** X1 (the overlay, the index and the scroll lock agree).  From a state in
    which the overlay is hidden with index -1 and scrolling free, or shown
    with an index of at least 0 and scrolling locked, every history of
    clicks, keys and calls of the exposed functions, over galleries that may
    change between events, ends in such a state. *)
Theorem lightbox_history_coherent (b : bool)
    (history : list (list Lightbox.Item * LightboxEvents.Event)) (st : Lightbox.State) :
  LightboxEvents.coherent st -> LightboxEvents.coherent (LightboxEvents.run b history st).
Proof.
  revert st. induction history as [|[gallery e] rest IH]; intros st Hst; simpl.
  - exact Hst.
  - apply IH, step_coherent, Hst.
Qed.

Lemma lightbox_history_coherent_witness :
  LightboxEvents.coherent
    (LightboxEvents.run true
       [([Lightbox.mkItem (Some "a.webp") None; Lightbox.mkItem (Some "b.webp") None],
         LightboxEvents.Click (LightboxEvents.mkTarget (Some (Some 1%nat)) false false false));
        ([], LightboxEvents.Keydown "ArrowRight");
        ([Lightbox.mkItem (Some "a.webp") None], LightboxEvents.CallPrev)]
       (Lightbox.initial true)).
Proof.
  apply (lightbox_history_coherent true _ (Lightbox.initial true)).
  left. repeat split.
Defined.

(** X2 (next and prev undo each other).  With the overlay showing an item of
    a gallery that is not empty and does not change, [next()] followed by
    [prev()], and [prev()] followed by [next()], restore the whole state:
    index, image, alternative text, overlay and focus. *)
Theorem lightbox_next_prev_inverse (gallery : list Lightbox.Item) (b : bool) (i : Z)
    (st0 : Lightbox.State) :
  gallery <> [] ->
  let st := Lightbox.openAt gallery b i st0 in
  Lightbox.prev gallery b (Lightbox.next gallery b st) = st
  /\ Lightbox.next gallery b (Lightbox.prev gallery b st) = st.
Proof.
  intros Hne st. set (n := Z.of_nat (length gallery)).
  assert (Hn : 0 < n) by (destruct gallery; [congruence | unfold n; simpl; lia]).
  destruct (openAt_shown gallery b i st0 Hne) as [a [Ha Hst]]. fold n in Ha, Hst.
  fold st in Hst.
  assert (Hi : Lightbox.index st = i mod n) by (rewrite Hst; reflexivity).
  pose proof (Z.mod_pos_bound i n Hn) as Hrange.
  assert (Hstep : forall d,
    exists a', Lightbox.openAt gallery b (Lightbox.index st + d) st
      = Lightbox.mkState gallery ((i mod n + d) mod n) false
          (Lightbox.orEmpty (Lightbox.item_href a'))
          (match Lightbox.item_img_alt a' with
           | Some im => Lightbox.orEmpty im
           | None => ""
           end) true (Lightbox.close_focused st0 || b)).
  { intros d. destruct (openAt_shown gallery b (Lightbox.index st + d) st Hne) as [a' [_ ->]].
    exists a'. fold n. rewrite Hi. rewrite Hst. cbn [Lightbox.close_focused].
    rewrite <- orb_assoc, orb_diag. reflexivity. }
  assert (Hreturn : forall d,
    Lightbox.openAt gallery b
      (Lightbox.index (Lightbox.openAt gallery b (Lightbox.index st + d) st) - d)
      (Lightbox.openAt gallery b (Lightbox.index st + d) st) = st).
  { intros d. destruct (Hstep d) as [a' ->]. cbn [Lightbox.index].
    match goal with |- Lightbox.openAt _ _ ?j ?s = _ =>
      destruct (openAt_shown gallery b j s Hne) as [a'' [Ha'' ->]]; fold n in Ha'' |- * end.
    assert (Hj : ((i mod n + d) mod n - d) mod n = i mod n).
    { rewrite Zminus_mod, Z.mod_mod by lia. rewrite <- Zminus_mod.
      replace (i mod n + d - d) with (i mod n) by lia. apply Z.mod_mod. lia. }
    rewrite Hj in Ha'' |- *. rewrite Ha in Ha''. inversion Ha''; subst a''.
    rewrite Hst. cbn [Lightbox.close_focused].
    rewrite <- orb_assoc, orb_diag. reflexivity. }
  assert (Hpos : forall d, (Lightbox.index (Lightbox.openAt gallery b (Lightbox.index st + d) st) <? 0) = false).
  { intros d. destruct (Hstep d) as [a' ->]. cbn [Lightbox.index].
    apply Z.ltb_ge. apply Z.mod_pos_bound. exact Hn. }
  assert (Hpos0 : (Lightbox.index st <? 0) = false) by (apply Z.ltb_ge; lia).
  split.
  - unfold Lightbox.next at 1. unfold Lightbox.prev. unfold Lightbox.next. rewrite Hpos0.
    rewrite Hpos. exact (Hreturn 1).
  - unfold Lightbox.prev at 1. unfold Lightbox.next. unfold Lightbox.prev. rewrite Hpos0.
    change (Lightbox.index st - 1) with (Lightbox.index st + (-1)).
    rewrite Hpos. pose proof (Hreturn (-1)) as H.
    replace (Lightbox.index (Lightbox.openAt gallery b (Lightbox.index st + -1) st) - -1)
      with (Lightbox.index (Lightbox.openAt gallery b (Lightbox.index st + -1) st) + 1) in H
      by lia.
    exact H.
Qed.

Lemma lightbox_next_prev_inverse_witness :
  let gallery := [Lightbox.mkItem (Some "a.webp") (Some (Some "A"));
                  Lightbox.mkItem (Some "b.webp") None] in
  let st := Lightbox.openAt gallery true 1 (Lightbox.initial true) in
  Lightbox.prev gallery true (Lightbox.next gallery true st) = st
  /\ Lightbox.next gallery true (Lightbox.prev gallery true st) = st.
Proof.
  intros gallery.
  apply (lightbox_next_prev_inverse gallery true 1 (Lightbox.initial true)).
  discriminate.
Defined.

(** X3 (a closed overlay stays closed).  After [close()], clicks outside
    the thumbnails, keys, and calls of [close], [next] and [prev] leave the
    state as [close()] left it, whatever the galleries: only a click on a
    thumbnail or a call of [openAt] shows the overlay again. *)
Theorem lightbox_closed_stays_closed (b : bool)
    (history : list (list Lightbox.Item * LightboxEvents.Event)) (st : Lightbox.State) :
  Forall (fun ge => LightboxEvents.opens (snd ge) = false) history ->
  LightboxEvents.run b history (Lightbox.close st) = Lightbox.close st.
Proof.
  induction 1 as [|[gallery e] rest He _ IH]; simpl; [reflexivity|].
  simpl in He.
  replace (LightboxEvents.step b gallery e (Lightbox.close st)) with (Lightbox.close st);
    [exact IH|].
  destruct e as [t|key|i| | |]; simpl in *; try reflexivity; try discriminate.
  unfold LightboxEvents.onClick. destruct (LightboxEvents.closest_item t); [discriminate|].
  destruct (LightboxEvents.closest_prev t); [reflexivity|].
  destruct (LightboxEvents.closest_next t); [reflexivity|].
  destruct (LightboxEvents.closest_close t); reflexivity.
Qed.

Lemma lightbox_closed_stays_closed_witness :
  let st := Lightbox.openAt [Lightbox.mkItem (Some "a.webp") None] true 0
              (Lightbox.initial true) in
  LightboxEvents.run true
    [([Lightbox.mkItem (Some "a.webp") None], LightboxEvents.Keydown "ArrowRight");
     ([Lightbox.mkItem (Some "a.webp") None], LightboxEvents.CallNext);
     ([], LightboxEvents.Click (LightboxEvents.mkTarget None true false false))]
    (Lightbox.close st) = Lightbox.close st.
Proof.
  intros st. apply (lightbox_closed_stays_closed true _ st).
  repeat constructor.
Defined.

(** X4 (a click on a thumbnail shows that thumbnail).  When the click lands
    in the [k]-th gallery item of the page, the handler sets the index to
    [k], shows the overlay with the [href] of that item as the image source
    and the [alt] of its image as alternative text (the empty string when
    either is missing), and locks scrolling; what else the target lies in
    and what the state was do not matter. *)
Theorem lightbox_click_shows_item (gallery : list Lightbox.Item) (b : bool) (k : nat)
    (a : Lightbox.Item) (p n c : bool) (st : Lightbox.State) :
  gallery !! k = Some a ->
  LightboxEvents.onClick gallery b (LightboxEvents.mkTarget (Some (Some k)) p n c) st
  = Lightbox.mkState gallery (Z.of_nat k) false
      (Lightbox.orEmpty (Lightbox.item_href a))
      (match Lightbox.item_img_alt a with
       | Some im => Lightbox.orEmpty im
       | None => ""
       end)
      true (Lightbox.close_focused st || b).
Proof.
  intros Ha. pose proof (lookup_lt_Some _ _ _ Ha) as Hlt.
  unfold LightboxEvents.onClick. cbn [LightboxEvents.closest_item].
  destruct (Z.leb_spec 0 (Z.of_nat k)) as [_|]; [|lia].
  assert (Hne : gallery <> []) by (intros ->; simpl in Hlt; lia).
  destruct (openAt_shown gallery b (Z.of_nat k) (Lightbox.refreshItems gallery st) Hne)
    as [a' [Ha' ->]].
  rewrite Z.mod_small in Ha' |- * by lia.
  rewrite Nat2Z.id in Ha'. rewrite Ha in Ha'. inversion Ha'; subst a'. reflexivity.
Qed.

Lemma lightbox_click_shows_item_witness :
  LightboxEvents.onClick
    [Lightbox.mkItem (Some "a.webp") (Some (Some "A")); Lightbox.mkItem None (Some None)]
    true (LightboxEvents.mkTarget (Some (Some 1%nat)) true false true) (Lightbox.initial true)
  = Lightbox.mkState
      [Lightbox.mkItem (Some "a.webp") (Some (Some "A")); Lightbox.mkItem None (Some None)]
      1 false "" "" true true.
Proof.
  apply (lightbox_click_shows_item _ true 1 (Lightbox.mkItem None (Some None)) true false true
           (Lightbox.initial true)).
  reflexivity.
Defined.

(** ** The sort, whatever the comparator *)

Lemma insertBy_perm {A : Type} (cmp : A -> A -> Result Z) (x : A) (s t : list A) :
  NavCommon.insertBy cmp x s = Ok t -> Permutation (x :: s) t.
Proof.
  revert t. induction s as [|y rest IH]; simpl; intros t H.
  - injection H as <-. reflexivity.
  - apply bind_Ok_inv in H as [c [_ H]].
    destruct (c <=? 0).
    + injection H as <-. reflexivity.
    + apply bind_Ok_inv in H as [rest' [Hrest' H]]. injection H as <-.
      rewrite perm_swap. constructor. apply IH. exact Hrest'.
Qed.

Lemma sortBy_perm {A : Type} (cmp : A -> A -> Result Z) (l s : list A) :
  NavCommon.sortBy cmp l = Ok s -> Permutation l s.
Proof.
  revert s. induction l as [|x rest IH]; simpl; intros s H.
  - injection H as <-. reflexivity.
  - apply bind_Ok_inv in H as [sorted [Hsorted H]].
    etransitivity; [|exact (insertBy_perm cmp x sorted s H)].
    constructor. apply IH. exact Hsorted.
Qed.

Lemma sortBy_sorted_id {A : Type} (cmp : A -> A -> Result Z) (l : list A) :
  StronglySorted (fun a b => exists c, cmp a b = Ok c /\ c <= 0) l ->
  NavCommon.sortBy cmp l = Ok l.
Proof.
  induction 1 as [|x rest Hrest IH Hx]; simpl; [reflexivity|].
  rewrite IH. unfold_result. destruct rest as [|y rest']; simpl; [reflexivity|].
  apply Forall_cons in Hx as [[c [-> Hc]] _]. unfold_result.
  destruct (Z.leb_spec c 0); [reflexivity | lia].
Qed.

(** ** [buildNav] once the array of the arc is read *)

Lemma navgen_buildNav_rows (h : Host) (env : Env) (arc : string) (opts : Opts)
    (children : list Node) (m : Json) (items : list Json) :
  let options := assignOptions NavCommon.DEFAULTS opts in
  let cp := NavCommon.getCurrentPathnameNormalized env in
  Navgen.fetchManifest h env (manifestPath options) = Ok m ->
  Navgen.pickArcEntries m arc = Ok (Some items) ->
  items <> [] ->
  Navgen.buildNav h env arc (Some children) opts
  = Some [match (sorted ← NavCommon.sortBy (Navgen.compareEntries h) items;
                 traverse (Navgen.renderRow h options cp) sorted) with
          | Ok rows => Elem "div" "chapter-list" None [] rows
          | Err e => NavCommon.errorNode e
          end].
Proof.
  intros options cp Hfetch Hpick Hne.
  unfold Navgen.buildNav, Navgen.attempt. fold options.
  rewrite Hfetch. unfold_result. rewrite Hpick.
  destruct items as [|e items']; [congruence|].
  cbn [length Nat.eqb].
  destruct (NavCommon.sortBy _ _) as [sorted|err]; [|reflexivity].
  unfold Navgen.renderList. unfold_result. fold cp.
  destruct (traverse _ sorted); reflexivity.
Qed.

Lemma tree_buildNav_rows (h : Host) (env : Env) (arc : string) (opts : Opts)
    (children : list Node) (m : Json) (items : list Json) :
  let options := assignOptions NavCommon.DEFAULTS opts in
  let cp := NavCommon.getCurrentPathnameNormalized env in
  NavgenTree.fetchManifest h env (manifestPath options) = Ok m ->
  NavgenTree.pickArcEntries m arc = Ok (Some items) ->
  items <> [] ->
  arc <> "lore" -> arc <> "characters" ->
  NavgenTree.buildNav h env arc (Some children) opts
  = Some [match (sorted ← NavCommon.sortBy (NavgenTree.compareEntries h) items;
                 traverse (NavgenTree.makeRow h env options cp) sorted) with
          | Ok rows => Elem "div" "chapter-list" None [] rows
          | Err e => NavCommon.errorNode e
          end].
Proof.
  intros options cp Hfetch Hpick Hne Hlore Hchar.
  unfold NavgenTree.buildNav, NavgenTree.attempt. fold options.
  rewrite Hfetch. unfold_result. rewrite Hpick.
  destruct items as [|e items']; [congruence|].
  cbn [length Nat.eqb].
  destruct (NavCommon.sortBy _ _) as [sorted|err]; [|reflexivity].
  apply String.eqb_neq in Hlore, Hchar. rewrite Hlore, Hchar. cbn [orb].
  unfold NavgenTree.renderList. unfold_result. fold cp.
  destruct (traverse _ sorted); reflexivity.
Qed.

(** X5 (the defensive sort keeps a sorted array).  When every entry of the
    array compares at most 0 with every entry after it, as in an array the
    builder has sorted, the sort of [buildNav] returns the array as it is,
    and the list has the rows in the order of the manifest (or the error
    element, when a row cannot be rendered). *)
Theorem sorted_manifest_order_kept (h : Host) (env : Env) (arc : string) (opts : Opts)
    (children : list Node) (m : Json) (items : list Json) :
  let options := assignOptions NavCommon.DEFAULTS opts in
  let cp := NavCommon.getCurrentPathnameNormalized env in
  StronglySorted (fun a b => exists c, Navgen.compareEntries h a b = Ok c /\ c <= 0) items ->
  NavCommon.sortBy (Navgen.compareEntries h) items = Ok items
  /\ (Navgen.fetchManifest h env (manifestPath options) = Ok m ->
      Navgen.pickArcEntries m arc = Ok (Some items) ->
      items <> [] ->
      Navgen.buildNav h env arc (Some children) opts
      = Some [match traverse (Navgen.renderRow h options cp) items with
              | Ok rows => Elem "div" "chapter-list" None [] rows
              | Err e => NavCommon.errorNode e
              end]).
Proof.
  intros options cp Hsorted.
  pose proof (sortBy_sorted_id _ _ Hsorted) as Hid.
  split; [exact Hid|]. intros Hfetch Hpick Hne.
  rewrite (navgen_buildNav_rows h env arc opts children m items Hfetch Hpick Hne).
  rewrite Hid. reflexivity.
Qed.

Lemma sorted_manifest_order_kept_witness :
  let options := assignOptions NavCommon.DEFAULTS noOpts in
  let env := Examples.serve Examples.twins in
  NavCommon.sortBy (Navgen.compareEntries RefHost.host) [Examples.f01; Examples.f01bis]
  = Ok [Examples.f01; Examples.f01bis]
  /\ Navgen.buildNav RefHost.host env "flame" (Some []) noOpts
     = Some [match traverse (Navgen.renderRow RefHost.host options
                               (NavCommon.getCurrentPathnameNormalized env))
                     [Examples.f01; Examples.f01bis] with
             | Ok rows => Elem "div" "chapter-list" None [] rows
             | Err e => NavCommon.errorNode e
             end].
Proof.
  intros options env.
  destruct (sorted_manifest_order_kept RefHost.host env "flame" noOpts [] Examples.twins
              [Examples.f01; Examples.f01bis]) as [Hsort Hnav].
  - repeat constructor. exists 0. split; [reflexivity | lia].
  - split; [exact Hsort|]. apply Hnav; [reflexivity | reflexivity | discriminate].
Defined.

(** X6 (one row per entry).  Whenever [buildNav] ends with the list, its
    rows are the rows of the entries of the array, each entry once, in some
    order: the sort neither drops nor repeats an entry, even for a comparator
    that is inconsistent on the array.  In [js/navgen.js] for every arc, and
    in the tree variant for the arcs shown as a flat list. *)
Theorem list_has_one_row_per_entry (h : Host) (env : Env) (arc : string) (opts : Opts)
    (children : list Node) (m : Json) (items : list Json) (rows : list Node) :
  let options := assignOptions NavCommon.DEFAULTS opts in
  let cp := NavCommon.getCurrentPathnameNormalized env in
  Navgen.pickArcEntries m arc = Ok (Some items) ->
  (Navgen.fetchManifest h env (manifestPath options) = Ok m ->
   Navgen.buildNav h env arc (Some children) opts
     = Some [Elem "div" "chapter-list" None [] rows] ->
   length rows = length items
   /\ exists sorted, Permutation items sorted
        /\ Forall2 (fun e r => Navgen.renderRow h options cp e = Ok r) sorted rows)
  /\ (NavgenTree.fetchManifest h env (manifestPath options) = Ok m ->
      arc <> "lore" -> arc <> "characters" ->
      NavgenTree.buildNav h env arc (Some children) opts
        = Some [Elem "div" "chapter-list" None [] rows] ->
      length rows = length items
      /\ exists sorted, Permutation items sorted
           /\ Forall2 (fun e r => NavgenTree.makeRow h env options cp e = Ok r) sorted rows).
Proof.
  intros options cp Hpick.
  split.
  - intros Hfetch Hnav.
    destruct items as [|e0 items'] eqn:Hitems.
    { exfalso. revert Hnav. unfold Navgen.buildNav, Navgen.attempt. fold options.
      rewrite Hfetch. unfold_result. rewrite Hpick. discriminate. }
    rewrite <- Hitems in *.
    rewrite (navgen_buildNav_rows h env arc opts children m items Hfetch Hpick
               ltac:(congruence)) in Hnav.
    fold options cp in Hnav.
    destruct (NavCommon.sortBy _ items) as [sorted|err] eqn:Hsort; unfold_result;
      [|discriminate].
    destruct (traverse _ sorted) as [rows'|err] eqn:Hrows; [|discriminate].
    injection Hnav as <-.
    apply sortBy_perm in Hsort. apply traverse_Ok_inv in Hrows.
    split; [|exists sorted; split; assumption].
    rewrite <- (Forall2_length _ _ _ Hrows). symmetry. apply Permutation_length. exact Hsort.
  - intros Hfetch Hlore Hchar Hnav.
    destruct items as [|e0 items'] eqn:Hitems.
    { exfalso. revert Hnav. unfold NavgenTree.buildNav, NavgenTree.attempt. fold options.
      rewrite Hfetch. unfold_result.
      change (NavgenTree.pickArcEntries m arc) with (Navgen.pickArcEntries m arc).
      rewrite Hpick. discriminate. }
    rewrite <- Hitems in *.
    rewrite (tree_buildNav_rows h env arc opts children m items Hfetch Hpick
               ltac:(congruence) Hlore Hchar) in Hnav.
    fold options cp in Hnav.
    destruct (NavCommon.sortBy _ items) as [sorted|err] eqn:Hsort; unfold_result;
      [|discriminate].
    destruct (traverse _ sorted) as [rows'|err] eqn:Hrows; [|discriminate].
    injection Hnav as <-.
    apply sortBy_perm in Hsort. apply traverse_Ok_inv in Hrows.
    split; [|exists sorted; split; assumption].
    rewrite <- (Forall2_length _ _ _ Hrows). symmetry. apply Permutation_length. exact Hsort.
Qed.

Lemma list_has_one_row_per_entry_witness :
  let rows :=
    match Navgen.buildNav RefHost.host (Examples.serve Examples.chapters) "flame" (Some [])
            noOpts with
    | Some [Elem _ _ _ _ rows] => rows
    | _ => []
    end in
  length rows = 2%nat.
Proof.
  intros rows.
  destruct (list_has_one_row_per_entry RefHost.host (Examples.serve Examples.chapters)
              "flame" noOpts [] Examples.chapters [Examples.f02; Examples.f01] rows
              eq_refl) as [Hflat _].
  destruct (Hflat eq_refl eq_refl) as [Hlen _]. exact Hlen.
Defined.

(** ** Entries that are [null] *)

Lemma get_error (v : Json) (k : string) (e : Exn) :
  Js.get v k = Err e -> v = JNull /\ e = Js.typeError k.
Proof.
  destruct v; simpl; try discriminate.
  - intros H. injection H as <-. split; reflexivity.
  - destruct (String.eqb k "length"); discriminate.
  - destruct (String.eqb k "length"); discriminate.
Qed.

Lemma navgen_titleKey_error (a : Json) (e : Exn) :
  a <> JNull -> Navgen.titleKey a = Err e -> e = Js.conversionError.
Proof.
  intros Ha. unfold Navgen.titleKey.
  destruct (get_nonnull a "title" Ha) as [tv ->].
  destruct (get_nonnull a "title_text" Ha) as [ttv ->].
  destruct (get_nonnull a "id" Ha) as [iv ->].
  unfold_result.
  destruct (Js.toString _) as [text|err] eqn:Htext; [discriminate|].
  intros H. injection H as <-. eapply toString_error. exact Htext.
Qed.

(** The comparator throws on a read from [null] or on a conversion. *)
Lemma navgen_compare_error (h : Host) (a b : Json) (e : Exn) :
  Navgen.compareEntries h a b = Err e ->
  e = Js.typeError "index" \/ e = Js.conversionError.
Proof.
  unfold Navgen.compareEntries.
  destruct (Js.get a "index") as [ia|ea] eqn:Hia;
    [|apply get_error in Hia as [_ ->]; unfold_result; intros H; injection H as <-;
      left; reflexivity].
  destruct (Js.get b "index") as [ib|eb] eqn:Hib;
    [|apply get_error in Hib as [_ ->]; unfold_result; intros H; injection H as <-;
      left; reflexivity].
  apply get_Ok_nonnull in Hia. apply get_Ok_nonnull in Hib.
  unfold_result. intros H. right.
  assert (Hkeys : match Navgen.titleKey a with
                  | Ok ka => match Navgen.titleKey b with
                             | Ok kb => Ok (localeCompare h ka kb)
                             | Err e => Err e
                             end
                  | Err e => Err e
                  end = Err e).
  { destruct ia as [[| |x| | |]|], ib as [[| |y| | |]|]; try exact H; discriminate. }
  clear H.
  destruct (Navgen.titleKey a) as [ka|erra] eqn:Hka.
  - destruct (Navgen.titleKey b) as [kb|errb] eqn:Hkb; [discriminate|].
    injection Hkeys as <-. exact (navgen_titleKey_error b errb Hib Hkb).
  - injection Hkeys as <-. exact (navgen_titleKey_error a erra Hia Hka).
Qed.

Lemma navgen_compare_nonnull (h : Host) (a b : Json) :
  a <> JNull -> b <> JNull -> Spec.titled a -> Spec.titled b ->
  exists c, Navgen.compareEntries h a b = Ok c.
Proof.
  intros Ha Hb Hta Htb. unfold Navgen.compareEntries.
  rewrite (navgen_titleKey_spec a Ha Hta), (navgen_titleKey_spec b Hb Htb).
  destruct (get_nonnull a "index" Ha) as [ia ->].
  destruct (get_nonnull b "index" Hb) as [ib ->].
  unfold_result.
  destruct ia as [[]|], ib as [[]|]; eexists; reflexivity.
Qed.

Lemma navgen_compare_null_r (h : Host) (a : Json) :
  Navgen.compareEntries h a JNull = Err (Js.typeError "index").
Proof.
  unfold Navgen.compareEntries. destruct a; reflexivity.
Qed.

Lemma navgen_compare_null_l (h : Host) (b : Json) :
  Navgen.compareEntries h JNull b = Err (Js.typeError "index").
Proof. reflexivity. Qed.

Lemma null_in_or_not (l : list Json) : JNull ∈ l \/ Forall (fun e => e <> JNull) l.
Proof.
  induction l as [|x rest [IH|IH]].
  - right. constructor.
  - left. apply elem_of_cons. right. exact IH.
  - destruct x; try (right; constructor; [discriminate | exact IH]).
    left. apply elem_of_cons. left. reflexivity.
Qed.

(** An exception of the sort is one of its comparator. *)
Lemma insertBy_error {A : Type} (cmp : A -> A -> Result Z) (x : A) (s : list A) (e : Exn) :
  NavCommon.insertBy cmp x s = Err e -> exists a b, cmp a b = Err e.
Proof.
  induction s as [|y rest IH]; simpl; [discriminate|].
  destruct (cmp x y) as [c|err] eqn:Hc; unfold_result.
  - destruct (c <=? 0)%Z; [discriminate|].
    destruct (NavCommon.insertBy cmp x rest) as [rest'|err]; [discriminate|].
    intros H. injection H as <-. apply IH. reflexivity.
  - intros H. injection H as <-. exists x, y. exact Hc.
Qed.

Lemma sortBy_error {A : Type} (cmp : A -> A -> Result Z) (l : list A) (e : Exn) :
  NavCommon.sortBy cmp l = Err e -> exists a b, cmp a b = Err e.
Proof.
  induction l as [|x rest IH]; simpl; [discriminate|].
  destruct (NavCommon.sortBy cmp rest) as [sorted|err]; unfold_result.
  - apply insertBy_error.
  - intros H. injection H as <-. apply IH. reflexivity.
Qed.

(** The sort of an array that holds a [null] and another element throws. *)
Lemma sortBy_null_throws (h : Host) (l : list Json) :
  JNull ∈ l -> (2 <= length l)%nat ->
  exists e, NavCommon.sortBy (Navgen.compareEntries h) l = Err e.
Proof.
  induction l as [|x rest IH]; intros Hin Hlen; [inversion Hin|].
  cbn [NavCommon.sortBy].
  destruct (NavCommon.sortBy (Navgen.compareEntries h) rest) as [sorted|err] eqn:Hsort;
    unfold_result; [|eexists; reflexivity].
  pose proof (sortBy_perm _ _ _ Hsort) as Hperm.
  destruct sorted as [|y sorted'].
  { apply Permutation_length in Hperm. simpl in *. lia. }
  cbn [NavCommon.insertBy].
  apply elem_of_cons in Hin as [<-|Hin].
  - rewrite navgen_compare_null_l. eexists. reflexivity.
  - destruct rest as [|z [|w rest']]; [inversion Hin | |].
    + apply list_elem_of_singleton in Hin. subst z.
      apply Permutation_singleton_l in Hperm. injection Hperm as <- <-.
      rewrite navgen_compare_null_r. eexists. reflexivity.
    + destruct (IH Hin ltac:(simpl; lia)) as [e He]. congruence.
Qed.

Lemma sortBy_null (h : Host) (l : list Json) :
  JNull ∈ l -> (2 <= length l)%nat -> Forall Spec.titled l ->
  NavCommon.sortBy (Navgen.compareEntries h) l = Err (Js.typeError "index").
Proof.
  induction l as [|x rest IH]; intros Hin Hlen Htitled; [inversion Hin|].
  apply Forall_cons in Htitled as [Hx Htitled].
  cbn [NavCommon.sortBy].
  destruct (null_in_or_not rest) as [Hrest|Hnn].
  - destruct rest as [|y [|z rest']]; [inversion Hrest | |].
    + apply list_elem_of_singleton in Hrest. subst y.
      change (NavCommon.sortBy (Navgen.compareEntries h) [JNull]) with (Ok [JNull]).
      unfold_result. cbn [NavCommon.insertBy]. unfold_result.
      rewrite navgen_compare_null_r. reflexivity.
    + rewrite IH; [reflexivity | exact Hrest | simpl; lia | exact Htitled].
  - apply elem_of_cons in Hin as [<-|Hin];
      [|rewrite Forall_forall in Hnn; exfalso; exact (Hnn _ Hin eq_refl)].
    destruct (sortBy_sorted (Navgen.compareEntries h)
                (fun e => e <> JNull /\ Spec.titled e)
                (fun _ _ => True)) with (l := rest) as [s [Hs [Hperm _]]].
    + intros a b [Ha Hta] [Hb Htb].
      destruct (navgen_compare_nonnull h a b Ha Hb Hta Htb) as [c ->].
      exists c. repeat split.
    + intros; exact I.
    + rewrite Forall_forall in Hnn, Htitled |- *. intros e He.
      split; [apply Hnn | apply Htitled]; exact He.
    + rewrite Hs. unfold_result. destruct s as [|y s'].
      * apply Permutation_length in Hperm. simpl in *. lia.
      * cbn [NavCommon.insertBy]. rewrite navgen_compare_null_l. reflexivity.
Qed.

(** X7 (a [null] entry fails the whole navigation).  When the array of the
    arc holds a [null], [buildNav] renders no row at all: the mount holds
    the error element alone.  When the title value of every entry can be
    converted to a string, its message is that of the [TypeError] thrown by
    the first read from [null], which is the read of [index] in the sort
    when the array has two entries or more, and the read of [output]
    otherwise; when some title value cannot, the message may be that of
    the conversion instead.  Both variants, for every arc. *)
Theorem null_entry_fails (h : Host) (env : Env) (arc : string) (opts : Opts)
    (children : list Node) (m : Json) (items : list Json) :
  let options := assignOptions NavCommon.DEFAULTS opts in
  let err := Js.typeError (if (2 <=? length items)%nat then "index" else "output") in
  let fails (mount : option (list Node)) :=
    (mount = Some [NavCommon.errorNode err]
     \/ mount = Some [NavCommon.errorNode Js.conversionError])
    /\ (Forall Spec.titled items -> mount = Some [NavCommon.errorNode err]) in
  Navgen.pickArcEntries m arc = Ok (Some items) ->
  JNull ∈ items ->
  (Navgen.fetchManifest h env (manifestPath options) = Ok m ->
   fails (Navgen.buildNav h env arc (Some children) opts))
  /\ (NavgenTree.fetchManifest h env (manifestPath options) = Ok m ->
      fails (NavgenTree.buildNav h env arc (Some children) opts)).
Proof.
  intros options err fails Hpick Hin.
  assert (Hcases : (2 <= length items)%nat \/ items = [JNull]).
  { destruct items as [|x [|y rest]]; [inversion Hin | right | left; simpl; lia].
    apply list_elem_of_singleton in Hin. congruence. }
  assert (Hsort : (2 <= length items)%nat ->
            err = Js.typeError "index"
            /\ (length items =? 0)%nat = false
            /\ (NavCommon.sortBy (Navgen.compareEntries h) items = Err err
                \/ NavCommon.sortBy (Navgen.compareEntries h) items
                   = Err Js.conversionError)
            /\ (Forall Spec.titled items ->
                NavCommon.sortBy (Navgen.compareEntries h) items = Err err)).
  { intros Hlen. unfold err. destruct (Nat.leb_spec 2 (length items)); [|lia].
    split; [reflexivity|]. split; [destruct items; [inversion Hin | reflexivity]|].
    split; [|apply sortBy_null; assumption].
    destruct (sortBy_null_throws h items Hin Hlen) as [e He]. rewrite He.
    destruct (sortBy_error _ _ _ He) as [a [b Hab]].
    apply navgen_compare_error in Hab as [-> | ->]; [left | right]; reflexivity. }
  split; intros Hfetch.
  - unfold fails, Navgen.buildNav, Navgen.attempt. fold options.
    rewrite Hfetch. unfold_result. rewrite Hpick.
    destruct Hcases as [Hlen | ->].
    + destruct (Hsort Hlen) as [_ [-> [Hthrown Htitled]]].
      split; [destruct Hthrown as [-> | ->]; [left | right]; reflexivity|].
      intros Ht. rewrite (Htitled Ht). reflexivity.
    + split; [left; reflexivity | intros _; reflexivity].
  - unfold fails, NavgenTree.buildNav, NavgenTree.attempt. fold options.
    rewrite Hfetch. unfold_result.
    change (NavgenTree.pickArcEntries m arc) with (Navgen.pickArcEntries m arc).
    rewrite Hpick.
    change (NavgenTree.compareEntries h) with (Navgen.compareEntries h).
    destruct Hcases as [Hlen | ->].
    + destruct (Hsort Hlen) as [_ [-> [Hthrown Htitled]]].
      split; [destruct Hthrown as [-> | ->]; [left | right]; reflexivity|].
      intros Ht. rewrite (Htitled Ht). reflexivity.
    + cbn. destruct (String.eqb arc "lore" || String.eqb arc "characters");
        (split; [left; reflexivity | intros _; reflexivity]).
Qed.

Lemma null_entry_fails_witness :
  let m := Examples.manifestOf 2 [("flame", JArr [Examples.f01; JNull; Examples.f02])] in
  Navgen.buildNav RefHost.host (Examples.serve m) "flame" (Some []) noOpts
  = Some [Elem "div" "nav-error"
            (Some "Couldn’t load chapters. Cannot read properties of null (reading 'index')")
            [] []].
Proof.
  intros m.
  destruct (null_entry_fails RefHost.host (Examples.serve m) "flame" noOpts [] m
              [Examples.f01; JNull; Examples.f02] eq_refl) as [Hflat _].
  - apply elem_of_cons. right. apply elem_of_cons. left. reflexivity.
  - destruct (Hflat eq_refl) as [_ Htitled]. apply Htitled. repeat constructor.
Defined.

(** ** What the page shows when there is nothing to list *)

(** X8 (a response that is not OK is reported with its status).  When the
    fetch of the manifest answers with a response whose [ok] is false,
    [buildNav] leaves the error element alone in the mount, its text naming
    the status code and the status text; the body of the response is not
    read.  Both variants, each with the URL it resolves. *)
Theorem http_error_is_reported (h : Host) (env : Env) (arc : string) (opts : Opts)
    (children : list Node) (url : string) (res : Response) :
  let options := assignOptions NavCommon.DEFAULTS opts in
  let shown :=
    Some [Elem "div" "nav-error"
            (Some ("Couldn’t load chapters. Failed to load manifest ("
                   +:+ Str.ofZ (res_status res) +:+ " " +:+ res_statusText res +:+ ")"))
            [] []] in
  fetch env url = Ok res ->
  res_ok res = false ->
  (resolveUrl h (manifestPath options) (document_baseURI env) = Ok url ->
   Navgen.buildNav h env arc (Some children) opts = shown)
  /\ (resolveUrl h (manifestPath options) (NavgenTree.getSiteBase env) = Ok url ->
      NavgenTree.buildNav h env arc (Some children) opts = shown).
Proof.
  intros options shown Hfetch Hok. split; intros Hurl.
  - unfold Navgen.buildNav, Navgen.attempt, Navgen.fetchManifest, NavCommon.fetchJson.
    fold options. rewrite Hurl. unfold_result. rewrite Hfetch, Hok. reflexivity.
  - unfold NavgenTree.buildNav, NavgenTree.attempt, NavgenTree.fetchManifest,
      NavgenTree.toAbsoluteFromSiteBase, NavCommon.fetchJson.
    fold options. rewrite Hurl. unfold_result. rewrite Hfetch, Hok. reflexivity.
Qed.

Lemma http_error_is_reported_witness :
  let env := mkEnv "/STORYHUB/flame.html" "https://example.org"
               "https://example.org/STORYHUB/flame.html"
               (fun _ => Ok (mkResponse false 404 "Not Found" (Ok Examples.chapters))) in
  Navgen.buildNav RefHost.host env "flame" (Some []) noOpts
  = Some [Elem "div" "nav-error"
            (Some "Couldn’t load chapters. Failed to load manifest (404 Not Found)") [] []].
Proof.
  intros env.
  destruct (http_error_is_reported RefHost.host env "flame" noOpts []
              "https://example.org/STORYHUB/manifest.json"
              (mkResponse false 404 "Not Found" (Ok Examples.chapters)) eq_refl eq_refl)
    as [Hflat _].
  exact (Hflat eq_refl).
Defined.

(** X9 (an empty arc shows the empty message).  When the array of the arc
    is empty, [buildNav] leaves one [nav-empty] element in the mount, with
    the caller's [emptyMessage] when [opts] sets one and "No chapters yet."
    otherwise; the tree variant does so for [lore] and [characters] too,
    without building a tree. *)
Theorem empty_arc_shows_message (h : Host) (env : Env) (arc : string) (opts : Opts)
    (children : list Node) (m : Json) :
  let options := assignOptions NavCommon.DEFAULTS opts in
  let shown :=
    Some [Elem "div" "nav-empty"
            (Some (default "No chapters yet." (opt_emptyMessage opts))) [] []] in
  Navgen.pickArcEntries m arc = Ok (Some []) ->
  (Navgen.fetchManifest h env (manifestPath options) = Ok m ->
   Navgen.buildNav h env arc (Some children) opts = shown)
  /\ (NavgenTree.fetchManifest h env (manifestPath options) = Ok m ->
      NavgenTree.buildNav h env arc (Some children) opts = shown).
Proof.
  intros options shown Hpick. split; intros Hfetch.
  - unfold Navgen.buildNav, Navgen.attempt. fold options.
    rewrite Hfetch. unfold_result. rewrite Hpick. reflexivity.
  - unfold NavgenTree.buildNav, NavgenTree.attempt. fold options.
    rewrite Hfetch. unfold_result.
    change (NavgenTree.pickArcEntries m arc) with (Navgen.pickArcEntries m arc).
    rewrite Hpick. reflexivity.
Qed.

Lemma empty_arc_shows_message_witness :
  let m := Examples.manifestOf 2 [("lore", JArr [])] in
  NavgenTree.buildNav RefHost.host (Examples.serve m) "lore" (Some [])
    (mkOpts None None None (Some "Nothing here.") None)
  = Some [Elem "div" "nav-empty" (Some "Nothing here.") [] []].
Proof.
  intros m.
  destruct (empty_arc_shows_message RefHost.host (Examples.serve m) "lore"
              (mkOpts None None None (Some "Nothing here.") None) [] m eq_refl)
    as [_ Htree].
  exact (Htree eq_refl).
Defined.

(** ** Badges *)

Lemma badges_without_counts (h : Host) (options : Options) (e : Json) (cv : JsVal) :
  Js.get e "counts" = Ok cv -> Js.truthy cv = false ->
  NavCommon.badges h options e = Ok [].
Proof.
  intros Hget Hfalsy. unfold NavCommon.badges. rewrite Hget. unfold_result.
  assert (Hobj : NavCommon.orEmptyObject cv = JObj []).
  { unfold NavCommon.orEmptyObject. destruct cv; [rewrite Hfalsy|]; reflexivity. }
  rewrite Hobj. cbn. rewrite Hfalsy.
  destruct (showCounts options), (showMissingBadge options); reflexivity.
Qed.

Lemma rowAnchor_shape (href output cp : string) :
  exists cls attrs, NavCommon.rowAnchor href output cp = Elem "a" cls None attrs [].
Proof.
  unfold NavCommon.rowAnchor.
  destruct (Str.nonempty output && Str.endsWith cp output); eexists; eexists; reflexivity.
Qed.

(** X10 (no counts, no badges).  For an entry whose [counts] is missing or
    falsy, as the character and lore entries of the builder, the row ends
    with an empty [chapter-right] element whatever [showCounts] and
    [showMissingBadge] are.  Both variants. *)
Theorem entry_without_counts_has_no_badge (h : Host) (env : Env) (options : Options)
    (cp : string) (e : Json) (cv : JsVal) (r : Node) :
  Js.get e "counts" = Ok cv ->
  Js.truthy cv = false ->
  Navgen.renderRow h options cp e = Ok r \/ NavgenTree.makeRow h env options cp e = Ok r ->
  exists cls attrs left,
    r = Elem "a" cls None attrs [left; Elem "div" "chapter-right" None [] []].
Proof.
  intros Hget Hfalsy Hrow.
  pose proof (badges_without_counts h options e cv Hget Hfalsy) as Hb.
  destruct Hrow as [Hrow|Hrow].
  - unfold Navgen.renderRow in Hrow.
    apply bind_Ok_inv in Hrow as [ov [_ Hrow]].
    apply bind_Ok_inv in Hrow as [output [_ Hrow]].
    apply bind_Ok_inv in Hrow as [tv [_ Hrow]].
    apply bind_Ok_inv in Hrow as [ttv [_ Hrow]].
    apply bind_Ok_inv in Hrow as [iv [_ Hrow]].
    apply bind_Ok_inv in Hrow as [titleText [_ Hrow]].
    apply bind_Ok_inv in Hrow as [meta [_ Hrow]].
    rewrite Hb in Hrow. unfold_result. injection Hrow as <-.
    destruct (rowAnchor_shape output output cp) as [cls [attrs ->]].
    eexists; eexists; eexists; reflexivity.
  - unfold NavgenTree.makeRow in Hrow.
    apply bind_Ok_inv in Hrow as [ov [_ Hrow]].
    apply bind_Ok_inv in Hrow as [output [_ Hrow]].
    apply bind_Ok_inv in Hrow as [href [_ Hrow]].
    apply bind_Ok_inv in Hrow as [leaf [_ Hrow]].
    apply bind_Ok_inv in Hrow as [tv [_ Hrow]].
    apply bind_Ok_inv in Hrow as [ttv [_ Hrow]].
    apply bind_Ok_inv in Hrow as [iv [_ Hrow]].
    apply bind_Ok_inv in Hrow as [shown [_ Hrow]].
    apply bind_Ok_inv in Hrow as [meta [_ Hrow]].
    rewrite Hb in Hrow. unfold_result. injection Hrow as <-.
    destruct (rowAnchor_shape href output cp) as [cls [attrs ->]].
    eexists; eexists; eexists; reflexivity.
Qed.

Lemma entry_without_counts_has_no_badge_witness :
  exists cls attrs left,
    match Navgen.renderRow RefHost.host NavCommon.DEFAULTS "/STORYHUB/characters.html"
            Examples.lucy with
    | Ok r => r
    | Err _ => Elem "" "" None [] []
    end = Elem "a" cls None attrs [left; Elem "div" "chapter-right" None [] []].
Proof.
  apply (entry_without_counts_has_no_badge RefHost.host (Examples.serve Examples.cast)
           NavCommon.DEFAULTS "/STORYHUB/characters.html" Examples.lucy None);
    [reflexivity | reflexivity | left; reflexivity].
Defined.

(** ** The folder tree *)

Lemma Tree_nested_ind (P : Tree -> Prop) :
  (forall folders pages, Forall (fun kc => P (snd kc)) folders -> P (TreeNode folders pages)) ->
  forall t, P t.
Proof.
  intros Hnode. fix IH 1. intros [folders pages]. apply Hnode.
  induction folders as [|[k c] rest IHrest]; constructor; [apply IH | exact IHrest].
Qed.

Lemma descend_keys (folder : string) (f : Tree -> Tree) (folders : list (string * Tree)) :
  ((folder ∈ map fst folders)
   /\ map fst (NavgenTree.descend folder f folders) = map fst folders)
  \/ ((folder ∉ map fst folders)
      /\ map fst (NavgenTree.descend folder f folders) = map fst folders ++ [folder]).
Proof.
  induction folders as [|[k c] rest IH]; simpl.
  - right. split; [apply not_elem_of_nil | reflexivity].
  - destruct (String.eqb_spec k folder) as [->|Hne].
    + left. split; [apply elem_of_cons; left; reflexivity | reflexivity].
    + destruct IH as [[Hin Heq]|[Hnotin Heq]]; simpl; rewrite Heq.
      * left. split; [apply elem_of_cons; right; exact Hin | reflexivity].
      * right. split; [|reflexivity].
        intros Hin. apply elem_of_cons in Hin as [Heq'|Hin]; [congruence | contradiction].
Qed.

Lemma descend_Forall (Q : Tree -> Prop) (folder : string) (f : Tree -> Tree)
    (folders : list (string * Tree)) :
  (forall c, Q c -> Q (f c)) -> Q NavgenTree.emptyTree ->
  Forall (fun kc => Q (snd kc)) folders ->
  Forall (fun kc => Q (snd kc)) (NavgenTree.descend folder f folders).
Proof.
  intros Hf Hempty. induction 1 as [|[k c] rest Hc Hrest IH]; simpl.
  - constructor; [apply Hf, Hempty | constructor].
  - simpl in Hc. destruct (String.eqb k folder).
    + constructor; [apply Hf, Hc | exact Hrest].
    + constructor; [exact Hc | exact IH].
Qed.

Lemma descend_pages (folder : string) (f : Tree -> Tree) (e : Json)
    (folders : list (string * Tree)) :
  (forall c, Permutation (TreeView.allPages (f c)) (e :: TreeView.allPages c)) ->
  Permutation
    (concat (map (fun kc => TreeView.allPages (snd kc)) (NavgenTree.descend folder f folders)))
    (e :: concat (map (fun kc => TreeView.allPages (snd kc)) folders)).
Proof.
  intros Hf. induction folders as [|[k c] rest IH]; simpl.
  - rewrite app_nil_r. exact (Hf NavgenTree.emptyTree).
  - destruct (String.eqb k folder); simpl.
    + rewrite (Hf c). reflexivity.
    + rewrite IH. symmetry. apply Permutation_middle.
Qed.

Lemma pushAt_pages (parts : list string) (e : Json) (t : Tree) :
  Permutation (TreeView.allPages (NavgenTree.pushAt parts e t)) (e :: TreeView.allPages t).
Proof.
  revert t. induction parts as [|folder rest IH]; intros [folders pages]; simpl.
  - rewrite <- app_assoc. simpl. symmetry. apply Permutation_middle.
  - rewrite (descend_pages folder (NavgenTree.pushAt rest e) e folders IH).
    symmetry. apply Permutation_middle.
Qed.

Lemma emptyTree_keysUnique : TreeView.keysUnique NavgenTree.emptyTree.
Proof. constructor; constructor. Qed.

Lemma pushAt_keysUnique (parts : list string) (e : Json) (t : Tree) :
  TreeView.keysUnique t -> TreeView.keysUnique (NavgenTree.pushAt parts e t).
Proof.
  revert t. induction parts as [|folder rest IH]; intros [folders pages] Ht;
    inversion Ht as [? ? Hnd Hch]; subst; simpl.
  - constructor; assumption.
  - constructor.
    + destruct (descend_keys folder (NavgenTree.pushAt rest e) folders)
        as [[_ ->]|[Hnotin ->]]; [exact Hnd|].
      apply NoDup_app. split; [exact Hnd|]. split.
      * intros x Hx Hx'. apply list_elem_of_singleton in Hx'. subst x. contradiction.
      * apply NoDup_singleton.
    + apply descend_Forall; [exact IH | exact emptyTree_keysUnique | exact Hch].
Qed.

(** The empty case of the loop body pushes at the root, as the walk along
    no folder does. *)
Lemma addEntry_pushAt (arc : string) (root root' : Tree) (entry : Json) :
  NavgenTree.addEntry arc root entry = Ok root' ->
  exists outV rel path,
    Js.get entry "output" = Ok outV
    /\ NavgenTree.stripArcFromOutput outV arc = Ok rel
    /\ NavCommon.normalizePath (Some (JStr rel)) = Ok path
    /\ root' = NavgenTree.pushAt
                 (removelast (filter (fun p => Str.nonempty p = true) (Str.split path "/")))
                 entry root.
Proof.
  unfold NavgenTree.addEntry. intros H.
  apply bind_Ok_inv in H as [outV [Hout H]].
  apply bind_Ok_inv in H as [rel [Hrel H]].
  apply bind_Ok_inv in H as [path [Hpath H]].
  exists outV, rel, path. repeat (split; [assumption|]).
  destruct (filter _ _) as [|p parts]; injection H as <-; reflexivity.
Qed.

Lemma buildTree_from_spec (arc : string) (entries : list Json) (root t : Tree) :
  NavgenTree.buildTree_from arc root entries = Ok t ->
  Permutation (TreeView.allPages t) (TreeView.allPages root ++ entries)
  /\ (TreeView.keysUnique root -> TreeView.keysUnique t)
  /\ Forall (fun e => e <> JNull) entries.
Proof.
  revert root. induction entries as [|e rest IH]; simpl; intros root H.
  - injection H as <-. rewrite app_nil_r. repeat split; auto.
  - apply bind_Ok_inv in H as [root' [Hadd H]].
    destruct (IH root' H) as [Hperm [Hkeys Hnn]].
    pose proof Hadd as Hadd'.
    apply addEntry_pushAt in Hadd' as [outV [rel [path [Hout [_ [_ ->]]]]]].
    split; [|split].
    + etransitivity; [exact Hperm|].
      etransitivity; [apply Permutation_app_tail, pushAt_pages|].
      apply Permutation_middle.
    + intros Hroot. apply Hkeys, pushAt_keysUnique, Hroot.
    + constructor; [eapply get_Ok_nonnull; exact Hout | exact Hnn].
Qed.

(** ** [sortNode] *)

Lemma sortNode_eq (h : Host) (folders : list (string * Tree)) (pages : list Json) :
  NavgenTree.sortNode h (TreeNode folders pages)
  = (pages' ← NavCommon.sortBy (NavgenTree.comparePages h) pages;
     children ← traverse (TreeView.sortChild h) folders;
     newMap ← NavCommon.sortBy (NavgenTree.compareFolders h) children;
     mret (TreeNode newMap pages')).
Proof.
  cbn [NavgenTree.sortNode].
  destruct (NavCommon.sortBy (NavgenTree.comparePages h) pages) as [pages'|err];
    unfold_result; [|reflexivity].
  match goal with
  | |- match ?X with Ok _ => _ | Err _ => _ end = _ =>
      assert (Heach : X = traverse (TreeView.sortChild h) folders)
  end.
  { induction folders as [|[k c] rest IH]; [reflexivity|].
    cbn [traverse]. unfold_result. rewrite <- IH.
    unfold TreeView.sortChild. cbn [fst snd]. unfold_result.
    destruct (NavgenTree.sortNode h c); reflexivity. }
  rewrite Heach. reflexivity.
Qed.

Lemma Permutation_concat_map {A B : Type} (f : A -> list B) (l l' : list A) :
  Permutation l l' -> Permutation (concat (map f l)) (concat (map f l')).
Proof.
  induction 1; simpl.
  - reflexivity.
  - apply Permutation_app_head. assumption.
  - rewrite !app_assoc. apply Permutation_app_tail. apply Permutation_app_comm.
  - etransitivity; eassumption.
Qed.

Lemma sortNode_inv (h : Host) (folders : list (string * Tree)) (pages : list Json) (t' : Tree) :
  NavgenTree.sortNode h (TreeNode folders pages) = Ok t' ->
  exists pages' children newMap,
    t' = TreeNode newMap pages'
    /\ Permutation pages pages'
    /\ Forall2 (fun kc kc' => fst kc' = fst kc /\ NavgenTree.sortNode h (snd kc) = Ok (snd kc'))
         folders children
    /\ Permutation children newMap.
Proof.
  rewrite sortNode_eq. intros H.
  apply bind_Ok_inv in H as [pages' [Hpages H]].
  apply bind_Ok_inv in H as [children [Hch H]].
  apply bind_Ok_inv in H as [newMap [Hmap H]].
  injection H as <-. exists pages', children, newMap.
  split; [reflexivity|]. split; [apply sortBy_perm in Hpages; exact Hpages|].
  split; [|apply sortBy_perm in Hmap; exact Hmap].
  apply traverse_Ok_inv in Hch.
  eapply Forall2_impl; [exact Hch|].
  intros [k c] [k' c']. unfold TreeView.sortChild. simpl. intros Hkc.
  apply bind_Ok_inv in Hkc as [c'' [Hc Hkc]]. injection Hkc as <- <-. auto.
Qed.

Lemma sortNode_spec (h : Host) (t t' : Tree) :
  NavgenTree.sortNode h t = Ok t' ->
  Permutation (TreeView.allPages t') (TreeView.allPages t)
  /\ (TreeView.keysUnique t -> TreeView.keysUnique t').
Proof.
  revert t'. induction t as [folders pages IH] using Tree_nested_ind. intros t' H.
  apply sortNode_inv in H as [pages' [children [newMap [-> [Hpages [Hch Hmap]]]]]].
  assert (Hpagesc :
    Permutation (concat (map (fun kc => TreeView.allPages (snd kc)) children))
      (concat (map (fun kc => TreeView.allPages (snd kc)) folders))).
  { clear Hmap. induction Hch as [|[k c] [k' c'] rest rest' [_ Hc] _ IHch]; simpl;
      [reflexivity|].
    apply Forall_cons in IH as [IHc IHrest]. simpl in *.
    apply Permutation_app; [exact (proj1 (IHc c' Hc)) | exact (IHch IHrest)]. }
  split.
  - simpl. rewrite <- Hpages.
    rewrite <- (Permutation_concat_map _ children newMap Hmap), Hpagesc. reflexivity.
  - intros Ht. inversion Ht as [? ? Hnd Hu]; subst. clear Ht.
    assert (Hkeys : map fst children = map fst folders).
    { clear -Hch. induction Hch as [|[k c] [k' c'] rest rest' [Hk _] _ IHch];
        [reflexivity|]. simpl in *. congruence. }
    assert (Hchu : Forall (fun kc => TreeView.keysUnique (snd kc)) children).
    { clear -Hch IH Hu.
      induction Hch as [|[k c] [k' c'] rest rest' [_ Hc] _ IHch]; [constructor|].
      apply Forall_cons in IH as [IHc IHrest]. apply Forall_cons in Hu as [Hcu Hrestu].
      constructor; [exact (proj2 (IHc c' Hc) Hcu) | exact (IHch IHrest Hrestu)]. }
    constructor.
    + rewrite <- Hmap, Hkeys. exact Hnd.
    + rewrite <- Hmap. exact Hchu.
Qed.

(** X11 (the tree holds every entry once).  The tree [buildTree] makes of
    an array holds the entries of the array, each once, and [sortNode]
    keeps them: no entry is dropped or listed in two folders. *)
Theorem tree_holds_every_entry_once (h : Host) (arc : string) (entries : list Json)
    (t t' : Tree) :
  NavgenTree.buildTree entries arc = Ok t ->
  Permutation (TreeView.allPages t) entries
  /\ (NavgenTree.sortNode h t = Ok t' -> Permutation (TreeView.allPages t') entries).
Proof.
  intros Hbuild. apply buildTree_from_spec in Hbuild as [Hperm _].
  simpl in Hperm. split; [exact Hperm|].
  intros Hsort. apply sortNode_spec in Hsort as [Hperm' _].
  etransitivity; eassumption.
Qed.

(** X12 (a folder map holds a key once).  In the tree [buildTree] makes,
    and in the tree [sortNode] makes of it, no node has two folders of the
    same name: an entry whose folder exists already goes into that folder. *)
Theorem tree_folder_keys_unique (h : Host) (arc : string) (entries : list Json)
    (t t' : Tree) :
  NavgenTree.buildTree entries arc = Ok t ->
  TreeView.keysUnique t
  /\ (NavgenTree.sortNode h t = Ok t' -> TreeView.keysUnique t').
Proof.
  intros Hbuild. apply buildTree_from_spec in Hbuild as [_ [Hkeys _]].
  specialize (Hkeys emptyTree_keysUnique). split; [exact Hkeys|].
  intros Hsort. apply sortNode_spec in Hsort as [_ Hkeys']. auto.
Qed.

Lemma tree_holds_every_entry_once_witness :
  let entries := [Examples.lucy; Examples.zed; Examples.abe] in
  let t := match NavgenTree.buildTree entries "characters" with
           | Ok t => t
           | Err _ => NavgenTree.emptyTree
           end in
  let t' := match NavgenTree.sortNode RefHost.host t with
            | Ok t' => t'
            | Err _ => NavgenTree.emptyTree
            end in
  Permutation (TreeView.allPages t) entries /\ Permutation (TreeView.allPages t') entries.
Proof.
  intros entries t t'.
  destruct (tree_holds_every_entry_once RefHost.host "characters" entries t t' eq_refl)
    as [Hbuilt Hsorted].
  split; [exact Hbuilt | exact (Hsorted eq_refl)].
Defined.

Lemma tree_folder_keys_unique_witness :
  let entries := [Examples.lucy; Examples.zed; Examples.abe] in
  let t := match NavgenTree.buildTree entries "characters" with
           | Ok t => t
           | Err _ => NavgenTree.emptyTree
           end in
  let t' := match NavgenTree.sortNode RefHost.host t with
            | Ok t' => t'
            | Err _ => NavgenTree.emptyTree
            end in
  TreeView.keysUnique t /\ TreeView.keysUnique t'.
Proof.
  intros entries t t'.
  destruct (tree_folder_keys_unique RefHost.host "characters" entries t t' eq_refl)
    as [Hbuilt Hsorted].
  split; [exact Hbuilt | exact (Hsorted eq_refl)].
Defined.

(** ** Where [buildTree] puts an entry *)

Lemma folderGet_descend_same (folder : string) (f : Tree -> Tree)
    (folders : list (string * Tree)) :
  TreeView.folderGet folder (NavgenTree.descend folder f folders)
  = Some (f (default NavgenTree.emptyTree (TreeView.folderGet folder folders))).
Proof.
  induction folders as [|[k c] rest IH]; simpl.
  - rewrite String.eqb_refl. reflexivity.
  - destruct (String.eqb k folder) eqn:Hk; simpl; rewrite Hk; [reflexivity | exact IH].
Qed.

Lemma folderGet_descend_other (folder other : string) (f : Tree -> Tree)
    (folders : list (string * Tree)) :
  other <> folder ->
  TreeView.folderGet other (NavgenTree.descend folder f folders)
  = TreeView.folderGet other folders.
Proof.
  intros Hne. induction folders as [|[k c] rest IH]; simpl.
  - destruct (String.eqb_spec folder other); [congruence | reflexivity].
  - destruct (String.eqb_spec k folder) as [->|Hk]; simpl.
    + destruct (String.eqb_spec folder other); [congruence | reflexivity].
    + rewrite IH. reflexivity.
Qed.

Lemma pagesAt_emptyTree (path : list string) : TreeView.pagesAt path NavgenTree.emptyTree = [].
Proof. destruct path; reflexivity. Qed.

Lemma pagesAt_cons (folder : string) (rest : list string) (folders : list (string * Tree))
    (pages : list Json) :
  TreeView.pagesAt (folder :: rest) (TreeNode folders pages)
  = TreeView.pagesAt rest (default NavgenTree.emptyTree (TreeView.folderGet folder folders)).
Proof.
  unfold TreeView.pagesAt. simpl. destruct (TreeView.folderGet folder folders); simpl.
  - reflexivity.
  - destruct rest; reflexivity.
Qed.

Lemma pushAt_pagesAt (path : list string) (e : Json) (t : Tree) :
  TreeView.pagesAt path (NavgenTree.pushAt path e t) = TreeView.pagesAt path t ++ [e].
Proof.
  revert t. induction path as [|folder rest IH]; intros [folders pages].
  - reflexivity.
  - cbn [NavgenTree.pushAt]. rewrite !pagesAt_cons, folderGet_descend_same.
    cbn [default]. apply IH.
Qed.

Lemma pushAt_pagesAt_other (path other : list string) (e : Json) (t : Tree) :
  other <> path ->
  TreeView.pagesAt other (NavgenTree.pushAt path e t) = TreeView.pagesAt other t.
Proof.
  revert other t. induction path as [|folder rest IH]; intros other [folders pages] Hne.
  - destruct other as [|f' r']; [congruence|].
    cbn [NavgenTree.pushAt]. rewrite !pagesAt_cons. reflexivity.
  - destruct other as [|f' r']; [reflexivity|].
    cbn [NavgenTree.pushAt]. rewrite !pagesAt_cons.
    destruct (String.eqb_spec f' folder) as [->|Hf].
    + rewrite folderGet_descend_same. cbn [default]. apply IH. congruence.
    + rewrite folderGet_descend_other by exact Hf. reflexivity.
Qed.

(** ** [sortNode] on a tree of entries that have a leaf title *)

Lemma comparePages_nonnull (h : Host) (a b : Json) :
  Spec.hasLeafTitle a -> Spec.hasLeafTitle b ->
  NavgenTree.comparePages h a b
  = Ok (localeCompare h (TreeView.pageLabel a) (TreeView.pageLabel b)).
Proof.
  intros [Ha [Hta Hoa]] [Hb [Htb Hob]].
  unfold NavgenTree.comparePages, TreeView.pageLabel.
  destruct (leafTitle_total a Ha Hta Hoa) as [la ->].
  destruct (leafTitle_total b Hb Htb Hob) as [lb ->]. reflexivity.
Qed.

(** The entries [buildTree] has placed have an [output] that can be
    converted. *)
Lemma buildTree_from_outputs (arc : string) (entries : list Json) (root t : Tree) :
  NavgenTree.buildTree_from arc root entries = Ok t ->
  Forall (fun e => Js.printableV (Spec.prop (Some e) "output") = true) entries.
Proof.
  revert root.
  induction entries as [|e rest IH]; cbn [NavgenTree.buildTree_from]; intros root H;
    [constructor|].
  apply bind_Ok_inv in H as [root' [Hadd H]].
  constructor; [|exact (IH root' H)].
  apply addEntry_pushAt in Hadd as [outV [rel [path [Hout [Hrel _]]]]].
  cbv beta. rewrite (prop_get e "output" outV Hout).
  unfold NavgenTree.stripArcFromOutput in Hrel.
  apply bind_Ok_inv in Hrel as [out [Hnorm _]].
  exact (normalizePath_Ok_printable outV out Hnorm).
Qed.

Lemma sortNode_sorted (h : Host) (t : Tree) :
  ConsistentCollation h ->
  Forall Spec.hasLeafTitle (TreeView.allPages t) ->
  exists t', NavgenTree.sortNode h t = Ok t' /\ TreeView.sortedTree h t'.
Proof.
  intros Hcoll. induction t as [folders pages IH] using Tree_nested_ind. intros Hnn.
  cbn [TreeView.allPages] in Hnn. apply Forall_app in Hnn as [Hpages Hrest].
  rewrite sortNode_eq.
  destruct (sortBy_sorted (NavgenTree.comparePages h) Spec.hasLeafTitle
              (TreeView.pageLe h)) with (l := pages) as [pages' [-> [_ [Hsorted _]]]].
  { intros x y Hx Hy. rewrite (comparePages_nonnull h x y Hx Hy).
    eexists; split; [reflexivity|]. unfold TreeView.pageLe. split; [auto|].
    intros Hpos.
    destruct (collation_total h Hcoll (TreeView.pageLabel x) (TreeView.pageLabel y)); lia. }
  { unfold TreeView.pageLe. intros x y z _ _ _. apply (collation_trans h Hcoll). }
  { exact Hpages. }
  unfold_result.
  assert (Hch : exists children,
    traverse (TreeView.sortChild h) folders = Ok children
    /\ Forall (fun kc => TreeView.sortedTree h (snd kc)) children).
  { clear Hpages Hsorted. induction folders as [|[k c] rest IHrest].
    - exists []. split; [reflexivity | constructor].
    - apply Forall_cons in IH as [IHc IHr]. simpl in Hrest.
      apply Forall_app in Hrest as [Hc Hr].
      destruct (IHc Hc) as [c' [Hc' Hsc]].
      destruct (IHrest IHr Hr) as [children [Hchildren Hsch]].
      exists ((k, c') :: children). split.
      + assert (Hkc : TreeView.sortChild h (k, c) = Ok (k, c')).
        { unfold TreeView.sortChild. cbn [fst snd] in *. rewrite Hc'. reflexivity. }
        cbn [traverse]. rewrite Hkc, Hchildren. reflexivity.
      + constructor; assumption. }
  destruct Hch as [children [-> Hsch]].
  destruct (sortBy_sorted (NavgenTree.compareFolders h)
              (fun kc : string * Tree => TreeView.sortedTree h (snd kc))
              (TreeView.folderLe h)) with (l := children)
    as [newMap [-> [_ [Hfs Hall]]]].
  { intros x y _ _. eexists; split; [reflexivity|]. unfold TreeView.folderLe.
    split; [auto|]. intros Hpos.
    destruct (collation_total h Hcoll (TreeView.folderLabel (fst x))
                (TreeView.folderLabel (fst y))); unfold TreeView.folderLabel in *; lia. }
  { unfold TreeView.folderLe. intros x y z _ _ _. apply (collation_trans h Hcoll). }
  { exact Hsch. }
  eexists; split; [reflexivity|]. constructor; assumption.
Qed.

(** X13 ([sortNode] sorts every level and does not throw).  Under a
    consistent collation, [sortNode] returns on every tree [buildTree] has
    made of entries whose title value (the first truthy one of [title],
    [title_text] and [id]) [String] can convert, and in its result every
    node has its pages in the order of their lower-cased humanized leaf
    titles and its folders in the order of their lower-cased humanized
    names. *)
Theorem built_tree_is_sorted (h : Host) (arc : string) (entries : list Json) (t : Tree) :
  ConsistentCollation h ->
  Forall Spec.titled entries ->
  NavgenTree.buildTree entries arc = Ok t ->
  exists t', NavgenTree.sortNode h t = Ok t' /\ TreeView.sortedTree h t'.
Proof.
  intros Hcoll Htitled Hbuild.
  pose proof (buildTree_from_outputs _ _ _ _ Hbuild) as Houts.
  apply buildTree_from_spec in Hbuild as [Hperm [_ Hnn]].
  apply sortNode_sorted; [exact Hcoll|].
  simpl in Hperm. eapply Permutation_Forall; [symmetry; exact Hperm|].
  rewrite Forall_forall in Hnn, Htitled, Houts |- *. intros e He.
  split; [apply Hnn | split; [apply Htitled | apply Houts]]; exact He.
Qed.

Lemma built_tree_is_sorted_witness :
  let t := match NavgenTree.buildTree [Examples.zed; Examples.lucy; Examples.abe]
                   "characters" with
           | Ok t => t
           | Err _ => NavgenTree.emptyTree
           end in
  exists t', NavgenTree.sortNode RefHost.host t = Ok t' /\ TreeView.sortedTree RefHost.host t'.
Proof.
  intros t.
  exact (built_tree_is_sorted RefHost.host "characters"
           [Examples.zed; Examples.lucy; Examples.abe] t refhost_consistent
           ltac:(repeat constructor) eq_refl).
Defined.

(** ** Strings *)

Lemma str_append_cons (c : ascii) (s r : string) : String c s +:+ r = String c (s +:+ r).
Proof. reflexivity. Qed.

Lemma str_append_empty_l (r : string) : "" +:+ r = r.
Proof. reflexivity. Qed.

Lemma startsWith_cons (s p : string) (c d : ascii) :
  Str.startsWith (String d s) (String c p)
  = if Ascii.eqb c d then Str.startsWith s p else false.
Proof. reflexivity. Qed.

Lemma startsWith_empty (s : string) : Str.startsWith s "" = true.
Proof. destruct s; reflexivity. Qed.

Lemma occurs_cons (p s : string) (d : ascii) :
  StrView.occurs p (String d s) = Str.startsWith (String d s) p || StrView.occurs p s.
Proof. reflexivity. Qed.

Lemma str_append_empty_r (s : string) : s +:+ "" = s.
Proof.
  induction s as [|c s IH]; [reflexivity|]. rewrite str_append_cons. f_equal. exact IH.
Qed.

Lemma str_append_assoc (a b c : string) : (a +:+ b) +:+ c = a +:+ (b +:+ c).
Proof.
  induction a as [|x a IH]; [reflexivity|]. rewrite !str_append_cons. f_equal. exact IH.
Qed.

Lemma startsWith_append (p r : string) : Str.startsWith (p +:+ r) p = true.
Proof.
  induction p as [|c p IH]; [destruct r; reflexivity|].
  rewrite str_append_cons. simpl. rewrite Ascii.eqb_refl. exact IH.
Qed.

Lemma str_drop_append (p r : string) : Str.drop (String.length p) (p +:+ r) = r.
Proof. induction p as [|c p IH]; [destruct r; reflexivity | exact IH]. Qed.

Lemma str_take_drop (n : nat) (s : string) : Str.take n s +:+ Str.drop n s = s.
Proof.
  revert s. induction n as [|n IH]; intros [|c s]; try reflexivity.
  simpl. rewrite str_append_cons. f_equal. apply IH.
Qed.

Lemma str_drop_S (n : nat) (s : string) : Str.drop (S n) s = Str.drop 1 (Str.drop n s).
Proof.
  revert s. induction n as [|n IH]; intros [|c s]; try reflexivity.
  change (Str.drop (S (S n)) (String c s)) with (Str.drop (S n) s).
  rewrite IH. reflexivity.
Qed.

Lemma includes_occurs (s p : string) : Str.includes s p = StrView.occurs p s.
Proof.
  unfold Str.includes, Str.indexOf. generalize 0%nat.
  induction s as [|c s IH]; intros i.
  - destruct p; reflexivity.
  - cbn [Str.indexOf_from StrView.occurs].
    destruct (Str.startsWith (String c s) p); [reflexivity|]. simpl. apply IH.
Qed.

Lemma occurs_single (c : ascii) (s : string) :
  StrView.occurs (String c "") s = negb (StrView.allChars (fun d => negb (Ascii.eqb c d)) s).
Proof.
  induction s as [|d s IH]; simpl; [reflexivity|].
  rewrite IH. destruct (Ascii.eqb c d); simpl; [destruct s; reflexivity | reflexivity].
Qed.

Lemma allChars_append (P : ascii -> bool) (a b : string) :
  StrView.allChars P (a +:+ b) = StrView.allChars P a && StrView.allChars P b.
Proof.
  induction a as [|c a IH]; [reflexivity|]. rewrite str_append_cons. simpl.
  rewrite IH. rewrite andb_assoc. reflexivity.
Qed.

Lemma allChars_drop (P : ascii -> bool) (n : nat) (s : string) :
  StrView.allChars P s = true -> StrView.allChars P (Str.drop n s) = true.
Proof.
  revert s. induction n as [|n IH]; intros [|c s] H; simpl in *; try assumption.
  apply andb_prop in H as [_ H]. apply IH, H.
Qed.

Lemma allChars_take (P : ascii -> bool) (n : nat) (s : string) :
  StrView.allChars P s = true -> StrView.allChars P (Str.take n s) = true.
Proof.
  revert s. induction n as [|n IH]; intros [|c s] H; simpl in *; try reflexivity.
  apply andb_prop in H as [Hc H]. rewrite Hc. apply IH, H.
Qed.

Lemma allChars_impl (P Q : ascii -> bool) (s : string) :
  (forall c, P c = true -> Q c = true) ->
  StrView.allChars P s = true -> StrView.allChars Q s = true.
Proof.
  intros HPQ. induction s as [|c s IH]; simpl; [reflexivity|]. intros H.
  apply andb_prop in H as [Hc H]. rewrite (HPQ c Hc). apply IH, H.
Qed.

(** ** [normalizePath] *)

Lemma replaceBackslashes_clean (s : string) :
  StrView.allChars StrView.notBackslash (Str.replaceBackslashes s) = true.
Proof.
  induction s as [|c s IH]; simpl; [reflexivity|]. rewrite IH, andb_true_r.
  unfold StrView.notBackslash. destruct (Ascii.eqb c "\"%char) eqn:Hc; [reflexivity|].
  rewrite Hc. reflexivity.
Qed.

Lemma collapseSlashes_allChars (P : ascii -> bool) (b : bool) (s : string) :
  StrView.allChars P s = true -> StrView.allChars P (Str.collapseSlashes_go b s) = true.
Proof.
  revert b. induction s as [|c s IH]; intros b H; simpl in *; [reflexivity|].
  apply andb_prop in H as [Hc H].
  destruct (Ascii.eqb c "/"%char); [destruct b|]; simpl; try rewrite Hc; simpl; apply IH, H.
Qed.

Lemma collapseSlashes_no_run (b : bool) (s : string) :
  StrView.occurs "//" (Str.collapseSlashes_go b s) = false
  /\ (b = true -> Str.startsWith (Str.collapseSlashes_go b s) "/" = false).
Proof.
  revert b. induction s as [|c s IH]; intros b; [split; reflexivity|].
  cbn [Str.collapseSlashes_go].
  destruct (Ascii.eqb_spec c "/"%char) as [->|Hc].
  - destruct b; [apply IH|].
    destruct (IH true) as [Hocc Hstart]. split; [|discriminate].
    rewrite occurs_cons, Hocc, orb_false_r.
    rewrite startsWith_cons, Ascii.eqb_refl. exact (Hstart eq_refl).
  - apply Ascii.eqb_neq in Hc. rewrite Ascii.eqb_sym in Hc.
    destruct (IH false) as [Hocc _]. split.
    + rewrite occurs_cons, Hocc, orb_false_r. rewrite startsWith_cons, Hc. reflexivity.
    + intros _. rewrite startsWith_cons, Hc. reflexivity.
Qed.

Lemma normalizeString_clean (s : string) :
  Str.includes (NavCommon.normalizeString s) "\" = false
  /\ Str.includes (NavCommon.normalizeString s) "//" = false.
Proof.
  unfold NavCommon.normalizeString, Str.collapseSlashes, Str.stripDotSlash.
  rewrite !includes_occurs. split.
  - rewrite occurs_single. apply negb_false_iff.
    apply collapseSlashes_allChars.
    assert (H : StrView.allChars (fun d => negb (Ascii.eqb "\" d))
                  (Str.replaceBackslashes s) = true).
    { eapply allChars_impl; [|apply replaceBackslashes_clean].
      intros c. unfold StrView.notBackslash. rewrite Ascii.eqb_sym. auto. }
    destruct (Str.startsWith _ "./"); [apply allChars_drop|]; exact H.
  - apply collapseSlashes_no_run.
Qed.

(** X14 ([normalizePath] leaves no backslash and no run of slashes).
    Whatever value it is given, the path it returns holds no backslash and
    no two slashes in a row.  It returns for every value [String] can
    convert; for the others, which hold an object with a [toString] member
    of its own, it throws the [TypeError] of the conversion. *)
Theorem normalizePath_is_clean (p : JsVal) :
  match NavCommon.normalizePath p with
  | Ok s => Js.printableV p = true
            /\ Str.includes s "\" = false /\ Str.includes s "//" = false
  | Err e => Js.printableV p = false /\ e = Js.conversionError
  end.
Proof.
  destruct (NavCommon.normalizePath p) as [s|e] eqn:Hp.
  - split; [exact (normalizePath_Ok_printable p s Hp)|].
    revert Hp. unfold NavCommon.normalizePath.
    destruct (negb (Js.truthy p)).
    + unfold_result. intros H. injection H as <-. split; reflexivity.
    + intros H. apply bind_Ok_inv in H as [text [_ H]]. unfold_result.
      injection H as <-. apply normalizeString_clean.
  - split.
    + destruct (Js.printableV p) eqn:Hprint; [|reflexivity].
      destruct (normalizePath_printable p Hprint) as [s Hs]. congruence.
    + revert Hp. unfold NavCommon.normalizePath.
      destruct (negb (Js.truthy p)); [discriminate|]. unfold_result.
      destruct (Js.toString p) as [text|err] eqn:Htext; [discriminate|].
      intros H. injection H as <-. exact (toString_error p err Htext).
Qed.

(** ** [getSiteBase] *)

Lemma endsWith_single (s : string) (c : ascii) :
  Str.endsWith s (String c "")
  = match StrView.lastChar s with
    | Some d => Ascii.eqb d c
    | None => false
    end.
Proof.
  unfold Str.endsWith. induction s as [|a s IH]; [reflexivity|].
  change (String.length (String c "")) with 1%nat in *.
  change (String.length (String a s)) with (S (String.length s)).
  replace (S (String.length s) - 1)%nat with (String.length s) by lia.
  destruct s as [|b s'].
  - simpl. destruct (Ascii.eqb a c); reflexivity.
  - change (StrView.lastChar (String a (String b s')))
      with (StrView.lastChar (String b s')).
    rewrite <- IH.
    change (String.length (String b s')) with (S (String.length s')).
    replace (S (String.length s') - 1)%nat with (String.length s') by lia.
    reflexivity.
Qed.

Lemma lastChar_append (a b : string) :
  b <> "" -> StrView.lastChar (a +:+ b) = StrView.lastChar b.
Proof.
  intros Hb. induction a as [|c a IH]; [reflexivity|].
  rewrite str_append_cons. destruct (a +:+ b) as [|d r] eqn:Hab.
  - destruct a; [rewrite str_append_empty_l in Hab; congruence|].
    rewrite str_append_cons in Hab. discriminate.
  - change (StrView.lastChar (String c (String d r))) with (StrView.lastChar (String d r)).
    exact IH.
Qed.

Lemma lastChar_take (j : nat) (s p : string) (c : ascii) :
  Str.startsWith (Str.drop j s) (String c p) = true ->
  StrView.lastChar (Str.take (S j) s) = Some c.
Proof.
  revert s. induction j as [|j IH]; intros [|d s] H; try discriminate.
  - change (Str.drop 0 (String d s)) with (String d s) in H.
    rewrite startsWith_cons in H.
    destruct (Ascii.eqb_spec c d) as [->|]; [|discriminate].
    destruct s; reflexivity.
  - change (Str.drop (S j) (String d s)) with (Str.drop j s) in H.
    specialize (IH s H).
    change (Str.take (S (S j)) (String d s)) with (String d (Str.take (S j) s)).
    destruct (Str.take (S j) s) as [|x r]; [discriminate|]. exact IH.
Qed.

Lemma indexOf_from_Some (i k : nat) (s p : string) :
  Str.indexOf_from i s p = Some k ->
  exists j, k = (i + j)%nat /\ Str.startsWith (Str.drop j s) p = true.
Proof.
  revert i. induction s as [|c s IH]; intros i H.
  - cbn [Str.indexOf_from] in H. destruct (Str.startsWith "" p) eqn:Hp; [|discriminate].
    injection H as <-. exists 0%nat. split; [lia | exact Hp].
  - cbn [Str.indexOf_from] in H. destruct (Str.startsWith (String c s) p) eqn:Hp.
    + injection H as <-. exists 0%nat. split; [lia | exact Hp].
    + destruct (IH _ H) as [j [-> Hj]]. exists (S j). split; [lia | exact Hj].
Qed.

Lemma stripLastSegment_spec (s : string) :
  exists r, s = Str.stripLastSegment s +:+ r
    /\ StrView.allChars StrView.notSlash r = true
    /\ (Str.stripLastSegment s = "" \/ StrView.lastChar (Str.stripLastSegment s) = Some "/"%char).
Proof.
  induction s as [|c s [r [Hs [Hr Hlast]]]].
  - exists "". repeat split. left. reflexivity.
  - cbn [Str.stripLastSegment]. destruct (Str.stripLastSegment s) as [|d t] eqn:Hstrip.
    + rewrite str_append_empty_l in Hs. subst r.
      destruct (Ascii.eqb_spec c "/"%char) as [->|Hc].
      * exists s. repeat split; [exact Hr | right; reflexivity].
      * exists (String c s). split; [reflexivity|]. split; [|left; reflexivity].
        simpl. rewrite Hr, andb_true_r. unfold StrView.notSlash.
        apply negb_true_iff, Ascii.eqb_neq, Hc.
    + exists r. split; [rewrite str_append_cons; f_equal; exact Hs|]. split; [exact Hr|].
      right. destruct Hlast as [Hlast|Hlast]; [discriminate | exact Hlast].
Qed.

Lemma stripLastSegment_rooted (s : string) :
  Str.startsWith s "/" = true -> Str.stripLastSegment s <> "".
Proof.
  destruct s as [|c s]; [discriminate|]. rewrite startsWith_cons.
  destruct (Ascii.eqb_spec "/"%char c) as [<-|]; [|discriminate]. intros _.
  cbn [Str.stripLastSegment]. destruct (Str.stripLastSegment s); discriminate.
Qed.

(** X15 (the site base is a directory above the page).  The base URL
    [getSiteBase] returns is a prefix of the URL of the page.  On a page
    under [/content/] what follows the base starts with [content/]; on
    every other page it holds no slash.  For a path name that starts with a
    slash, as path names do, the base ends with a slash. *)
Theorem site_base_is_a_directory (env : Env) :
  let base := NavgenTree.getSiteBase env in
  let p := location_pathname env in
  (exists rest,
     location_origin env +:+ p = base +:+ rest
     /\ if Str.includes p "/content/" then Str.startsWith rest "content/" = true
        else Str.includes rest "/" = false)
  /\ (Str.startsWith p "/" = true -> Str.endsWith base "/" = true).
Proof.
  intros base p. unfold base, NavgenTree.getSiteBase, Str.includes. fold p.
  destruct (Str.indexOf p "/content/") as [idx|] eqn:Hidx.
  - apply indexOf_from_Some in Hidx as [j [-> Hj]]. simpl Nat.add.
    replace (j + 1)%nat with (S j) by lia.
    split.
    + exists (Str.drop (S j) p). split.
      * rewrite str_append_assoc, str_take_drop. reflexivity.
      * rewrite str_drop_S. destruct (Str.drop j p) as [|c r]; [discriminate|].
        rewrite startsWith_cons in Hj. destruct (Ascii.eqb "/" c); [exact Hj | discriminate].
    + intros _. rewrite endsWith_single, lastChar_append.
      * rewrite (lastChar_take j p "content/" "/" Hj). reflexivity.
      * destruct p; [destruct j; discriminate | discriminate].
  - destruct (Str.endsWith p "/") eqn:Hends.
    + split; [|intros _; rewrite endsWith_single in Hends |- *].
      * exists "". rewrite !str_append_empty_r. split; reflexivity.
      * rewrite lastChar_append; [exact Hends|]. intros ->. discriminate.
    + destruct (stripLastSegment_spec p) as [r [Hp [Hr Hlast]]]. split.
      * exists r. split; [rewrite str_append_assoc, <- Hp; reflexivity|].
        fold (Str.includes r "/"). rewrite includes_occurs, occurs_single.
        apply negb_false_iff. eapply allChars_impl; [|exact Hr].
        intros c. unfold StrView.notSlash. rewrite Ascii.eqb_sym. auto.
      * intros Hroot. pose proof (stripLastSegment_rooted p Hroot) as Hne.
        destruct Hlast as [Hlast|Hlast]; [contradiction|].
        rewrite endsWith_single, lastChar_append by exact Hne. rewrite Hlast. reflexivity.
Qed.

Lemma site_base_is_a_directory_witness :
  let env := mkEnv "/STORYHUB/content/lore/world/atlas.html" "https://example.org"
               "https://example.org/STORYHUB/content/lore/world/atlas.html"
               (fun _ => Err (mkExn "TypeError" "offline")) in
  NavgenTree.getSiteBase env = "https://example.org/STORYHUB/"
  /\ Str.endsWith (NavgenTree.getSiteBase env) "/" = true.
Proof.
  intros env. split; [reflexivity|].
  apply (proj2 (site_base_is_a_directory env)). reflexivity.
Defined.

(** ** Paths written as segments *)

Lemma join_cons (sep x y : string) (ys : list string) :
  Str.join sep (x :: y :: ys) = x +:+ sep +:+ Str.join sep (y :: ys).
Proof. reflexivity. Qed.

Lemma segment_chars (s : string) :
  StrView.segment s ->
  s <> "" /\ StrView.allChars StrView.notSlash s = true
  /\ StrView.allChars StrView.notBackslash s = true.
Proof.
  intros [Hne Hs]. split; [exact Hne|]. split.
  - eapply allChars_impl; [|exact Hs]. intros c Hc. apply andb_prop in Hc as [H _]. exact H.
  - eapply allChars_impl; [|exact Hs]. intros c Hc. apply andb_prop in Hc as [_ H]. exact H.
Qed.

Lemma allChars_join (P : ascii -> bool) (segs : list string) :
  P "/"%char = true -> Forall (fun x => StrView.allChars P x = true) segs ->
  StrView.allChars P (Str.join "/" segs) = true.
Proof.
  intros Hsep. induction 1 as [|x xs Hx Hxs IH]; [reflexivity|].
  destruct xs as [|y ys]; [exact Hx|].
  rewrite join_cons, !allChars_append, Hx, IH. simpl. rewrite Hsep. reflexivity.
Qed.

Lemma replaceBackslashes_id (s : string) :
  StrView.allChars StrView.notBackslash s = true -> Str.replaceBackslashes s = s.
Proof.
  induction s as [|c s IH]; [reflexivity|]. cbn [StrView.allChars Str.replaceBackslashes].
  intros H. apply andb_prop in H as [Hc H]. rewrite (IH H).
  unfold StrView.notBackslash in Hc. apply negb_true_iff in Hc. rewrite Hc. reflexivity.
Qed.

Lemma collapseSlashes_segment (b : bool) (seg rest : string) :
  seg <> "" -> StrView.allChars StrView.notSlash seg = true ->
  Str.collapseSlashes_go b (seg +:+ rest) = seg +:+ Str.collapseSlashes_go false rest.
Proof.
  intros Hne. revert b. induction seg as [|c seg IH]; [congruence|]. intros b H.
  cbn [StrView.allChars] in H. apply andb_prop in H as [Hc H].
  unfold StrView.notSlash in Hc. apply negb_true_iff in Hc.
  rewrite !str_append_cons. cbn [Str.collapseSlashes_go]. rewrite Hc. f_equal.
  destruct seg as [|d seg']; [reflexivity|].
  apply IH; [discriminate | exact H].
Qed.

Lemma collapseSlashes_join (b : bool) (segs : list string) :
  Forall (fun x => x <> "" /\ StrView.allChars StrView.notSlash x = true) segs ->
  segs <> [] ->
  Str.collapseSlashes_go b (Str.join "/" segs) = Str.join "/" segs.
Proof.
  intros Hsegs. revert b. induction Hsegs as [|x xs [Hne Hx] Hxs IH]; [congruence|].
  intros b _. destruct xs as [|y ys].
  - change (Str.join "/" [x]) with x. rewrite <- (str_append_empty_r x) at 1.
    rewrite collapseSlashes_segment by assumption. apply str_append_empty_r.
  - rewrite join_cons, collapseSlashes_segment by assumption. f_equal.
    change ("/" +:+ Str.join "/" (y :: ys)) with (String "/" (Str.join "/" (y :: ys))).
    cbn [Str.collapseSlashes_go]. rewrite Ascii.eqb_refl. f_equal.
    apply IH. discriminate.
Qed.

Lemma normalizePath_join (segs : list string) :
  Forall StrView.segment segs -> segs <> [] ->
  Str.startsWith (Str.join "/" segs) "./" = false ->
  NavCommon.normalizePath (Some (JStr (Str.join "/" segs))) = Ok (Str.join "/" segs).
Proof.
  intros Hsegs Hne Hdot. unfold NavCommon.normalizePath.
  assert (Hnonempty : Str.nonempty (Str.join "/" segs) = true).
  { destruct Hsegs as [|x xs [Hx _] _]; [congruence|].
    destruct xs; [|rewrite join_cons]; destruct x; try congruence; reflexivity. }
  cbn [Js.truthy Js.toString Js.toStringJ]. rewrite Hnonempty. cbn [negb].
  unfold_result. f_equal.
  unfold NavCommon.normalizeString, Str.stripDotSlash, Str.collapseSlashes.
  rewrite replaceBackslashes_id, Hdot.
  - apply collapseSlashes_join; [|exact Hne].
    eapply Forall_impl; [exact Hsegs|]. intros x Hx.
    apply segment_chars in Hx as [? [? _]]. auto.
  - apply allChars_join; [reflexivity|].
    eapply Forall_impl; [exact Hsegs|]. intros x Hx.
    apply segment_chars in Hx as [_ [_ ?]]. assumption.
Qed.

Lemma split_segment (cur : list ascii) (seg rest : string) :
  StrView.allChars StrView.notSlash seg = true ->
  Str.split_go "/" 0 cur (seg +:+ rest)
  = Str.split_go "/" 0 (rev (list_ascii_of_string seg) ++ cur) rest.
Proof.
  revert cur. induction seg as [|c seg IH]; intros cur H; [reflexivity|].
  cbn [StrView.allChars] in H. apply andb_prop in H as [Hc H].
  unfold StrView.notSlash in Hc. apply negb_true_iff in Hc. rewrite Ascii.eqb_sym in Hc.
  rewrite str_append_cons. cbn [Str.split_go]. rewrite startsWith_cons, Hc.
  rewrite (IH _ H). cbn [list_ascii_of_string rev]. rewrite <- app_assoc. reflexivity.
Qed.

Lemma split_join (segs : list string) :
  Forall (fun x => StrView.allChars StrView.notSlash x = true) segs -> segs <> [] ->
  Str.split (Str.join "/" segs) "/" = segs.
Proof.
  unfold Str.split.
  assert (Hrev : forall x : string, Str.rev_string (rev (list_ascii_of_string x) ++ []) = x).
  { intros x. unfold Str.rev_string. rewrite app_nil_r, rev_involutive.
    apply string_of_list_ascii_of_string. }
  induction 1 as [|x xs Hx Hxs IH]; [congruence|]. intros _.
  destruct xs as [|y ys].
  - change (Str.join "/" [x]) with x. rewrite <- (str_append_empty_r x) at 1.
    rewrite split_segment by exact Hx. cbn [Str.split_go]. rewrite Hrev. reflexivity.
  - rewrite join_cons, split_segment by exact Hx.
    change ("/" +:+ Str.join "/" (y :: ys)) with (String "/" (Str.join "/" (y :: ys))).
    cbn [Str.split_go]. rewrite startsWith_cons, Ascii.eqb_refl.
    rewrite startsWith_empty.
    cbn [String.length Nat.sub]. rewrite Hrev. f_equal. apply IH. discriminate.
Qed.

Lemma segment_not_rooted (x : string) :
  StrView.allChars StrView.notSlash x = true -> Str.startsWith x "/" = false.
Proof.
  destruct x as [|c x]; [reflexivity|]. cbn [StrView.allChars]. intros H.
  apply andb_prop in H as [Hc _]. unfold StrView.notSlash in Hc.
  apply negb_true_iff in Hc. rewrite Ascii.eqb_sym in Hc.
  rewrite startsWith_cons, Hc. reflexivity.
Qed.

Lemma segment_not_dotted (x r : string) :
  StrView.segment x -> r = "" \/ x <> "." ->
  Str.startsWith (x +:+ r) "./" = false.
Proof.
  intros Hx Hr. apply segment_chars in Hx as [Hne [Hx _]].
  destruct x as [|c x]; [congruence|]. rewrite str_append_cons, startsWith_cons.
  destruct (Ascii.eqb_spec "."%char c) as [<-|]; [|reflexivity].
  cbn [StrView.allChars] in Hx. apply andb_prop in Hx as [_ Hx].
  destruct x as [|d x].
  - destruct Hr as [->|Hr]; [reflexivity | congruence].
  - rewrite str_append_cons, startsWith_cons.
    cbn [StrView.allChars] in Hx. apply andb_prop in Hx as [Hd _].
    unfold StrView.notSlash in Hd. apply negb_true_iff in Hd.
    rewrite Ascii.eqb_sym in Hd. rewrite Hd. reflexivity.
Qed.

Lemma join_not_dotted (folders : list string) (file : string) :
  Forall StrView.segment folders -> StrView.segment file ->
  head folders <> Some "." ->
  Str.startsWith (Str.join "/" (folders ++ [file])) "./" = false.
Proof.
  intros Hfolders Hfile Hhead. destruct Hfolders as [|x xs Hx _].
  - change (Str.join "/" ([] ++ [file])) with file. rewrite <- (str_append_empty_r file).
    apply segment_not_dotted; [exact Hfile | left; reflexivity].
  - assert (Hx' : x <> ".") by (intros ->; apply Hhead; reflexivity).
    change ((x :: xs) ++ [file]) with (x :: (xs ++ [file])).
    destruct (xs ++ [file]) as [|y ys] eqn:Hrest; [destruct xs; discriminate|].
    rewrite join_cons. apply segment_not_dotted; [exact Hx | right; exact Hx'].
Qed.

(** The path of an [output] under the folder of its arc. *)
Lemma output_path_segments (arc file : string) (folders : list string) :
  StrView.segment arc -> Forall StrView.segment folders -> StrView.segment file ->
  Forall StrView.segment ("content" :: arc :: folders ++ [file])
  /\ Forall StrView.segment (folders ++ [file])
  /\ folders ++ [file] <> []
  /\ Str.join "/" ("content" :: arc :: folders ++ [file])
     = ("content/" +:+ arc +:+ "/") +:+ Str.join "/" (folders ++ [file]).
Proof.
  intros Harc Hfolders Hfile.
  assert (Hsegs : Forall StrView.segment (folders ++ [file])).
  { apply Forall_app. split; [exact Hfolders | constructor; [exact Hfile | constructor]]. }
  assert (Hne : folders ++ [file] <> []) by (destruct folders; discriminate).
  split; [|split; [exact Hsegs | split; [exact Hne|]]].
  - constructor; [split; [discriminate | reflexivity]|].
    constructor; [exact Harc | exact Hsegs].
  - destruct (folders ++ [file]) as [|y ys] eqn:Hrest; [congruence|].
    rewrite !join_cons. rewrite !str_append_assoc. reflexivity.
Qed.

Lemma normalizePath_output (arc file : string) (folders : list string) :
  StrView.segment arc -> Forall StrView.segment folders -> StrView.segment file ->
  NavCommon.normalizePath
    (Some (JStr (Str.join "/" ("content" :: arc :: folders ++ [file]))))
  = Ok (Str.join "/" ("content" :: arc :: folders ++ [file])).
Proof.
  intros Harc Hfolders Hfile.
  destruct (output_path_segments arc file folders Harc Hfolders Hfile)
    as [Hall [_ [Hne _]]].
  apply normalizePath_join; [exact Hall | discriminate|].
  destruct (folders ++ [file]) as [|y ys]; [congruence | reflexivity].
Qed.

Lemma stripArcFromOutput_output (arc file : string) (folders : list string) :
  StrView.segment arc -> Forall StrView.segment folders -> StrView.segment file ->
  NavgenTree.stripArcFromOutput
    (Some (JStr (Str.join "/" ("content" :: arc :: folders ++ [file])))) arc
  = Ok (Str.join "/" (folders ++ [file])).
Proof.
  intros Harc Hfolders Hfile.
  destruct (output_path_segments arc file folders Harc Hfolders Hfile)
    as [_ [_ [_ Hsplit]]].
  unfold NavgenTree.stripArcFromOutput.
  rewrite normalizePath_output by assumption. unfold_result.
  rewrite Hsplit, startsWith_append, str_drop_append. reflexivity.
Qed.

(** The loop body of [buildTree] on an entry whose [output] lies under the
    folder of the arc. *)
Lemma addEntry_at_folders (arc file : string) (folders : list string)
    (entry : Json) (root : Tree) :
  StrView.segment arc -> Forall StrView.segment folders -> StrView.segment file ->
  head folders <> Some "." ->
  Js.get entry "output"
    = Ok (Some (JStr (Str.join "/" ("content" :: arc :: folders ++ [file])))) ->
  NavgenTree.addEntry arc root entry = Ok (NavgenTree.pushAt folders entry root).
Proof.
  intros Harc Hfolders Hfile Hhead Hout.
  destruct (output_path_segments arc file folders Harc Hfolders Hfile)
    as [_ [Hsegs [Hne _]]].
  unfold NavgenTree.addEntry. rewrite Hout. unfold_result.
  rewrite stripArcFromOutput_output by assumption.
  rewrite normalizePath_join by (try assumption; apply join_not_dotted; assumption).
  rewrite split_join.
  - assert (Hfilter : filter (fun p => Str.nonempty p = true) (folders ++ [file])
                      = folders ++ [file]).
    { clear -Hsegs. induction Hsegs as [|x xs [Hx _] _ IH]; [reflexivity|].
      rewrite filter_cons, IH. destruct x; [congruence|]. reflexivity. }
    rewrite Hfilter, removelast_last.
    destruct (folders ++ [file]); [congruence | reflexivity].
  - eapply Forall_impl; [exact Hsegs|]. intros x Hx.
    apply segment_chars in Hx as [_ [? _]]. assumption.
  - exact Hne.
Qed.

(** X16 (an entry lands in the folder its output names).  For an entry
    whose [output] is [content/<arc>/<f1>/.../<fn>/<file>], every segment
    non-empty and free of slashes and backslashes and [f1] other than ".",
    the loop body of [buildTree] pushes the entry at the end of the pages of
    the folder path [f1, ..., fn], creating the folders that are missing,
    and leaves the pages of every other folder path as they were. *)
Theorem entry_lands_in_its_folder (arc file : string) (folders : list string)
    (entry : Json) (root : Tree) :
  StrView.segment arc -> Forall StrView.segment folders -> StrView.segment file ->
  head folders <> Some "." ->
  Js.get entry "output"
    = Ok (Some (JStr (Str.join "/" ("content" :: arc :: folders ++ [file])))) ->
  NavgenTree.addEntry arc root entry = Ok (NavgenTree.pushAt folders entry root)
  /\ TreeView.pagesAt folders (NavgenTree.pushAt folders entry root)
     = TreeView.pagesAt folders root ++ [entry]
  /\ forall other, other <> folders ->
       TreeView.pagesAt other (NavgenTree.pushAt folders entry root)
       = TreeView.pagesAt other root.
Proof.
  intros Harc Hfolders Hfile Hhead Hout.
  split; [|split; [apply pushAt_pagesAt | intros other; apply pushAt_pagesAt_other]].
  apply (addEntry_at_folders arc file); assumption.
Qed.

Lemma entry_lands_in_its_folder_witness :
  let root := NavgenTree.pushAt ["fiends"] Examples.lucy NavgenTree.emptyTree in
  NavgenTree.addEntry "characters" root Examples.abe
  = Ok (NavgenTree.pushAt ["fiends"; "deep"] Examples.abe root)
  /\ TreeView.pagesAt ["fiends"; "deep"] (NavgenTree.pushAt ["fiends"; "deep"] Examples.abe root)
     = [Examples.abe]
  /\ TreeView.pagesAt ["fiends"] (NavgenTree.pushAt ["fiends"; "deep"] Examples.abe root)
     = [Examples.lucy].
Proof.
  intros root.
  destruct (entry_lands_in_its_folder "characters" "abe.html" ["fiends"; "deep"]
              Examples.abe root) as [Hadd [Hat Hother]].
  - split; [discriminate | reflexivity].
  - repeat constructor; discriminate.
  - split; [discriminate | reflexivity].
  - discriminate.
  - reflexivity.
  - split; [exact Hadd|]. split; [exact Hat|].
    exact (Hother ["fiends"] ltac:(discriminate)).
Defined.

(** ** [humanizeSegment] *)

(** The characters of a word of a label: neither a space, nor an underscore,
    nor a hyphen. *)
Lemma wordChar_upper (c : ascii) :
  StrView.notSpace c && StrView.notSeparator c = true ->
  StrView.notSpace (Str.upper_char c) && StrView.notSeparator (Str.upper_char c) = true.
Proof. destruct c as [[] [] [] [] [] [] [] []]; intros H; try exact H; reflexivity. Qed.

Lemma wordChar_lower (c : ascii) :
  StrView.notSpace c && StrView.notSeparator c = true ->
  StrView.notSpace (Str.lower_char c) && StrView.notSeparator (Str.lower_char c) = true.
Proof. destruct c as [[] [] [] [] [] [] [] []]; intros H; try exact H; reflexivity. Qed.

Lemma replaceSeparators_clean (b : bool) (s : string) :
  StrView.allChars StrView.notSeparator (Str.replaceSeparators_go b s) = true.
Proof.
  revert b. induction s as [|c s IH]; intros b; [reflexivity|].
  cbn [Str.replaceSeparators_go].
  destruct (Str.is_sep_char c) eqn:Hc; [destruct b|]; cbn [StrView.allChars];
    rewrite ?IH; try reflexivity.
  unfold StrView.notSeparator. rewrite Hc. reflexivity.
Qed.

Lemma trimStart_allChars (P : ascii -> bool) (s : string) :
  StrView.allChars P s = true -> StrView.allChars P (Str.trimStart s) = true.
Proof.
  induction s as [|c s IH]; [reflexivity|]. cbn [Str.trimStart]. intros H.
  destruct (Str.is_space c); [|exact H].
  cbn [StrView.allChars] in H. apply andb_prop in H as [_ H]. apply IH, H.
Qed.

Lemma trimEnd_allChars (P : ascii -> bool) (s : string) :
  StrView.allChars P s = true -> StrView.allChars P (Str.trimEnd s) = true.
Proof.
  induction s as [|c s IH]; [reflexivity|]. cbn [Str.trimEnd StrView.allChars]. intros H.
  apply andb_prop in H as [Hc H]. specialize (IH H).
  destruct (Str.trimEnd s) as [|d t].
  - destruct (Str.is_space c); [reflexivity|]. cbn [StrView.allChars]. rewrite Hc. reflexivity.
  - cbn [StrView.allChars] in IH |- *. rewrite Hc. exact IH.
Qed.

Lemma allChars_of_list (P : ascii -> bool) (l : list ascii) :
  Forall (fun c => P c = true) l -> StrView.allChars P (string_of_list_ascii l) = true.
Proof.
  induction 1 as [|c l Hc _ IH]; [reflexivity|]. simpl. rewrite Hc, IH. reflexivity.
Qed.

Lemma split_words (Q : ascii -> bool) (cur : list ascii) (s : string) :
  StrView.allChars (fun c => Ascii.eqb " " c || Q c) s = true ->
  Forall (fun c => Q c = true) cur ->
  Forall (fun w => StrView.allChars Q w = true) (Str.split_go " " 0 cur s).
Proof.
  revert cur. induction s as [|c s IH]; intros cur Hs Hcur.
  - constructor; [|constructor]. apply allChars_of_list, Forall_rev, Hcur.
  - cbn [StrView.allChars] in Hs. apply andb_prop in Hs as [Hc Hs].
    cbn [Str.split_go]. rewrite startsWith_cons.
    destruct (Ascii.eqb " " c).
    + rewrite startsWith_empty. constructor.
      * apply allChars_of_list, Forall_rev, Hcur.
      * apply IH; [exact Hs | constructor].
    + apply IH; [exact Hs|]. constructor; [exact Hc | exact Hcur].
Qed.

Lemma toUpperCase_allChars (s : string) :
  StrView.allChars (fun c => StrView.notSpace c && StrView.notSeparator c) s = true ->
  StrView.allChars (fun c => StrView.notSpace c && StrView.notSeparator c)
    (Str.toUpperCase s) = true.
Proof.
  induction s as [|c s IH]; [reflexivity|]. cbn [StrView.allChars Str.toUpperCase].
  intros H. apply andb_prop in H as [Hc H]. rewrite (wordChar_upper c Hc). apply IH, H.
Qed.

Lemma toLowerCase_allChars (s : string) :
  StrView.allChars (fun c => StrView.notSpace c && StrView.notSeparator c) s = true ->
  StrView.allChars (fun c => StrView.notSpace c && StrView.notSeparator c)
    (Str.toLowerCase s) = true.
Proof.
  induction s as [|c s IH]; [reflexivity|]. cbn [StrView.allChars Str.toLowerCase].
  intros H. apply andb_prop in H as [Hc H]. rewrite (wordChar_lower c Hc). apply IH, H.
Qed.

Lemma titleCaseWord_word (w : string) :
  w <> "" ->
  StrView.allChars (fun c => StrView.notSpace c && StrView.notSeparator c) w = true ->
  NavgenTree.titleCaseWord w <> ""
  /\ StrView.allChars (fun c => StrView.notSpace c && StrView.notSeparator c)
       (NavgenTree.titleCaseWord w) = true.
Proof.
  intros Hne Hw. unfold NavgenTree.titleCaseWord.
  destruct (String.length w <=? 2)%nat.
  - split; [destruct w; [congruence | discriminate] | apply toUpperCase_allChars, Hw].
  - split.
    + destruct w as [|c w]; [congruence|]. discriminate.
    + rewrite allChars_append.
      rewrite toUpperCase_allChars by (apply allChars_take, Hw).
      rewrite toLowerCase_allChars by (apply allChars_drop, Hw). reflexivity.
Qed.

Lemma lastChar_allChars (P : ascii -> bool) (s : string) (d : ascii) :
  StrView.allChars P s = true -> StrView.lastChar s = Some d -> P d = true.
Proof.
  induction s as [|c s IH]; [discriminate|]. cbn [StrView.allChars]. intros H Hlast.
  apply andb_prop in H as [Hc H]. destruct s as [|e s'].
  - injection Hlast as <-. exact Hc.
  - apply IH; [exact H | exact Hlast].
Qed.

Lemma join_nonempty (w : string) (ws : list string) : w <> "" -> Str.join " " (w :: ws) <> "".
Proof.
  intros Hw. destruct ws as [|y ys]; [exact Hw|]. rewrite join_cons.
  destruct w; [congruence|]. discriminate.
Qed.

Lemma word_then_space (w rest : string) :
  StrView.allChars StrView.notSpace w = true ->
  Str.startsWith rest " " = false -> StrView.occurs "  " rest = false ->
  StrView.occurs "  " (w +:+ " " +:+ rest) = false.
Proof.
  intros Hw Hstart Hocc. induction w as [|c w IH].
  - change ("" +:+ " " +:+ rest) with (String " " rest).
    rewrite occurs_cons, startsWith_cons, Ascii.eqb_refl, Hstart, Hocc. reflexivity.
  - cbn [StrView.allChars] in Hw. apply andb_prop in Hw as [Hc Hw].
    unfold StrView.notSpace in Hc. apply negb_true_iff in Hc. rewrite Ascii.eqb_sym in Hc.
    rewrite str_append_cons, occurs_cons, startsWith_cons, Hc. exact (IH Hw).
Qed.

Lemma word_not_spaced (w rest : string) :
  w <> "" -> StrView.allChars StrView.notSpace w = true ->
  Str.startsWith (w +:+ rest) " " = false.
Proof.
  intros Hne Hw. destruct w as [|c w]; [congruence|].
  cbn [StrView.allChars] in Hw. apply andb_prop in Hw as [Hc _].
  unfold StrView.notSpace in Hc. apply negb_true_iff in Hc. rewrite Ascii.eqb_sym in Hc.
  rewrite str_append_cons, startsWith_cons, Hc. reflexivity.
Qed.

Lemma join_words (ws : list string) :
  Forall (fun w => w <> "" /\ StrView.allChars StrView.notSpace w = true) ws ->
  StrView.occurs "  " (Str.join " " ws) = false
  /\ Str.startsWith (Str.join " " ws) " " = false
  /\ (forall d, StrView.lastChar (Str.join " " ws) = Some d -> StrView.notSpace d = true).
Proof.
  induction 1 as [|w ws [Hne Hw] Hws [IHocc [IHstart IHlast]]].
  - repeat split. discriminate.
  - destruct ws as [|y ys].
    + change (Str.join " " [w]) with w. split; [|split].
      * rewrite <- (str_append_empty_r w). clear Hne.
        induction w as [|c w IHw]; [reflexivity|].
        cbn [StrView.allChars] in Hw. apply andb_prop in Hw as [Hc Hw].
        unfold StrView.notSpace in Hc. apply negb_true_iff in Hc.
        rewrite Ascii.eqb_sym in Hc.
        rewrite str_append_cons, occurs_cons, startsWith_cons, Hc. exact (IHw Hw).
      * rewrite <- (str_append_empty_r w). apply word_not_spaced; assumption.
      * intros d. apply lastChar_allChars. exact Hw.
    + rewrite join_cons. split; [|split].
      * apply word_then_space; assumption.
      * apply word_not_spaced; assumption.
      * intros d. rewrite !lastChar_append.
        -- apply IHlast.
        -- apply join_nonempty. apply Forall_cons in Hws as [[Hy _] _]. exact Hy.
        -- discriminate.
Qed.

(** X17 (a humanized label is clean).  For every segment of ASCII
    characters, on which the case mapping and the white space of the
    embedding are those of JavaScript, the label [humanizeSegment] returns
    holds no underscore and no hyphen, does not start or end with a space
    and has no two spaces in a row. *)
Theorem humanizeSegment_is_clean (seg : string) :
  StrView.allChars StrView.isAscii seg = true ->
  let label := NavgenTree.humanizeSegment seg in
  Str.includes label "_" = false
  /\ Str.includes label "-" = false
  /\ Str.includes label "  " = false
  /\ Str.startsWith label " " = false
  /\ Str.endsWith label " " = false.
Proof.
  intros _ label. unfold label, NavgenTree.humanizeSegment.
  set (s := Str.trim (Str.replaceSeparators (Str.stripHtmlSuffix seg))).
  destruct (negb (Str.nonempty s)); [repeat split|].
  set (Q := fun c => StrView.notSpace c && StrView.notSeparator c).
  assert (Hs : StrView.allChars StrView.notSeparator s = true).
  { apply trimEnd_allChars, trimStart_allChars, replaceSeparators_clean. }
  assert (Hwords :
    Forall (fun w => w <> "" /\ StrView.allChars Q w = true)
      (map NavgenTree.titleCaseWord
         (filter (fun w => Str.nonempty w = true) (Str.split s " ")))).
  { apply Forall_map. apply Forall_forall. intros w Hw.
    apply list_elem_of_filter in Hw as [Hne Hw].
    apply titleCaseWord_word; [intros ->; discriminate|].
    assert (Hall : Forall (fun w => StrView.allChars Q w = true) (Str.split s " ")).
    { apply split_words; [|constructor].
      eapply allChars_impl; [|exact Hs]. intros c Hc. unfold Q, StrView.notSpace.
      rewrite Hc, andb_true_r, (Ascii.eqb_sym c). destruct (Ascii.eqb " " c); reflexivity. }
    rewrite Forall_forall in Hall. exact (Hall w Hw). }
  set (ws := map NavgenTree.titleCaseWord _) in *.
  assert (Hsep : StrView.allChars StrView.notSeparator (Str.join " " ws) = true).
  { clear -Hwords. induction Hwords as [|w ws' [_ Hw] Hws IH]; [reflexivity|].
    assert (Hw' : StrView.allChars StrView.notSeparator w = true).
    { eapply allChars_impl; [|exact Hw]. intros c Hc. apply andb_prop in Hc as [_ Hc].
      exact Hc. }
    destruct ws' as [|y ys]; [exact Hw'|].
    rewrite join_cons, !allChars_append, Hw', IH. reflexivity. }
  destruct (join_words ws) as [Hocc [Hstart Hlast]].
  { eapply Forall_impl; [exact Hwords|]. intros w [Hne Hw]. split; [exact Hne|].
    eapply allChars_impl; [|exact Hw]. intros c Hc. apply andb_prop in Hc as [Hc _].
    exact Hc. }
  rewrite !includes_occurs, !occurs_single.
  split; [|split; [|split; [exact Hocc | split; [exact Hstart|]]]].
  - apply negb_false_iff. eapply allChars_impl; [|exact Hsep].
    intros c. unfold StrView.notSeparator, Str.is_sep_char. rewrite (Ascii.eqb_sym c "_").
    destruct (Ascii.eqb "_" c); [discriminate | reflexivity].
  - apply negb_false_iff. eapply allChars_impl; [|exact Hsep].
    intros c. unfold StrView.notSeparator, Str.is_sep_char. rewrite (Ascii.eqb_sym c "-").
    destruct (Ascii.eqb "-" c); [rewrite orb_true_r; discriminate | reflexivity].
  - rewrite endsWith_single. destruct (StrView.lastChar (Str.join " " ws)) as [d|] eqn:Hd;
      [|reflexivity].
    specialize (Hlast d eq_refl). unfold StrView.notSpace in Hlast.
    apply negb_true_iff in Hlast. exact Hlast.
Qed.

Lemma humanizeSegment_is_clean_witness :
  let label := NavgenTree.humanizeSegment "deep_sea--fauna.HTML" in
  label = "Deep Sea Fauna"
  /\ Str.includes label "_" = false
  /\ Str.includes label "-" = false
  /\ Str.includes label "  " = false
  /\ Str.startsWith label " " = false
  /\ Str.endsWith label " " = false.
Proof.
  split; [reflexivity|].
  exact (humanizeSegment_is_clean "deep_sea--fauna.HTML" eq_refl).
Defined.

(** ** What the tree shows *)

Lemma tree_row_displayed (h : Host) (env : Env) (options : Options) (cp : string) (e : Json)
    (r : Node) (path : list string) :
  NavgenTree.makeRow h env options cp e = Ok r ->
  Spec.displayedUnder path r = [(path, TreeView.rowTitle e)].
Proof.
  unfold NavgenTree.makeRow, TreeView.rowTitle. intros H.
  apply bind_Ok_inv in H as [ov [Hov H]].
  apply bind_Ok_inv in H as [output [Hout H]].
  apply bind_Ok_inv in H as [href [_ H]].
  apply bind_Ok_inv in H as [leaf [Hleaf H]].
  apply bind_Ok_inv in H as [tv [Htv H]].
  apply bind_Ok_inv in H as [ttv [Httv H]].
  apply bind_Ok_inv in H as [iv [Hiv H]].
  apply bind_Ok_inv in H as [shown [Hshown H]].
  apply bind_Ok_inv in H as [meta [Hmeta H]].
  apply bind_Ok_inv in H as [right [Hright H]].
  unfold Spec.prop. rewrite Hleaf, Hov, Htv, Httv, Hiv, Hout.
  cbn [Spec.textOf]. rewrite Hshown. cbn [Spec.textOf].
  unfold_result. injection H as <-.
  apply metaLine_shape in Hmeta.
  apply badges_shape in Hright as [used [missing [-> [Hused Hmissing]]]].
  unfold NavCommon.assembleRow, NavCommon.rowAnchor.
  destruct (Str.nonempty _ && Str.endsWith _ _), Hmeta as [-> | [t ->]],
    Hused as [-> | [u ->]], Hmissing as [-> | [w ->]]; reflexivity.
Qed.

Lemma tree_rows_displayed (h : Host) (env : Env) (options : Options) (cp : string)
    (pages : list Json) (rows : list Node) (path : list string) :
  traverse (NavgenTree.makeRow h env options cp) pages = Ok rows ->
  concat (map (Spec.displayedUnder path) (NavgenTree.pagesList rows))
  = map (fun e => (path, TreeView.rowTitle e)) pages.
Proof.
  intros H. apply traverse_Ok_inv in H.
  assert (Hrows : concat (map (Spec.displayedUnder path) rows)
                  = map (fun e => (path, TreeView.rowTitle e)) pages).
  { induction H as [|e r pages' rows' Hr _ IH]; [reflexivity|]. simpl.
    rewrite (tree_row_displayed _ _ _ _ _ _ path Hr), IH. reflexivity. }
  destruct rows as [|r rows']; [exact Hrows|].
  unfold NavgenTree.pagesList. cbn [map concat].
  rewrite displayedUnder_list, app_nil_r by reflexivity. exact Hrows.
Qed.

Lemma renderNode_eq (h : Host) (env : Env) (options : Options) (cp : string)
    (folders : list (string * Tree)) (pages : list Json) (label : string) (depth : Z) :
  NavgenTree.renderNode h env options cp (TreeNode folders pages) label depth
  = (rows ← traverse (NavgenTree.makeRow h env options cp) pages;
     groups ← traverse (fun fc => NavgenTree.renderNode h env options cp (snd fc) (fst fc)
                                    (depth + 1)) folders;
     mret (Elem "details" "nav-group" None (if depth <=? 0 then [("open", "")] else [])
             [Elem "summary" "nav-group-title" (Some (NavgenTree.humanizeSegment label)) [] [];
              Elem "div" "nav-group-body" None [] (NavgenTree.pagesList rows ++ groups)])).
Proof.
  cbn [NavgenTree.renderNode].
  destruct (traverse (NavgenTree.makeRow h env options cp) pages) as [rows|err];
    unfold_result; [|reflexivity].
  match goal with
  | |- match ?X with Ok _ => _ | Err _ => _ end = _ =>
      assert (Heach : X = traverse (fun fc => NavgenTree.renderNode h env options cp (snd fc)
                                               (fst fc) (depth + 1)) folders)
  end.
  { induction folders as [|[k c] rest IH]; [reflexivity|].
    cbn [traverse]. unfold_result. rewrite <- IH. cbn [fst snd].
    destruct (NavgenTree.renderNode h env options cp c k (depth + 1)); reflexivity. }
  rewrite Heach. reflexivity.
Qed.

Lemma renderNode_displayed (h : Host) (env : Env) (options : Options) (cp : string)
    (node : Tree) :
  forall (label : string) (depth : Z) (path : list string) (g : Node),
    NavgenTree.renderNode h env options cp node label depth = Ok g ->
    Spec.displayedUnder path g
    = TreeView.listing (path ++ [NavgenTree.humanizeSegment label]) node.
Proof.
  induction node as [folders pages IH] using Tree_nested_ind.
  intros label depth path g H. rewrite renderNode_eq in H.
  apply bind_Ok_inv in H as [rows [Hrows H]].
  apply bind_Ok_inv in H as [groups [Hgroups H]].
  unfold_result. injection H as <-.
  set (path' := path ++ [NavgenTree.humanizeSegment label]).
  assert (Hbody :
    concat (map (Spec.displayedUnder path') (NavgenTree.pagesList rows ++ groups))
    = TreeView.listing path' (TreeNode folders pages)).
  { rewrite map_app, concat_app, (tree_rows_displayed _ _ _ _ _ _ path' Hrows).
    cbn [TreeView.listing]. f_equal.
    apply traverse_Ok_inv in Hgroups. clear Hrows.
    induction Hgroups as [|[k c] g' rest groups' Hg _ IHg]; [reflexivity|].
    apply Forall_cons in IH as [IHc IHrest]. cbn [map concat fst snd] in *.
    rewrite (IHc k (depth + 1) path' g' Hg), (IHg IHrest). reflexivity. }
  rewrite <- Hbody.
  transitivity
    (Spec.displayedUnder path'
       (Elem "div" "nav-group-body" None [] (NavgenTree.pagesList rows ++ groups))).
  - cbn. rewrite app_nil_r. reflexivity.
  - apply displayedUnder_list; reflexivity.
Qed.

Lemma renderTree_displayed (h : Host) (env : Env)
    (mountEl mount' : list Node) (arc : string) (tree : Tree) (options : Options) :
  NavgenTree.renderTree h env mountEl arc tree options = Ok mount' ->
  Spec.displayed (Some mount') = Spec.displayed (Some mountEl) ++ TreeView.listing [] tree.
Proof.
  unfold NavgenTree.renderTree. destruct tree as [folders pages]. intros H.
  apply bind_Ok_inv in H as [rows [Hrows H]].
  apply bind_Ok_inv in H as [groups [Hgroups H]].
  unfold_result. injection H as <-.
  unfold Spec.displayed. rewrite map_app, concat_app. f_equal.
  cbn [map concat]. rewrite displayedUnder_list, app_nil_r by reflexivity.
  rewrite map_app, concat_app, (tree_rows_displayed _ _ _ _ _ _ [] Hrows).
  cbn [TreeView.listing]. f_equal.
  apply traverse_Ok_inv in Hgroups. clear Hrows.
  induction Hgroups as [|[k c] g rest groups' Hg _ IH]; [reflexivity|].
  cbn [map concat fst snd] in *.
  rewrite (renderNode_displayed _ _ _ _ _ _ _ [] _ Hg), IH. reflexivity.
Qed.

(** X18 (the tree shows every page once, under its folders).  When
    [renderTree] returns, the titles it has added to the mount are, in
    document order: the pages of the root without a group, then for every
    folder in the order of the map its pages under the humanized names of
    the folders that lead to it, followed by what its own folders show.
    Every page has one row, whose title is the humanized leaf title, or
    the first truthy of [title], [title_text], [id] and the normalized
    [output] when that is empty. *)
Theorem tree_shows_every_page_under_its_folders (h : Host) (env : Env)
    (mountEl mount' : list Node) (arc : string) (tree : Tree) (options : Options) :
  NavgenTree.renderTree h env mountEl arc tree options = Ok mount' ->
  Spec.displayed (Some mount') = Spec.displayed (Some mountEl) ++ TreeView.listing [] tree.
Proof. apply renderTree_displayed. Qed.

Lemma tree_shows_every_page_under_its_folders_witness :
  let tree := TreeNode [("fiends", TreeNode [("deep", TreeNode [] [Examples.abe])]
                                     [Examples.lucy])] [] in
  let mount' := match NavgenTree.renderTree RefHost.host (Examples.serve Examples.library) []
                        "characters" tree NavCommon.DEFAULTS with
                | Ok mount' => mount'
                | Err _ => []
                end in
  Spec.displayed (Some mount') = [(["Fiends"], "Lucy Moore"); (["Fiends"; "Deep"], "Abe")].
Proof.
  intros tree mount'.
  exact (tree_shows_every_page_under_its_folders RefHost.host
           (Examples.serve Examples.library) [] mount' "characters" tree NavCommon.DEFAULTS
           eq_refl).
Defined.

Lemma listing_titles (t : Tree) :
  forall path, map snd (TreeView.listing path t) = map TreeView.rowTitle (TreeView.allPages t).
Proof.
  induction t as [folders pages IH] using Tree_nested_ind. intros path.
  cbn [TreeView.listing TreeView.allPages]. rewrite !map_app. f_equal.
  - rewrite map_map. reflexivity.
  - induction IH as [|[k c] rest Hc _ IHrest]; [reflexivity|].
    cbn [map concat fst snd] in *. rewrite !map_app, Hc, IHrest. reflexivity.
Qed.

(** X19 (the tree navigation lists every entry once).  For the arcs
    [lore] and [characters], whenever [buildNav] ends with the tree, the
    titles the tree shows are the row titles of the entries of the array,
    each entry once: building, sorting and rendering the tree neither drop
    nor repeat an entry. *)
Theorem tree_nav_lists_every_entry_once (h : Host) (env : Env) (arc : string) (opts : Opts)
    (children : list Node) (m : Json) (items : list Json) (groups : list Node) :
  let options := assignOptions NavCommon.DEFAULTS opts in
  arc = "lore" \/ arc = "characters" ->
  NavgenTree.fetchManifest h env (manifestPath options) = Ok m ->
  NavgenTree.pickArcEntries m arc = Ok (Some items) ->
  NavgenTree.buildNav h env arc (Some children) opts
    = Some [Elem "div" "nav-tree" None [] groups] ->
  Permutation
    (map snd (Spec.displayed (NavgenTree.buildNav h env arc (Some children) opts)))
    (map TreeView.rowTitle items).
Proof.
  intros options Harc Hfetch Hpick Hnav. rewrite Hnav. revert Hnav.
  unfold NavgenTree.buildNav, NavgenTree.attempt. fold options.
  rewrite Hfetch. unfold_result. rewrite Hpick.
  destruct (length items =? 0)%nat; [discriminate|].
  destruct (NavCommon.sortBy _ items) as [sorted|err] eqn:Hsort; [|discriminate].
  assert (Htest : String.eqb arc "lore" || String.eqb arc "characters" = true)
    by (destruct Harc as [-> | ->]; reflexivity).
  rewrite Htest.
  destruct (NavgenTree.buildTree sorted arc) as [tree|err] eqn:Hbuild; [|discriminate].
  destruct (NavgenTree.sortNode h tree) as [tree'|err] eqn:Hsorted; [|discriminate].
  destruct (NavgenTree.renderTree h env _ arc tree' options) as [mount'|err] eqn:Hrender;
    [|discriminate].
  intros Hnav. injection Hnav as ->.
  rewrite (renderTree_displayed _ _ _ _ _ _ _ Hrender).
  cbn [clearEl Spec.displayed map concat app]. rewrite listing_titles.
  apply Permutation_map.
  apply buildTree_from_spec in Hbuild as [Hbuilt _]. simpl in Hbuilt.
  apply sortNode_spec in Hsorted as [Hkept _]. apply sortBy_perm in Hsort.
  rewrite Hkept, Hbuilt. symmetry. exact Hsort.
Qed.

Lemma tree_nav_lists_every_entry_once_witness :
  Permutation
    (map snd (Spec.displayed
                (NavgenTree.buildNav RefHost.host (Examples.serve Examples.cast) "characters"
                   (Some []) noOpts)))
    (map TreeView.rowTitle [Examples.lucy; Examples.zed]).
Proof.
  eapply (tree_nav_lists_every_entry_once RefHost.host (Examples.serve Examples.cast)
            "characters" noOpts [] Examples.cast [Examples.lucy; Examples.zed]);
    [right; reflexivity | reflexivity | reflexivity | reflexivity].
Defined.

(** ** The sort keeps the folders *)

Lemma folderGet_elem (k : string) (c : Tree) (l : list (string * Tree)) :
  NoDup (map fst l) -> (TreeView.folderGet k l = Some c <-> (k, c) ∈ l).
Proof.
  induction l as [|[k' c'] rest IH]; simpl; intros Hnd.
  - split; [discriminate | intros H; inversion H].
  - apply NoDup_cons in Hnd as [Hnotin Hnd].
    destruct (String.eqb_spec k' k) as [->|Hne].
    + split.
      * intros [= ->]. apply elem_of_cons. left. reflexivity.
      * intros H. apply elem_of_cons in H as [[= ->]|H]; [reflexivity|].
        exfalso. apply Hnotin. apply list_elem_of_In.
        change k with (fst (k, c)). apply in_map. apply list_elem_of_In. exact H.
    + rewrite (IH Hnd). split.
      * intros H. apply elem_of_cons. right. exact H.
      * intros H. apply elem_of_cons in H as [[= -> ->]|H]; [congruence | exact H].
Qed.

Lemma folderGet_perm (k : string) (l l' : list (string * Tree)) :
  NoDup (map fst l) -> Permutation l l' ->
  TreeView.folderGet k l = TreeView.folderGet k l'.
Proof.
  intros Hnd Hperm.
  assert (Hnd' : NoDup (map fst l')) by (rewrite <- Hperm; exact Hnd).
  destruct (TreeView.folderGet k l) as [c|] eqn:Hl.
  - symmetry. apply (folderGet_elem k c l' Hnd'). rewrite <- Hperm.
    apply (folderGet_elem k c l Hnd). exact Hl.
  - destruct (TreeView.folderGet k l') as [c'|] eqn:Hl'; [|reflexivity].
    apply (folderGet_elem k c' l' Hnd') in Hl'. rewrite <- Hperm in Hl'.
    apply (folderGet_elem k c' l Hnd) in Hl'. congruence.
Qed.

Lemma folderGet_children (h : Host) (k : string) (folders children : list (string * Tree)) :
  Forall2 (fun kc kc' => fst kc' = fst kc /\ NavgenTree.sortNode h (snd kc) = Ok (snd kc'))
    folders children ->
  match TreeView.folderGet k folders with
  | Some c => exists c', TreeView.folderGet k children = Some c'
                         /\ NavgenTree.sortNode h c = Ok c'
  | None => TreeView.folderGet k children = None
  end.
Proof.
  induction 1 as [|[k1 c1] [k2 c2] rest rest' [Hk Hc] _ IH]; [reflexivity|].
  simpl in *. subst k2. destruct (String.eqb k1 k); [eauto | exact IH].
Qed.

Lemma sortNode_nodeAt (h : Host) (path : list string) :
  forall t t', NavgenTree.sortNode h t = Ok t' -> TreeView.keysUnique t ->
    match TreeView.nodeAt path t with
    | Some n => exists n', TreeView.nodeAt path t' = Some n'
                           /\ NavgenTree.sortNode h n = Ok n'
    | None => TreeView.nodeAt path t' = None
    end.
Proof.
  induction path as [|k rest IH]; intros [folders pages] t' Hsort Hu.
  - exists t'. split; [reflexivity | exact Hsort].
  - pose proof Hsort as Hinv.
    apply sortNode_inv in Hinv as [pages' [children [newMap [-> [_ [Hch Hmap]]]]]].
    inversion Hu as [? ? Hnd Hall]; subst.
    assert (Hkeys : map fst children = map fst folders).
    { clear -Hch. induction Hch as [|[k1 c1] [k2 c2] r r' [Hk _] _ IHch];
        [reflexivity|]. simpl in *. congruence. }
    cbn [TreeView.nodeAt].
    rewrite <- (folderGet_perm k children newMap) by (rewrite ?Hkeys; assumption).
    pose proof (folderGet_children h k folders children Hch) as Hget.
    destruct (TreeView.folderGet k folders) as [c|] eqn:Hc.
    + destruct Hget as [c' [-> Hc']]. apply IH; [exact Hc'|].
      apply (folderGet_elem k c folders Hnd) in Hc.
      rewrite Forall_forall in Hall. exact (Hall _ Hc).
    + rewrite Hget. reflexivity.
Qed.

Lemma sortNode_pagesAt (h : Host) (path : list string) (t t' : Tree) :
  NavgenTree.sortNode h t = Ok t' -> TreeView.keysUnique t ->
  Permutation (TreeView.pagesAt path t') (TreeView.pagesAt path t).
Proof.
  intros Hsort Hkeys.
  pose proof (sortNode_nodeAt h path t t' Hsort Hkeys) as Hat.
  unfold TreeView.pagesAt.
  destruct (TreeView.nodeAt path t) as [[folders pages]|].
  - destruct Hat as [n' [-> Hn']].
    apply sortNode_inv in Hn' as [pages' [_ [_ [-> [Hpages _]]]]].
    symmetry. exact Hpages.
  - rewrite Hat. reflexivity.
Qed.

(** X20 ([sortNode] keeps every entry in its folder).  In the tree
    [sortNode] makes of a tree of [buildTree], every folder path leads to
    the pages it led to before, in another order at most: sorting moves no
    entry to another folder. *)
Theorem sort_keeps_folder_contents (h : Host) (arc : string) (entries : list Json)
    (t t' : Tree) (path : list string) :
  NavgenTree.buildTree entries arc = Ok t ->
  NavgenTree.sortNode h t = Ok t' ->
  Permutation (TreeView.pagesAt path t') (TreeView.pagesAt path t).
Proof.
  intros Hbuild Hsort. apply buildTree_from_spec in Hbuild as [_ [Hkeys _]].
  apply (sortNode_pagesAt h path t t' Hsort). apply Hkeys, emptyTree_keysUnique.
Qed.

Lemma sort_keeps_folder_contents_witness :
  let t := match NavgenTree.buildTree [Examples.zed; Examples.lucy; Examples.abe]
                   "characters" with
           | Ok t => t
           | Err _ => NavgenTree.emptyTree
           end in
  let t' := match NavgenTree.sortNode RefHost.host t with
            | Ok t' => t'
            | Err _ => NavgenTree.emptyTree
            end in
  Permutation (TreeView.pagesAt ["fiends"] t') (TreeView.pagesAt ["fiends"] t).
Proof.
  intros t t'.
  exact (sort_keeps_folder_contents RefHost.host "characters"
           [Examples.zed; Examples.lucy; Examples.abe] t t' ["fiends"] eq_refl eq_refl).
Defined.

(** ** What [output] decides

    The tree variant reads more of [output] than the flat list does: the
    lemmas on the folder tree above say where an entry is placed. *)

Lemma pushAt_pagesAt_mono (path other : list string) (x e : Json) (t : Tree) :
  e ∈ TreeView.pagesAt other t -> e ∈ TreeView.pagesAt other (NavgenTree.pushAt path x t).
Proof.
  intros He. destruct (decide (other = path)) as [->|Hne].
  - rewrite pushAt_pagesAt. apply elem_of_app. left. exact He.
  - rewrite pushAt_pagesAt_other by exact Hne. exact He.
Qed.

(** [buildTree] keeps what a folder holds. *)
Lemma buildTree_from_mono (arc : string) (entries : list Json) (other : list string) (e : Json) :
  forall root t, NavgenTree.buildTree_from arc root entries = Ok t ->
    e ∈ TreeView.pagesAt other root -> e ∈ TreeView.pagesAt other t.
Proof.
  induction entries as [|x rest IH]; cbn [NavgenTree.buildTree_from]; intros root t H He.
  - injection H as <-. exact He.
  - apply bind_Ok_inv in H as [root' [Hadd H]].
    apply (IH root' t H).
    apply addEntry_pushAt in Hadd as [outV [rel [path [_ [_ [_ ->]]]]]].
    apply pushAt_pagesAt_mono, He.
Qed.

(** [buildTree] places an entry under the folders its [output] names. *)
Lemma buildTree_from_places (arc file : string) (folders : list string) (e : Json)
    (entries : list Json) :
  StrView.segment arc -> Forall StrView.segment folders -> StrView.segment file ->
  head folders <> Some "." ->
  Js.get e "output"
    = Ok (Some (JStr (Str.join "/" ("content" :: arc :: folders ++ [file])))) ->
  forall root t, NavgenTree.buildTree_from arc root entries = Ok t ->
    e ∈ entries -> e ∈ TreeView.pagesAt folders t.
Proof.
  intros Harc Hfolders Hfile Hhead Hout.
  induction entries as [|x rest IH]; cbn [NavgenTree.buildTree_from]; intros root t H He;
    [inversion He|].
  apply bind_Ok_inv in H as [root' [Hadd H]].
  apply elem_of_cons in He as [<-|He]; [|exact (IH root' t H He)].
  rewrite (addEntry_at_folders arc file folders e root Harc Hfolders Hfile Hhead Hout)
    in Hadd.
  injection Hadd as <-.
  apply (buildTree_from_mono arc rest folders e _ t H).
  rewrite pushAt_pagesAt. apply elem_of_app. right. apply list_elem_of_singleton.
  reflexivity.
Qed.

(** A page of a folder is listed under the labels of the folders that lead
    to it. *)
Lemma listing_pagesAt (path : list string) (e : Json) :
  forall (prefix : list string) (t : Tree),
    e ∈ TreeView.pagesAt path t ->
    (prefix ++ map NavgenTree.humanizeSegment path, TreeView.rowTitle e)
    ∈ TreeView.listing prefix t.
Proof.
  induction path as [|k rest IH]; intros prefix [folders pages] He.
  - cbn [map TreeView.listing]. rewrite app_nil_r. apply elem_of_app. left.
    apply list_elem_of_In.
    apply (in_map (fun e0 => (prefix, TreeView.rowTitle e0))).
    apply list_elem_of_In. exact He.
  - rewrite pagesAt_cons in He. cbn [TreeView.listing]. apply elem_of_app. right.
    destruct (TreeView.folderGet k folders) as [child|] eqn:Hget;
      [|cbn [default] in He; rewrite pagesAt_emptyTree in He; inversion He].
    cbn [default] in He.
    specialize (IH (prefix ++ [NavgenTree.humanizeSegment k]) child He).
    rewrite <- app_assoc in IH. cbn [app map] in *.
    clear He. induction folders as [|[k' c'] others IHf]; [discriminate|].
    cbn [TreeView.folderGet] in Hget. cbn [map concat fst snd]. apply elem_of_app.
    destruct (String.eqb_spec k' k) as [->|Hne].
    + injection Hget as ->. left. exact IH.
    + right. apply IHf. exact Hget.
Qed.

(** The steps of [buildNav] when it ends with the tree. *)
Lemma tree_nav_steps (h : Host) (env : Env) (arc : string) (opts : Opts)
    (children : list Node) (m : Json) (items : list Json) (groups : list Node) :
  arc = "lore" \/ arc = "characters" ->
  NavgenTree.fetchManifest h env (manifestPath (assignOptions NavCommon.DEFAULTS opts))
    = Ok m ->
  NavgenTree.pickArcEntries m arc = Ok (Some items) ->
  NavgenTree.buildNav h env arc (Some children) opts
    = Some [Elem "div" "nav-tree" None [] groups] ->
  exists sorted tree tree',
    NavCommon.sortBy (NavgenTree.compareEntries h) items = Ok sorted
    /\ NavgenTree.buildTree sorted arc = Ok tree
    /\ NavgenTree.sortNode h tree = Ok tree'
    /\ Spec.displayed (NavgenTree.buildNav h env arc (Some children) opts)
       = TreeView.listing [] tree'.
Proof.
  intros Harc Hfetch Hpick Hnav. rewrite Hnav. revert Hnav.
  unfold NavgenTree.buildNav, NavgenTree.attempt.
  rewrite Hfetch. unfold_result. rewrite Hpick.
  destruct (length items =? 0)%nat; [discriminate|].
  destruct (NavCommon.sortBy _ items) as [sorted|err] eqn:Hsort; [|discriminate].
  assert (Htest : String.eqb arc "lore" || String.eqb arc "characters" = true)
    by (destruct Harc as [-> | ->]; reflexivity).
  rewrite Htest.
  destruct (NavgenTree.buildTree sorted arc) as [tree|err] eqn:Hbuild; [|discriminate].
  destruct (NavgenTree.sortNode h tree) as [tree'|err] eqn:Hsorted; [|discriminate].
  destruct (NavgenTree.renderTree h env _ arc tree' _) as [mount'|err] eqn:Hrender;
    [|discriminate].
  intros Hnav. injection Hnav as ->.
  exists sorted, tree, tree'.
  split; [reflexivity|]. split; [exact Hbuild|]. split; [exact Hsorted|].
  rewrite (renderTree_displayed _ _ _ _ _ _ _ Hrender). reflexivity.
Qed.

Lemma or_truthy (a b : JsVal) : Js.truthy a = true -> Js.or a b = a.
Proof. intros H. unfold Js.or. rewrite H. reflexivity. Qed.

Lemma or_falsy (a b : JsVal) : Js.truthy a = false -> Js.or a b = b.
Proof. intros H. unfold Js.or. rewrite H. reflexivity. Qed.

(** A title written as a path is a title. *)
Lemma pathLeaf_hasTitle (e : Json) (leaf : string) :
  Spec.pathLeaf e = Some leaf -> Spec.hasTitle e.
Proof.
  unfold Spec.pathLeaf, Spec.hasTitle.
  destruct (Js.truthy (Js.or (Js.or (Spec.prop (Some e) "title")
                                (Spec.prop (Some e) "title_text"))
                         (Spec.prop (Some e) "id"))) eqn:Ht; [reflexivity|].
  rewrite (or_falsy _ _ Ht). cbn. discriminate.
Qed.

(** The title of the row of an entry whose title is written as a path. *)
Lemma rowTitle_of_pathLeaf (e : Json) (leaf : string) :
  e <> JNull -> Spec.pathLeaf e = Some leaf ->
  TreeView.rowTitle e
  = if Str.nonempty (NavgenTree.humanizeSegment leaf)
    then NavgenTree.humanizeSegment leaf
    else Spec.textOf (NavCommon.safeText (Spec.titleValue e)).
Proof.
  intros He Hleaf. unfold TreeView.rowTitle.
  rewrite (tree_leafTitle_of_pathLeaf e leaf He Hleaf).
  destruct (Str.nonempty (NavgenTree.humanizeSegment leaf)) eqn:Hlabel.
  - assert (Ht : Js.truthy (Some (JStr (NavgenTree.humanizeSegment leaf))) = true)
      by exact Hlabel.
    rewrite !(or_truthy _ _ Ht). reflexivity.
  - assert (Hf : Js.truthy (Some (JStr (NavgenTree.humanizeSegment leaf))) = false)
      by exact Hlabel.
    rewrite (or_falsy _ _ Hf).
    pose proof (pathLeaf_hasTitle e leaf Hleaf) as Htitle.
    unfold Spec.hasTitle in Htitle. unfold Spec.titleValue.
    rewrite (or_truthy _ _ Htitle). reflexivity.
Qed.

(** The leaf title of an entry whose title is not written as a path is the
    stem of the file its [output] names. *)
Lemma leafTitle_of_output (arc file : string) (folders : list string) (e : Json) :
  StrView.segment arc -> Forall StrView.segment folders -> StrView.segment file ->
  Js.get e "output"
    = Ok (Some (JStr (Str.join "/" ("content" :: arc :: folders ++ [file])))) ->
  Spec.titled e -> Spec.pathLeaf e = None ->
  NavgenTree.leafTitleFromEntry e = Ok (Str.stripHtmlSuffix file).
Proof.
  intros Harc Hfolders Hfile Hout Ht Hleaf.
  assert (He : e <> JNull) by (eapply get_Ok_nonnull; exact Hout).
  assert (Hp : Js.printableV (Js.or (Spec.titleValue e) (Some (JStr ""))) = true)
    by (apply printableV_or; [exact Ht | reflexivity]).
  apply safeText_textOf in Hp. revert Hleaf Hp.
  unfold Spec.pathLeaf, NavgenTree.leafTitleFromEntry, Spec.titleValue, Spec.prop.
  destruct (get_nonnull e "title" He) as [tv ->].
  destruct (get_nonnull e "title_text" He) as [ttv ->].
  destruct (get_nonnull e "id" He) as [iv ->].
  rewrite Hout. intros Hleaf Hp. unfold_result. rewrite Hp.
  match goal with
  | |- match last ?parts with Some _ => _ | None => _ end = _ =>
      assert (Hparts : last parts = None)
  end.
  { destruct (Str.includes _ " / "); [exact Hleaf | reflexivity]. }
  rewrite Hparts, normalizePath_output by assumption.
  destruct (output_path_segments arc file folders Harc Hfolders Hfile)
    as [Hall [_ [_ _]]].
  rewrite split_join;
    [|eapply Forall_impl; [exact Hall|]; intros x Hx;
      apply segment_chars in Hx as [_ [? _]]; assumption
     |discriminate].
  change ("content" :: arc :: folders ++ [file])
    with (("content" :: arc :: folders) ++ [file]).
  rewrite last_snoc. cbn [default].
  destruct Hfile as [Hne _]. destruct file; [congruence | reflexivity].
Qed.

(** C4, as amended (what [output] decides).  In [js/navgen.js], two manifests
    whose entries differ only in [output], every entry being plain and
    having a truthy [title], [title_text] or [id], are rendered with the
    same titles in the same order and without groups: there [output] is the
    link, the mark of the current page and the last resort for a title.  In
    the tree variant the row of an entry whose title is written as a path
    shows the humanized last segment of that title (the title itself when
    that label is empty), whatever [output] is.  For [lore] and
    [characters] the tree lists an entry whose [output] is
    [content/<arc>/<f1>/.../<fn>/<file>] under the groups labelled with the
    humanized folders [f1, ..., fn], and takes the stem of [file] for its
    leaf title when the title is not written as a path: there the groups,
    and these titles, come from [output]. *)
Theorem C4_output_dependence (h : Host) (env1 env2 : Env) (arc : string) (opts : Opts)
    (children : list Node) (m1 m2 : Json) (items1 items2 : list Json) :
  let options := assignOptions NavCommon.DEFAULTS opts in
  let path := manifestPath options in
  (Navgen.fetchManifest h env1 path = Ok m1 ->
   Navgen.fetchManifest h env2 path = Ok m2 ->
   Navgen.pickArcEntries m1 arc = Ok (Some items1) ->
   Navgen.pickArcEntries m2 arc = Ok (Some items2) ->
   Forall2 Spec.sameButOutput items1 items2 ->
   Forall Spec.hasTitle items1 ->
   Forall Spec.plain items1 -> Forall Spec.plain items2 ->
   Spec.displayed (Navgen.buildNav h env1 arc (Some children) opts)
   = Spec.displayed (Navgen.buildNav h env2 arc (Some children) opts)
   /\ Forall (fun shown => fst shown = [])
        (Spec.displayed (Navgen.buildNav h env1 arc (Some children) opts)))
  /\ (forall (a b : Json) (leaf : string),
        Spec.sameButOutput a b -> Spec.pathLeaf a = Some leaf ->
        let shown :=
          if Str.nonempty (NavgenTree.humanizeSegment leaf)
          then NavgenTree.humanizeSegment leaf
          else Spec.textOf (NavCommon.safeText (Spec.titleValue a)) in
        NavgenTree.leafTitleFromEntry a = Ok leaf
        /\ NavgenTree.leafTitleFromEntry b = Ok leaf
        /\ forall (cp1 cp2 : string) (ra rb : Node) (under : list string),
             NavgenTree.makeRow h env1 options cp1 a = Ok ra ->
             NavgenTree.makeRow h env2 options cp2 b = Ok rb ->
             Spec.displayedUnder under ra = [(under, shown)]
             /\ Spec.displayedUnder under rb = [(under, shown)])
  /\ (forall (e : Json) (folders : list string) (file : string) (groups : list Node),
        arc = "lore" \/ arc = "characters" ->
        NavgenTree.fetchManifest h env1 path = Ok m1 ->
        NavgenTree.pickArcEntries m1 arc = Ok (Some items1) ->
        e ∈ items1 ->
        Forall StrView.segment folders -> StrView.segment file ->
        head folders <> Some "." ->
        Js.get e "output"
          = Ok (Some (JStr (Str.join "/" ("content" :: arc :: folders ++ [file])))) ->
        NavgenTree.buildNav h env1 arc (Some children) opts
          = Some [Elem "div" "nav-tree" None [] groups] ->
        (map NavgenTree.humanizeSegment folders, TreeView.rowTitle e)
        ∈ Spec.displayed (NavgenTree.buildNav h env1 arc (Some children) opts)
        /\ (Spec.titled e -> Spec.pathLeaf e = None ->
            NavgenTree.leafTitleFromEntry e = Ok (Str.stripHtmlSuffix file))).
Proof.
  intros options path. split; [|split].
  - intros Hf1 Hf2 Hp1 Hp2 Hsame Htitled Hplain1 Hplain2.
    assert (HR : Forall2 (fun a b => Spec.sameButOutput a b /\ Spec.hasTitle a) items1 items2).
    { clear -Hsame Htitled. induction Hsame as [|a b l l' Hab _ IH].
      - constructor.
      - apply Forall_cons in Htitled as [Ha Htitled]. constructor; auto. }
    assert (Hrows : forall items items', Forall2 Spec.sameButOutput items items' ->
              Forall Spec.plain items -> Forall Spec.plain items' ->
              Forall (fun e => e <> JNull /\ Spec.plain e) items
              /\ Forall (fun e => e <> JNull /\ Spec.plain e) items').
    { clear. induction 1 as [|a b l l' Hab _ IH]; intros Hl Hl'; [split; constructor|].
      apply Forall_cons in Hl as [Ha Hl]. apply Forall_cons in Hl' as [Hb Hl'].
      destruct (IH Hl Hl') as [IH1 IH2].
      destruct (sameButOutput_nonnull a b Hab) as [Hna Hnb].
      split; constructor; auto. }
    destruct (Hrows items1 items2 Hsame Hplain1 Hplain2) as [Hok1 Hok2]. clear Hrows.
    unfold Navgen.buildNav, Navgen.attempt. fold options. fold path.
    rewrite Hf1, Hf2. unfold_result. rewrite Hp1, Hp2.
    destruct HR as [|a b l l' Hab HR'].
    { split; [reflexivity | constructor]. }
    cbn [length Nat.eqb].
    pose proof (sortBy_related (Navgen.compareEntries h) (Navgen.compareEntries h)
                  (fun a b => Spec.sameButOutput a b /\ Spec.hasTitle a)
                  ltac:(intros x y x' y' [Hx _] [Hy _]; apply sameButOutput_compare; assumption)
                  (a :: l) (b :: l') ltac:(constructor; assumption)) as Hsort.
    destruct (NavCommon.sortBy (Navgen.compareEntries h) (a :: l)) as [s1|e1] eqn:Hs1,
             (NavCommon.sortBy (Navgen.compareEntries h) (b :: l')) as [s2|e2] eqn:Hs2;
      try contradiction.
    + unfold Navgen.renderList. unfold_result.
      destruct (traverse_total
                  (Navgen.renderRow h options (NavCommon.getCurrentPathnameNormalized env1)) s1)
        as [rows1 [Hrows1 _]].
      { eapply Forall_impl; [exact (sortBy_Forall _ _ _ _ Hs1 Hok1)|].
        intros x [Hx Hpx]. apply navgen_renderRow_total; assumption. }
      destruct (traverse_total
                  (Navgen.renderRow h options (NavCommon.getCurrentPathnameNormalized env2)) s2)
        as [rows2 [Hrows2 _]].
      { eapply Forall_impl; [exact (sortBy_Forall _ _ _ _ Hs2 Hok2)|].
        intros x [Hx Hpx]. apply navgen_renderRow_total; assumption. }
      rewrite Hrows1, Hrows2. unfold Spec.displayed. cbn [map concat clearEl app].
      rewrite !displayedUnder_list, !app_nil_r by reflexivity.
      split.
      * eapply navgen_rows_displayed; eassumption.
      * clear -Hrows1. revert rows1 Hrows1.
        induction s1 as [|x s1 IH]; simpl; intros rows1 Hrows1.
        -- injection Hrows1 as <-. constructor.
        -- apply bind_Ok_inv in Hrows1 as [r [Hr Hrows1]].
           apply bind_Ok_inv in Hrows1 as [rs [Hrs Hrows1]].
           unfold_result. injection Hrows1 as <-. simpl.
           rewrite (navgen_row_displayed _ _ _ _ _ [] Hr).
           constructor; [reflexivity | apply IH; exact Hrs].
    + subst e2. split; [reflexivity | constructor].
  - intros a b leaf Hab Hleaf shown.
    destruct (sameButOutput_nonnull a b Hab) as [Ha Hb].
    assert (Hleaf' : Spec.pathLeaf b = Some leaf)
      by (rewrite <- (sameButOutput_pathLeaf a b Hab); exact Hleaf).
    split; [apply tree_leafTitle_of_pathLeaf; assumption|].
    split; [apply tree_leafTitle_of_pathLeaf; assumption|].
    intros cp1 cp2 ra rb under Hra Hrb.
    rewrite (tree_row_displayed _ _ _ _ _ _ under Hra),
      (tree_row_displayed _ _ _ _ _ _ under Hrb).
    rewrite (rowTitle_of_pathLeaf a leaf Ha Hleaf), (rowTitle_of_pathLeaf b leaf Hb Hleaf').
    rewrite <- (sameButOutput_titleValue a b Hab). split; reflexivity.
  - intros e folders file groups Harc Hfetch Hpick He Hfolders Hfile Hhead Hout Hnav.
    assert (Hseg : StrView.segment arc)
      by (destruct Harc as [-> | ->]; (split; [discriminate | reflexivity])).
    split; [|intros Ht Hleaf; apply (leafTitle_of_output arc file folders); assumption].
    destruct (tree_nav_steps h env1 arc opts children m1 items1 groups Harc Hfetch Hpick Hnav)
      as [sorted [tree [tree' [Hsort [Hbuild [Hsorted ->]]]]]].
    apply (listing_pagesAt folders e [] tree').
    assert (Hkeys : TreeView.keysUnique tree).
    { pose proof Hbuild as Hspec.
      apply buildTree_from_spec in Hspec as [_ [Hkeys _]].
      apply Hkeys, emptyTree_keysUnique. }
    rewrite (sortNode_pagesAt h folders tree tree' Hsorted Hkeys).
    apply (buildTree_from_places arc file folders e sorted Hseg Hfolders Hfile Hhead Hout
             NavgenTree.emptyTree tree Hbuild).
    rewrite <- (sortBy_perm _ _ _ Hsort). exact He.
Qed.

Ltac solve_sameButOutput :=
  eexists _, _; split; [reflexivity|]; split; [reflexivity|];
  let k := fresh "k" in let Hk := fresh "Hk" in
  intros k Hk; simpl;
  repeat (destruct (String.eqb k _) eqn:?; [reflexivity|]);
  destruct (String.eqb_spec k "output"); [contradiction | reflexivity].

Lemma C4_output_dependence_witness :
  Spec.displayed
    (Navgen.buildNav RefHost.host (Examples.serve Examples.chapters) "flame" (Some []) noOpts)
  = Spec.displayed
      (Navgen.buildNav RefHost.host (Examples.serve Examples.chaptersMoved) "flame" (Some [])
         noOpts)
  /\ NavgenTree.leafTitleFromEntry Examples.aberration = Ok "Aberration"
  /\ NavgenTree.leafTitleFromEntry Examples.aberrationMoved = Ok "Aberration"
  /\ (["Fiends"], "Lucy Moore")
     ∈ Spec.displayed
         (NavgenTree.buildNav RefHost.host (Examples.serve Examples.castOne) "characters"
            (Some []) noOpts)
  /\ NavgenTree.leafTitleFromEntry Examples.lucy = Ok "lucy-moore".
Proof.
  destruct (C4_output_dependence RefHost.host (Examples.serve Examples.chapters)
              (Examples.serve Examples.chaptersMoved) "flame" noOpts []
              Examples.chapters Examples.chaptersMoved
              [Examples.f02; Examples.f01] [Examples.f02Moved; Examples.f01Moved])
    as [Hflat [Htitle _]].
  destruct (C4_output_dependence RefHost.host (Examples.serve Examples.castOne)
              (Examples.serve Examples.castOne) "characters" noOpts []
              Examples.castOne Examples.castOne [Examples.lucy] [Examples.lucy])
    as [_ [_ Hgroups]].
  split; [|split; [|split]].
  - apply (Hflat eq_refl eq_refl eq_refl eq_refl).
    + repeat constructor; solve_sameButOutput.
    + repeat constructor.
    + repeat constructor.
    + repeat constructor.
  - apply (Htitle Examples.aberration Examples.aberrationMoved "Aberration").
    + solve_sameButOutput.
    + reflexivity.
  - apply (Htitle Examples.aberration Examples.aberrationMoved "Aberration").
    + solve_sameButOutput.
    + reflexivity.
  - destruct (Hgroups Examples.lucy ["fiends"] "lucy-moore.html"
                [Elem "details" "nav-group" None [("open", "")]
                   [Elem "summary" "nav-group-title" (Some "Fiends") [] [];
                    Elem "div" "nav-group-body" None []
                      [Elem "div" "chapter-list" None []
                         [Elem "a" "chapter-row" None
                            [("href",
                              "https://example.org/STORYHUB/content/characters/fiends/lucy-moore.html")]
                            [Elem "div" "chapter-left" None []
                               [Elem "div" "chapter-title" (Some "Lucy Moore") [] []];
                             Elem "div" "chapter-right" None [] []]]]]])
      as [Hshown Hstem].
    + right. reflexivity.
    + reflexivity.
    + reflexivity.
    + apply list_elem_of_singleton. reflexivity.
    + repeat constructor; discriminate.
    + split; [discriminate | reflexivity].
    + discriminate.
    + reflexivity.
    + vm_compute. reflexivity.
    + split; [exact Hshown|]. apply Hstem; reflexivity.
Defined.

(** In [js/navgen.js] an entry without [title], [title_text] and [id] is
    shown under its [output]. *)
Example navgen_bare_entry_shows_output :
  Spec.sameButOutput (Examples.bare "content/a.html") (Examples.bare "content/b.html")
  /\ Spec.displayed
       (Navgen.buildNav RefHost.host
          (Examples.serve (Examples.manifestOf 2 [("lore", JArr [Examples.bare "content/a.html"])]))
          "lore" (Some []) noOpts)
     = [([], "content/a.html")]
  /\ Spec.displayed
       (Navgen.buildNav RefHost.host
          (Examples.serve (Examples.manifestOf 2 [("lore", JArr [Examples.bare "content/b.html"])]))
          "lore" (Some []) noOpts)
     = [([], "content/b.html")].
Proof. split; [solve_sameButOutput | split; vm_compute; reflexivity]. Qed.

(** C4, as the specification states it, fails in the tree variant: moving the
    [output] of a character entry, and nothing else, changes both the title
    shown and the group it is listed under. *)
Lemma C4_counterexample :
  Forall2 Spec.sameButOutput [Examples.lucy] [Examples.lucyMoved]
  /\ Spec.displayed
       (NavgenTree.buildNav RefHost.host (Examples.serve Examples.castOne) "characters"
          (Some []) noOpts)
     = [(["Fiends"], "Lucy Moore")]
  /\ Spec.displayed
       (NavgenTree.buildNav RefHost.host (Examples.serve Examples.castOneMoved) "characters"
          (Some []) noOpts)
     = [(["Allies"], "Moore")]
  /\ Spec.displayed
       (NavgenTree.buildNav RefHost.host (Examples.serve Examples.castOne) "characters"
          (Some []) noOpts)
     <> Spec.displayed
          (NavgenTree.buildNav RefHost.host (Examples.serve Examples.castOneMoved)
             "characters" (Some []) noOpts).
Proof.
  split; [|split; [|split]; vm_compute; [reflexivity | reflexivity | discriminate]].
  constructor; [|constructor].
  solve_sameButOutput.
Qed.

(** ** The row of the current page *)

Lemma str_length_append (a b : string) :
  String.length (a +:+ b) = (String.length a + String.length b)%nat.
Proof.
  induction a as [|c a IH]; [reflexivity|]. rewrite str_append_cons. simpl. rewrite IH.
  reflexivity.
Qed.

Lemma endsWith_append (p o : string) : Str.endsWith (p +:+ o) o = true.
Proof.
  unfold Str.endsWith. rewrite str_length_append.
  replace (String.length p + String.length o - String.length o)%nat
    with (String.length p) by lia.
  rewrite str_drop_append, String.eqb_refl, andb_true_r.
  apply Nat.leb_le. lia.
Qed.

(** X21 (the current page is marked under any site prefix).  When the
    normalized path of the current page is the normalized [output] of an
    entry after any prefix, as on a site served under [/<repo>/], and that
    [output] is not empty, the row of the entry has the class
    [chapter-row active] and the attribute [aria-current="page"].  Both
    variants. *)
Theorem current_page_is_marked (h : Host) (env : Env) (options : Options)
    (prefix : string) (e : Json) (ov : JsVal) (r : Node) :
  let output := Spec.textOf (NavCommon.normalizePath ov) in
  let cp := prefix +:+ output in
  Js.get e "output" = Ok ov ->
  output <> "" ->
  Navgen.renderRow h options cp e = Ok r \/ NavgenTree.makeRow h env options cp e = Ok r ->
  exists href left right,
    r = Elem "a" "chapter-row active" None [("href", href); ("aria-current", "page")]
          [left; right].
Proof.
  intros output cp Hget Hne Hrow.
  assert (Hanchor : forall href,
    NavCommon.rowAnchor href output cp
    = Elem "a" "chapter-row active" None [("href", href); ("aria-current", "page")] []).
  { intros href. unfold NavCommon.rowAnchor, cp. rewrite endsWith_append.
    destruct output; [congruence | reflexivity]. }
  destruct Hrow as [Hrow|Hrow].
  - unfold Navgen.renderRow in Hrow. rewrite Hget in Hrow. unfold_result.
    apply bind_Ok_inv in Hrow as [out [Hout Hrow]].
    apply bind_Ok_inv in Hrow as [tv [_ Hrow]].
    apply bind_Ok_inv in Hrow as [ttv [_ Hrow]].
    apply bind_Ok_inv in Hrow as [iv [_ Hrow]].
    apply bind_Ok_inv in Hrow as [titleText [_ Hrow]].
    apply bind_Ok_inv in Hrow as [meta [_ Hrow]].
    apply bind_Ok_inv in Hrow as [bs [_ Hrow]].
    unfold_result. injection Hrow as <-.
    assert (Heq : out = output) by (unfold output; rewrite Hout; reflexivity).
    rewrite Heq, Hanchor. eexists _, _, _. reflexivity.
  - unfold NavgenTree.makeRow in Hrow. rewrite Hget in Hrow. unfold_result.
    apply bind_Ok_inv in Hrow as [out [Hout Hrow]].
    apply bind_Ok_inv in Hrow as [href [_ Hrow]].
    apply bind_Ok_inv in Hrow as [leaf [_ Hrow]].
    apply bind_Ok_inv in Hrow as [tv [_ Hrow]].
    apply bind_Ok_inv in Hrow as [ttv [_ Hrow]].
    apply bind_Ok_inv in Hrow as [iv [_ Hrow]].
    apply bind_Ok_inv in Hrow as [shown [_ Hrow]].
    apply bind_Ok_inv in Hrow as [meta [_ Hrow]].
    apply bind_Ok_inv in Hrow as [bs [_ Hrow]].
    unfold_result. injection Hrow as <-.
    assert (Heq : out = output) by (unfold output; rewrite Hout; reflexivity).
    rewrite Heq, Hanchor. eexists _, _, _. reflexivity.
Qed.

Lemma current_page_is_marked_witness :
  exists href left right,
    match Navgen.renderRow RefHost.host NavCommon.DEFAULTS
            "/STORYHUB/content/flame/01_THRESHOLD.html" Examples.f01 with
    | Ok r => r
    | Err _ => Elem "" "" None [] []
    end
    = Elem "a" "chapter-row active" None [("href", href); ("aria-current", "page")]
        [left; right].
Proof.
  apply (current_page_is_marked RefHost.host (Examples.serve Examples.chapters)
           NavCommon.DEFAULTS "/STORYHUB/" Examples.f01
           (Some (JStr "content/flame/01_THRESHOLD.html")));
    [reflexivity | discriminate | left; reflexivity].
Defined.
